(** * A shallow embedding of the prolog commit log

    The development follows the Go sources of the repository:
    - [internal/log/store.go]    : length-prefixed append-only store file,
    - [internal/log/index.go]    : memory-mapped table of 12-byte entries,
    - [internal/log/segment.go]  : one store and one index at a base offset,
    - [internal/log/log.go]      : the ordered list of segments,
    - [internal/discovery/membership.go] : the gossip event handler,
    - [api/v1/error.go]          : [ErrorOffsetOutOfRange].

    Machine integers are modelled as [Z] with the wrap-around written out,
    bytes as [Byte.byte], the data directory as a small POSIX-like file
    system (names bound to inodes, inodes holding bytes), and Go's
    [(value, error)] results as pairs whose second component is an
    [option error] ([None] is Go's [nil]). *)

From Stdlib Require Import ZArith Lia List String Ascii.
From Stdlib Require Import Strings.Byte DecimalString DecimalN.
From stdpp Require Import base gmap strings list sorting.

Local Open Scope Z_scope.

(** ** Machine arithmetic *)

Definition wrap64 (z : Z) : Z := z mod 2 ^ 64.
Definition wrap32 (z : Z) : Z := z mod 2 ^ 32.

(** [int64(x)] for a [uint64] value [x]: the same 64 bits, read as signed. *)
Definition to_int64 (z : Z) : Z := if z <? 2 ^ 63 then z else z - 2 ^ 64.

Definition MaxUint64 : Z := 2 ^ 64 - 1.

Definition len {A} (l : list A) : Z := Z.of_nat (length l).

(** ** Bytes and [binary.BigEndian] *)

Definition byte_of_Z (z : Z) : byte :=
  default "000"%byte (Byte.of_N (Z.to_N (z mod 256))).

Definition Z_of_byte (b : byte) : Z := Z.of_N (Byte.to_N b).

Global Instance byte_eq_decision : EqDecision byte := Byte.byte_eq_dec.

(** [be_put w v]: the [w] low-order bytes of [v], most significant first. *)
Fixpoint be_put (w : nat) (v : Z) : list byte :=
  match w with
  | O => []
  | S k => be_put k (v / 256) ++ [byte_of_Z v]
  end.

Definition be_get (bs : list byte) : Z :=
  fold_left (fun acc b => acc * 256 + Z_of_byte b) bs 0.

Definition PutUint32 (v : Z) : list byte := be_put 4 v.
Definition PutUint64 (v : Z) : list byte := be_put 8 v.
Definition Uint32 (bs : list byte) : Z := be_get bs.
Definition Uint64 (bs : list byte) : Z := be_get bs.

(** [b[lo:lo+n]] on a byte slice. *)
Definition slice (data : list byte) (lo n : Z) : list byte :=
  take (Z.to_nat n) (drop (Z.to_nat lo) data).

(** [copy(b[lo:], src)] when the destination is long enough. *)
Definition splice (data : list byte) (lo : Z) (src : list byte) : list byte :=
  take (Z.to_nat lo) data ++ src ++ drop (Z.to_nat lo + length src) data.

(** ** Errors *)

Inductive error : Type :=
| EOF                                  (* io.EOF *)
| ErrClosed                            (* os.ErrClosed: use of a closed file *)
| ErrNotExist                          (* ENOENT *)
| ErrInvalid                           (* EINVAL: negative length or offset, empty mapping *)
| ErrMarshal                           (* proto.Marshal failed *)
| ErrUnmarshal                         (* proto.Unmarshal failed *)
| ErrorOffsetOutOfRange (Offset : Z)   (* api.ErrorOffsetOutOfRange{Offset} *)
| Panic.                               (* a run-time panic or fault, not an error value *)

Global Instance error_eq_dec : EqDecision error.
Proof. solve_decision. Defined.

(** ** Records and their wire encoding *)

(** Modelled from the spec: the declaration of [api.Record], generated
    from the protobuf description under [api/v1], is not among the sources.
    The code reads and writes its two fields: [Value], a byte slice, and
    [Offset], a [uint64]. *)
Record Record_ : Type := mkRecord { Value : list byte; Offset : Z }.

Definition set_Offset (r : Record_) (off : Z) : Record_ :=
  {| Value := Value r; Offset := off |}.

(** [proto.Marshal] and [proto.Unmarshal] belong to the protobuf library.
    The log only relies on their being inverse on records whose offset
    fits 64 bits. *)
Class Codec : Type := {
  Marshal : Record_ -> option (list byte);
  Unmarshal : list byte -> option Record_;
  Unmarshal_Marshal :
    forall r p, 0 <= Offset r < 2 ^ 64 -> Marshal r = Some p -> Unmarshal p = Some r
}.

(** ** Configuration *)

(** Modelled from the spec: [internal/log/config.go] is not among the
    sources; the three fields are the ones the code reads as
    [c.Segment.MaxStoreBytes], [c.Segment.MaxIndexBytes] and
    [c.Segment.InitialOffset], all [uint64]. *)
Record Config : Type := mkConfig {
  MaxStoreBytes : Z;
  MaxIndexBytes : Z;
  InitialOffset : Z
}.

(** ** The data directory *)

(** File names are bound to inodes; an inode outlives its name while a
    handle or a mapping still refers to it. *)
Record FS : Type := mkFS {
  names : gmap string nat;
  inodes : gmap nat (list byte);
  next_ino : nat
}.

Definition emptyFS : FS := {| names := ∅; inodes := ∅; next_ino := 0 |}.

Definition contents (fs : FS) (ino : nat) : list byte :=
  default [] (inodes fs !! ino).

Definition set_contents (fs : FS) (ino : nat) (data : list byte) : FS :=
  {| names := names fs; inodes := <[ino := data]> (inodes fs); next_ino := next_ino fs |}.

(** [os.ReadDir]: the names in the directory.  Go returns them sorted by
    name; [setup] sorts the parsed numbers again. *)
Definition os_ReadDir (fs : FS) : list string := (map_to_list (names fs)).*1.

(** [os.OpenFile(name, O_RDWR|O_CREATE[|O_APPEND], 0644)]. *)
Definition os_OpenFile (fs : FS) (name : string) : FS * nat :=
  match names fs !! name with
  | Some ino => (fs, ino)
  | None =>
      let ino := next_ino fs in
      ({| names := <[name := ino]> (names fs);
          inodes := <[ino := []]> (inodes fs);
          next_ino := S ino |}, ino)
  end.

(** [os.Stat(name)] followed by [fi.Size()]. *)
Definition os_Stat (fs : FS) (name : string) : Z * option error :=
  match names fs !! name with
  | Some ino => (len (contents fs ino), None)
  | None => (0, Some ErrNotExist)
  end.

(** [ftruncate]: cut, or extend with zero bytes. *)
Definition ftruncate (fs : FS) (ino : nat) (n : Z) : FS :=
  set_contents fs ino (resize (Z.to_nat n) "000"%byte (contents fs ino)).

(** [os.Truncate(name, n)]. *)
Definition os_Truncate (fs : FS) (name : string) (n : Z) : FS * option error :=
  if n <? 0 then (fs, Some ErrInvalid)
  else match names fs !! name with
       | Some ino => (ftruncate fs ino n, None)
       | None => (fs, Some ErrNotExist)
       end.

(** [os.Remove(name)]: unlink. *)
Definition os_Remove (fs : FS) (name : string) : FS * option error :=
  match names fs !! name with
  | Some _ =>
      ({| names := delete name (names fs); inodes := inodes fs; next_ino := next_ino fs |},
       None)
  | None => (fs, Some ErrNotExist)
  end.

(** ** Open files ([*os.File]) *)

Record File : Type := mkFile { f_name : string; f_ino : nat; f_closed : bool }.

Definition File_Name (f : File) : string := f_name f.

(** [f.Write(p)] on a file opened with [O_APPEND]. *)
Definition File_Write (fs : FS) (f : File) (p : list byte) : FS * (Z * option error) :=
  if f_closed f then (fs, (0, Some ErrClosed))
  else (set_contents fs (f_ino f) (contents fs (f_ino f) ++ p), (len p, None)).

(** [f.ReadAt(b, off)] with [len(b) = n]: the bytes read and the error.
    Fewer than [n] bytes come with [io.EOF]; an empty read never reaches
    the file. *)
Definition File_ReadAt (fs : FS) (f : File) (n off : Z) : list byte * option error :=
  if off <? 0 then ([], Some ErrInvalid)
  else if n =? 0 then ([], None)
  else if f_closed f then ([], Some ErrClosed)
  else
    let d := slice (contents fs (f_ino f)) off n in
    if len d <? n then (d, Some EOF) else (d, None).

Definition File_Sync (f : File) : option error :=
  if f_closed f then Some ErrClosed else None.

Definition File_Truncate (fs : FS) (f : File) (n : Z) : FS * option error :=
  if f_closed f then (fs, Some ErrClosed)
  else if n <? 0 then (fs, Some ErrInvalid)
  else (ftruncate fs (f_ino f) n, None).

Definition File_Close (f : File) : File * option error :=
  if f_closed f then (f, Some ErrClosed)
  else ({| f_name := f_name f; f_ino := f_ino f; f_closed := true |}, None).

(** ** store.go *)

Definition lenWidth : Z := 8.

(** [bufio.NewWriter] allocates this many bytes. *)
Definition defaultBufSize : Z := 4096.

(** [Store]: the file, the [bufio.Writer] over it (its pending bytes and
    its sticky error) and the logical size. *)
Record Store : Type := mkStore {
  st_file : File;
  st_buf : list byte;
  st_err : option error;
  st_size : Z
}.

Definition set_buf (s : Store) (buf : list byte) (err : option error) : Store :=
  {| st_file := st_file s; st_buf := buf; st_err := err; st_size := st_size s |}.

Definition Available (s : Store) : Z := defaultBufSize - len (st_buf s).
Definition Buffered (s : Store) : Z := len (st_buf s).

(** [bufio.Writer.Flush]. *)
Definition buf_Flush (fs : FS) (s : Store) : FS * Store * option error :=
  match st_err s with
  | Some e => (fs, s, Some e)
  | None =>
      if Buffered s =? 0 then (fs, s, None)
      else
        match File_Write fs (st_file s) (st_buf s) with
        | (fs', (_, Some e)) => (fs', set_buf s (st_buf s) (Some e), Some e)
        | (fs', (_, None)) => (fs', set_buf s [] None, None)
        end
  end.

(** [bufio.Writer.Write].  A write to the file either takes every byte or
    none, so the loop of the library runs at most twice: once to fill and
    flush a partly filled buffer, once to pass a large remainder through. *)
Definition buf_Write (fs : FS) (s : Store) (p : list byte) : FS * Store * (Z * option error) :=
  match st_err s with
  | Some e => (fs, s, (0, Some e))
  | None =>
      if len p <=? Available s then
        (fs, set_buf s (st_buf s ++ p) None, (len p, None))
      else if Buffered s =? 0 then
        match File_Write fs (st_file s) p with
        | (fs', (n, Some e)) => (fs', set_buf s [] (Some e), (n, Some e))
        | (fs', (n, None)) => (fs', s, (n, None))
        end
      else
        let n := Available s in
        let s1 := set_buf s (st_buf s ++ slice p 0 n) None in
        match buf_Flush fs s1 with
        | (fs1, s2, Some e) => (fs1, s2, (n, Some e))
        | (fs1, s2, None) =>
            let rest := drop (Z.to_nat n) p in
            if len rest <=? Available s2 then
              (fs1, set_buf s2 rest None, (len p, None))
            else
              match File_Write fs1 (st_file s2) rest with
              | (fs2, (m, Some e)) => (fs2, set_buf s2 [] (Some e), (n + m, Some e))
              | (fs2, (m, None)) => (fs2, s2, (n + m, None))
              end
        end
  end.

(** [newStore(file)]. *)
Definition newStore (fs : FS) (f : File) : option Store * option error :=
  match os_Stat fs (File_Name f) with
  | (_, Some e) => (None, Some e)
  | (size, None) =>
      (Some {| st_file := f; st_buf := []; st_err := None; st_size := wrap64 size |}, None)
  end.

(** [Store.Append(p)]: [(n, pos, err)]. *)
Definition Store_Append (fs : FS) (s : Store) (p : list byte)
  : FS * Store * (Z * Z * option error) :=
  let pos := st_size s in
  match buf_Write fs s (PutUint64 (wrap64 (len p))) with
  | (fs1, s1, (_, Some e)) => (fs1, s1, (0, 0, Some e))
  | (fs1, s1, (_, None)) =>
      match buf_Write fs1 s1 p with
      | (fs2, s2, (_, Some e)) => (fs2, s2, (0, 0, Some e))
      | (fs2, s2, (w, None)) =>
          let w := w + lenWidth in
          let s3 := {| st_file := st_file s2; st_buf := st_buf s2; st_err := st_err s2;
                       st_size := wrap64 (st_size s2 + wrap64 w) |} in
          (fs2, s3, (wrap64 w, pos, None))
      end
  end.

(** [Store.Read(pos)]. *)
Definition Store_Read (fs : FS) (s : Store) (pos : Z)
  : FS * Store * (option (list byte) * option error) :=
  match buf_Flush fs s with
  | (fs1, s1, Some e) => (fs1, s1, (None, Some e))
  | (fs1, s1, None) =>
      match File_ReadAt fs1 (st_file s1) lenWidth (to_int64 pos) with
      | (_, Some e) => (fs1, s1, (None, Some e))
      | (size, None) =>
          match File_ReadAt fs1 (st_file s1) (Uint64 size) (to_int64 (wrap64 (pos + lenWidth))) with
          | (_, Some e) => (fs1, s1, (None, Some e))
          | (b, None) => (fs1, s1, (Some b, None))
          end
      end
  end.

(** [Store.Close]. *)
Definition Store_Close (fs : FS) (s : Store) : FS * Store * option error :=
  match buf_Flush fs s with
  | (fs1, s1, Some e) => (fs1, s1, Some e)
  | (fs1, s1, None) =>
      let '(f, err) := File_Close (st_file s1) in
      (fs1, {| st_file := f; st_buf := st_buf s1; st_err := st_err s1; st_size := st_size s1 |}, err)
  end.

(** ** index.go *)

Definition offWidth : Z := 4.
Definition posWidth : Z := 8.
Definition endWidth : Z := offWidth + posWidth.

(** [index]: the file, the length of its shared mapping and the logical
    size.  The mapping is [MAP_SHARED]: its bytes are the bytes of the
    inode. *)
Record index : Type := mkIndex {
  i_file : File;
  i_mlen : Z;
  i_size : Z
}.

(** [newIndex(file, c)].  [os.Truncate] takes [int64(MaxIndexBytes)];
    [gommap.Map] maps the whole file and refuses an empty one. *)
Definition newIndex (fs : FS) (f : File) (c : Config) : FS * option index * option error :=
  match os_Stat fs (File_Name f) with
  | (_, Some e) => (fs, None, Some e)
  | (size, None) =>
      match os_Truncate fs (File_Name f) (to_int64 (MaxIndexBytes c)) with
      | (fs1, Some e) => (fs1, None, Some e)
      | (fs1, None) =>
          let n := len (contents fs1 (f_ino f)) in
          if n =? 0 then (fs1, None, Some ErrInvalid)
          else (fs1, Some {| i_file := f; i_mlen := n; i_size := wrap64 size |}, None)
      end
  end.

(** [index.Read(in)]: [(out, pos, err)].  [in] is an [int64]. *)
Definition index_Read (fs : FS) (i : index) (in_ : Z) : Z * Z * option error :=
  if i_size i =? 0 then (0, 0, Some EOF)
  else
    let out := if in_ =? -1 then wrap32 (wrap64 (i_size i / endWidth - 1)) else wrap32 in_ in
    let pos := out * endWidth in
    if i_size i <? pos + endWidth then (0, 0, Some EOF)
    else
      let data := contents fs (f_ino (i_file i)) in
      if (i_mlen i <? pos + endWidth) || (len data <? pos + endWidth) then (0, 0, Some Panic)
      else (Uint32 (slice data pos offWidth), Uint64 (slice data (pos + offWidth) posWidth), None).

(** [index.Write(off, pos)]. *)
Definition index_Write (fs : FS) (i : index) (off pos : Z) : FS * index * option error :=
  if i_mlen i <? wrap64 (i_size i + endWidth) then (fs, i, Some EOF)
  else
    let data := contents fs (f_ino (i_file i)) in
    if (i_mlen i <? i_size i + endWidth) || (len data <? i_size i + endWidth)
    then (fs, i, Some Panic)
    else
      (set_contents fs (f_ino (i_file i))
         (splice data (i_size i) (PutUint32 off ++ PutUint64 pos)),
       {| i_file := i_file i; i_mlen := i_mlen i; i_size := wrap64 (i_size i + endWidth) |},
       None).

(** [index.Close]: sync the mapping and the file, truncate to [size], close. *)
Definition index_Close (fs : FS) (i : index) : FS * index * option error :=
  match File_Sync (i_file i) with
  | Some e => (fs, i, Some e)
  | None =>
      match File_Truncate fs (i_file i) (to_int64 (i_size i)) with
      | (fs1, Some e) => (fs1, i, Some e)
      | (fs1, None) =>
          let '(f, err) := File_Close (i_file i) in
          (fs1, {| i_file := f; i_mlen := i_mlen i; i_size := i_size i |}, err)
      end
  end.

Definition index_Name (i : index) : string := File_Name (i_file i).

(** ** File names *)

(** [fmt.Sprintf("%d", n)] for a [uint64]. *)
Definition format_uint (n : Z) : string := NilEmpty.string_of_uint (N.to_uint (Z.to_N n)).

Definition store_name (baseOffset : Z) : string := format_uint baseOffset +:+ ".store".
Definition index_name (baseOffset : Z) : string := format_uint baseOffset +:+ ".index".

Fixpoint has_slash (s : string) : bool :=
  match s with
  | EmptyString => false
  | String c rest => if Ascii.eqb c "/" then true else has_slash rest
  end.

(** [path.Ext]: the suffix beginning at the final dot of the final
    slash-separated element, or the empty string. *)
Fixpoint path_Ext (s : string) : string :=
  match s with
  | EmptyString => EmptyString
  | String c rest =>
      match path_Ext rest with
      | EmptyString =>
          if has_slash rest then EmptyString
          else if Ascii.eqb c "." then s else EmptyString
      | e => e
      end
  end.

(** [strings.TrimSuffix]. *)
Definition TrimSuffix (s suffix : string) : string :=
  let l := list_ascii_of_string s in
  let x := list_ascii_of_string suffix in
  if decide (x `suffix_of` l)
  then string_of_list_ascii (take (length l - length x) l)
  else s.

(** [strconv.ParseUint(s, 10, 0)] on a 64-bit platform: the value is 0 on
    a syntax error and the largest [uint64] on a range error. *)
Definition ParseUint (s : string) : Z * bool :=
  if decide (s = EmptyString) then (0, false)
  else match NilEmpty.uint_of_string s with
       | None => (0, false)
       | Some d =>
           let n := Z.of_N (N.of_uint d) in
           if n <=? MaxUint64 then (n, true) else (MaxUint64, false)
       end.

(** ** segment.go *)

Record segment : Type := mkSegment {
  store : Store;
  index_ : index;
  baseOffset : Z;
  nextOffset : Z;
  config : Config
}.

(** [newSegment(dir, baseOffset, c)].  An error of [index.Read(-1)] sets
    [nextOffset] to the base offset; a fault inside it (an entry past the
    end of the mapping) is no error value and ends the call. *)
Definition newSegment (fs : FS) (baseOffset : Z) (c : Config)
  : FS * option segment * option error :=
  let '(fs1, sino) := os_OpenFile fs (store_name baseOffset) in
  let storeFile := {| f_name := store_name baseOffset; f_ino := sino; f_closed := false |} in
  match newStore fs1 storeFile with
  | (_, Some e) => (fs1, None, Some e)
  | (None, None) => (fs1, None, Some Panic)
  | (Some st, None) =>
      let '(fs2, iino) := os_OpenFile fs1 (index_name baseOffset) in
      let indexFile := {| f_name := index_name baseOffset; f_ino := iino; f_closed := false |} in
      match newIndex fs2 indexFile c with
      | (fs3, _, Some e) => (fs3, None, Some e)
      | (fs3, None, None) => (fs3, None, Some Panic)
      | (fs3, Some idx, None) =>
          match index_Read fs3 idx (-1) with
          | (_, _, Some Panic) => (fs3, None, Some Panic)
          | (off, _, err) =>
              let next :=
                match err with
                | Some _ => baseOffset
                | None => wrap64 (baseOffset + off + 1)
                end in
              (fs3,
               Some {| store := st; index_ := idx; baseOffset := baseOffset;
                       nextOffset := next; config := c |},
               None)
          end
      end
  end.

Definition set_store (s : segment) (st : Store) : segment :=
  {| store := st; index_ := index_ s; baseOffset := baseOffset s;
     nextOffset := nextOffset s; config := config s |}.

Definition set_index (s : segment) (i : index) : segment :=
  {| store := store s; index_ := i; baseOffset := baseOffset s;
     nextOffset := nextOffset s; config := config s |}.

Definition set_nextOffset (s : segment) (n : Z) : segment :=
  {| store := store s; index_ := index_ s; baseOffset := baseOffset s;
     nextOffset := n; config := config s |}.

(** [segment.IsMaxed]. *)
Definition IsMaxed (s : segment) : bool :=
  (MaxStoreBytes (config s) <=? st_size (store s))
  || (MaxIndexBytes (config s) <=? i_size (index_ s)).

(** [segment.Remove]. *)
Definition segment_Remove (fs : FS) (s : segment) : FS * segment * option error :=
  match Store_Close fs (store s) with
  | (fs1, st, Some e) => (fs1, set_store s st, Some e)
  | (fs1, st, None) =>
      let s1 := set_store s st in
      match os_Remove fs1 (index_Name (index_ s1)) with
      | (fs2, Some e) => (fs2, s1, Some e)
      | (fs2, None) =>
          match os_Remove fs2 (File_Name (st_file (store s1))) with
          | (fs3, err) => (fs3, s1, err)
          end
      end
  end.

(** [segment.Close]. *)
Definition segment_Close (fs : FS) (s : segment) : FS * segment * option error :=
  match index_Close fs (index_ s) with
  | (fs1, i, Some e) => (fs1, set_index s i, Some e)
  | (fs1, i, None) =>
      match Store_Close fs1 (store s) with
      | (fs2, st, err) => (fs2, set_store (set_index s i) st, err)
      end
  end.

Section WithCodec.

Context `{Codec}.

(** [segment.Append(record)].  The record is the caller's object: the
    function returns it as the call leaves it. *)
Definition segment_Append (fs : FS) (s : segment) (record : Record_)
  : FS * segment * Record_ * (Z * option error) :=
  let cur := nextOffset s in
  let record := set_Offset record cur in
  match Marshal record with
  | None => (fs, s, record, (0, Some ErrMarshal))
  | Some p =>
      match Store_Append fs (store s) p with
      | (fs1, st, (_, _, Some e)) => (fs1, set_store s st, record, (0, Some e))
      | (fs1, st, (_, pos, None)) =>
          let s1 := set_store s st in
          match index_Write fs1 (index_ s1)
                  (wrap32 (wrap64 (nextOffset s1 - baseOffset s1))) pos with
          | (fs2, i, Some e) => (fs2, set_index s1 i, record, (0, Some e))
          | (fs2, i, None) =>
              let s2 := set_index s1 i in
              (fs2, set_nextOffset s2 (wrap64 (nextOffset s2 + 1)), record, (cur, None))
          end
      end
  end.

(** [segment.Read(offset)]. *)
Definition segment_Read (fs : FS) (s : segment) (offset : Z)
  : FS * segment * (option Record_ * option error) :=
  match index_Read fs (index_ s) (to_int64 (wrap64 (offset - baseOffset s))) with
  | (_, _, Some e) => (fs, s, (None, Some e))
  | (_, pos, None) =>
      match Store_Read fs (store s) pos with
      | (fs1, st, (_, Some e)) => (fs1, set_store s st, (None, Some e))
      | (fs1, st, (None, None)) => (fs1, set_store s st, (None, Some Panic))
      | (fs1, st, (Some p, None)) =>
          match Unmarshal p with
          | Some r => (fs1, set_store s st, (Some r, None))
          | None => (fs1, set_store s st, (Some {| Value := []; Offset := 0 |}, Some ErrUnmarshal))
          end
      end
  end.

(** ** log.go *)

(** [Log].  [segments] is the slice of segment pointers.  [activeSegment]
    points to the last element of the slice, except after [Truncate] has
    dropped that element: the pointer then keeps the dropped segment, which
    is held in [orphan] until [newSegment] installs a new active segment. *)
Record Log : Type := mkLog {
  l_Config : Config;
  segments : list segment;
  orphan : option segment
}.

Definition activeSegment (l : Log) : option segment :=
  match orphan l with
  | Some s => Some s
  | None => last (segments l)
  end.

Definition set_last {A} (l : list A) (x : A) : list A :=
  match l with
  | [] => []
  | _ :: _ => removelast l ++ [x]
  end.

(** A write through the [activeSegment] pointer. *)
Definition set_active (l : Log) (s : segment) : Log :=
  match orphan l with
  | Some _ => {| l_Config := l_Config l; segments := segments l; orphan := Some s |}
  | None => {| l_Config := l_Config l; segments := set_last (segments l) s; orphan := None |}
  end.

Definition set_segments (l : Log) (segs : list segment) : Log :=
  {| l_Config := l_Config l; segments := segs; orphan := orphan l |}.

(** [Log.newSegment(off)]. *)
Definition Log_newSegment (fs : FS) (l : Log) (off : Z) : FS * Log * option error :=
  match newSegment fs off (l_Config l) with
  | (fs1, _, Some e) => (fs1, l, Some e)
  | (fs1, None, None) => (fs1, l, Some Panic)
  | (fs1, Some s, None) =>
      (fs1, {| l_Config := l_Config l; segments := segments l ++ [s]; orphan := None |}, None)
  end.

(** The loop of [setup] over the sorted base offsets: the index advances
    twice per round, once in the body and once in the loop header. *)
Fixpoint setup_loop (fs : FS) (l : Log) (baseOffsets : list Z) : FS * Log * option error :=
  match baseOffsets with
  | [] => (fs, l, None)
  | b :: rest =>
      match Log_newSegment fs l b with
      | (fs1, l1, Some e) => (fs1, l1, Some e)
      | (fs1, l1, None) =>
          match rest with
          | [] => (fs1, l1, None)
          | _ :: rest' => setup_loop fs1 l1 rest'
          end
      end
  end.

Definition parse_baseOffset (name : string) : Z :=
  fst (ParseUint (TrimSuffix name (path_Ext name))).

(** [Log.setup]. *)
Definition Log_setup (fs : FS) (l : Log) : FS * Log * option error :=
  let files := os_ReadDir fs in
  let baseOffsets := merge_sort Z.le (map parse_baseOffset files) in
  match setup_loop fs l baseOffsets with
  | (fs1, l1, Some e) => (fs1, l1, Some e)
  | (fs1, l1, None) =>
      match segments l1 with
      | [] => Log_newSegment fs1 l1 (InitialOffset (l_Config l1))
      | _ :: _ => (fs1, l1, None)
      end
  end.

(** The two defaulting assignments at the head of [NewLog]. *)
Definition Config_defaults (c : Config) : Config :=
  let c1 := if MaxStoreBytes c =? 0
            then {| MaxStoreBytes := 1024; MaxIndexBytes := MaxIndexBytes c;
                    InitialOffset := InitialOffset c |}
            else c in
  if MaxIndexBytes c1 =? 0
  then {| MaxStoreBytes := MaxStoreBytes c1; MaxIndexBytes := 1024;
          InitialOffset := InitialOffset c1 |}
  else c1.

(** [NewLog(dir, c)]. *)
Definition NewLog (fs : FS) (c : Config) : FS * Log * option error :=
  Log_setup fs {| l_Config := Config_defaults c; segments := []; orphan := None |}.

(** [Log.Append(record)]. *)
Definition Log_Append (fs : FS) (l : Log) (record : Record_)
  : FS * Log * Record_ * (Z * option error) :=
  match activeSegment l with
  | None => (fs, l, record, (0, Some Panic))
  | Some s =>
      match segment_Append fs s record with
      | (fs1, s1, record1, (_, Some e)) => (fs1, set_active l s1, record1, (0, Some e))
      | (fs1, s1, record1, (off, None)) =>
          let l1 := set_active l s1 in
          if IsMaxed s1 then
            match Log_newSegment fs1 l1 (wrap64 (off + 1)) with
            | (fs2, l2, err) => (fs2, l2, record1, (off, err))
            end
          else (fs1, l1, record1, (off, None))
      end
  end.

Definition in_segment (off : Z) (s : segment) : Prop :=
  baseOffset s <= off /\ off < nextOffset s.

Global Instance in_segment_dec off s : Decision (in_segment off s).
Proof. unfold in_segment. apply _. Defined.

(** [Log.Read(off)]. *)
Definition Log_Read (fs : FS) (l : Log) (off : Z)
  : FS * Log * (option Record_ * option error) :=
  match list_find (in_segment off) (segments l) with
  | None => (fs, l, (None, Some (ErrorOffsetOutOfRange off)))
  | Some (i, s) =>
      if nextOffset s <=? off then (fs, l, (None, Some (ErrorOffsetOutOfRange off)))
      else
        match segment_Read fs s off with
        | (fs1, s1, r) => (fs1, set_segments l (<[i := s1]> (segments l)), r)
        end
  end.

(** The loop of [Log.Close]: the segments as the loop leaves them. *)
Fixpoint close_loop (fs : FS) (segs : list segment) : FS * list segment * option error :=
  match segs with
  | [] => (fs, [], None)
  | s :: rest =>
      match segment_Close fs s with
      | (fs1, s1, Some e) => (fs1, s1 :: rest, Some e)
      | (fs1, s1, None) =>
          match close_loop fs1 rest with
          | (fs2, rest', err) => (fs2, s1 :: rest', err)
          end
      end
  end.

(** [Log.Close]. *)
Definition Log_Close (fs : FS) (l : Log) : FS * Log * option error :=
  match close_loop fs (segments l) with
  | (fs1, segs, err) => (fs1, set_segments l segs, err)
  end.

(** [Log.Reset]. *)
Definition Log_Reset (fs : FS) (l : Log) : FS * Log * option error :=
  match Log_Close fs l with
  | (fs1, l1, Some e) => (fs1, l1, Some e)
  | (fs1, l1, None) => Log_setup fs1 l1
  end.

(** [Log.LowestOffset]; indexing an empty slice panics. *)
Definition LowestOffset (l : Log) : Z * option error :=
  match segments l with
  | [] => (0, Some Panic)
  | s :: _ => (baseOffset s, None)
  end.

(** [Log.HighestOffset]. *)
Definition HighestOffset (l : Log) : Z * option error :=
  match last (segments l) with
  | None => (0, Some Panic)
  | Some s =>
      let off := nextOffset s in
      if off =? 0 then (0, None) else (wrap64 (off - 1), None)
  end.

(** The loop of [Log.Truncate]: the segments as the loop leaves them (the
    removed ones are closed), the slice of kept segments, the error. *)
Fixpoint truncate_loop (fs : FS) (segs : list segment) (lowest : Z)
  : FS * list segment * list segment * option error :=
  match segs with
  | [] => (fs, [], [], None)
  | s :: rest =>
      if nextOffset s <=? wrap64 (lowest + 1) then
        match segment_Remove fs s with
        | (fs1, s1, Some e) => (fs1, s1 :: rest, [], Some e)
        | (fs1, s1, None) =>
            match truncate_loop fs1 rest lowest with
            | (fs2, rest', kept, err) => (fs2, s1 :: rest', kept, err)
            end
        end
      else
        match truncate_loop fs rest lowest with
        | (fs2, rest', kept, err) => (fs2, s :: rest', s :: kept, err)
        end
  end.

(** [Log.Truncate(lowest)]. *)
Definition Log_Truncate (fs : FS) (l : Log) (lowest : Z) : FS * Log * option error :=
  match truncate_loop fs (segments l) lowest with
  | (fs1, segs, _, Some e) => (fs1, set_segments l segs, Some e)
  | (fs1, segs, kept, None) =>
      let dropped :=
        match last segs with
        | Some s => if nextOffset s <=? wrap64 (lowest + 1) then Some s else None
        | None => None
        end in
      (fs1,
       {| l_Config := l_Config l; segments := kept;
          orphan := match orphan l with Some d => Some d | None => dropped end |},
       None)
  end.

End WithCodec.

(** ** A concrete codec

    Modelled from the spec: the generated protobuf code of [api/v1] is not
    among the sources.  This is the protobuf wire format of a message with
    a [bytes] field and a [uint64] field, taken as field 1 ([value],
    length-delimited, tag byte 0x0a) and field 2 ([offset], varint, tag
    byte 0x10), each left out when it holds the zero value.  Messages of
    2 GiB or more are refused.  The theorems hold for every [Codec]; this
    one runs the examples. *)
Module Wire.

Fixpoint varint_put (fuel : nat) (v : Z) : list byte :=
  match fuel with
  | O => []
  | S k =>
      if v <? 128 then [byte_of_Z v]
      else byte_of_Z (v mod 128 + 128) :: varint_put k (v / 128)
  end.

Fixpoint varint_get (fuel : nat) (bs : list byte) : option (Z * list byte) :=
  match fuel, bs with
  | S k, b :: rest =>
      let x := Z_of_byte b in
      if x <? 128 then Some (x, rest)
      else match varint_get k rest with
           | Some (v, rest') => Some (x - 128 + 128 * v, rest')
           | None => None
           end
  | _, _ => None
  end.

Definition tag_value : byte := "010"%byte.   (* 0x0a = (1 << 3) | 2 *)
Definition tag_offset : byte := "016"%byte.  (* 0x10 = (2 << 3) | 0 *)

Definition put_value (v : list byte) : list byte :=
  match v with
  | [] => []
  | _ :: _ => tag_value :: varint_put 10 (len v) ++ v
  end.

Definition put_offset (off : Z) : list byte :=
  if off =? 0 then [] else tag_offset :: varint_put 10 off.

Definition marshal (r : Record_) : option (list byte) :=
  let p := put_value (Value r) ++ put_offset (Offset r) in
  if 2 ^ 31 <=? len p then None else Some p.

Definition get_offset (bs : list byte) : option Z :=
  match bs with
  | [] => Some 0
  | t :: rest =>
      if decide (t = tag_offset) then
        match varint_get 10 rest with
        | Some (v, []) => if v =? 0 then None else Some v
        | _ => None
        end
      else None
  end.

Definition unmarshal (bs : list byte) : option Record_ :=
  match bs with
  | [] => Some {| Value := []; Offset := 0 |}
  | t :: rest =>
      if decide (t = tag_value) then
        match varint_get 10 rest with
        | Some (n, rest1) =>
            if (n =? 0) || (len rest1 <? n) then None
            else
              match get_offset (drop (Z.to_nat n) rest1) with
              | Some off => Some {| Value := take (Z.to_nat n) rest1; Offset := off |}
              | None => None
              end
        | None => None
        end
      else
        match get_offset bs with
        | Some off => Some {| Value := []; Offset := off |}
        | None => None
        end
  end.

End Wire.

(** ** membership.go *)

Module discovery.

(** [serf.Member]: the fields the handler reads. *)
Record Member : Type := mkMember { Name : string; Tags : gmap string string }.

Inductive EventType : Type :=
| EventMemberJoin | EventMemberLeave | EventMemberFailed
| EventMemberUpdate | EventMemberReap | EventUser | EventQuery.

(** [serf.Event]; for the member events, [Members] is
    [e.(serf.MemberEvent).Members]. *)
Record Event : Type := mkEvent { EventType_ : EventType; Members : list Member }.

(** The [Handler] interface. *)
Class Handler (H : Type) : Type := {
  Join : H -> string -> string -> H * option error;
  Leave : H -> string -> H * option error
}.

(** What [logError] hands to the logger. *)
Record LogLine : Type := mkLogLine {
  msg : string; err : error; log_name : string; log_rpc_addr : string
}.

(** [MemberShip]: the local node name ([m.serf.LocalMember().Name]), the
    injected handler and the lines written to the logger. *)
Record MemberShip (H : Type) : Type := mkMemberShip {
  NodeName : string;
  handler : H;
  logged : list LogLine
}.
Arguments mkMemberShip {H}.
Arguments NodeName {H}.
Arguments handler {H}.
Arguments logged {H}.

(** [member.Tags[key]]: a missing key reads as the empty string. *)
Definition tag (member : Member) (key : string) : string :=
  default EmptyString (Tags member !! key).

Section WithHandler.

Context {H : Type} `{Handler H}.

Definition isLocal (m : MemberShip H) (member : Member) : bool :=
  bool_decide (NodeName m = Name member).

Definition logError (m : MemberShip H) (e : error) (msg : string) (member : Member)
  : MemberShip H :=
  mkMemberShip (NodeName m) (handler m)
    (logged m ++ [mkLogLine msg e (Name member) (tag member "rpc_addr")]).

Definition handleJoin (m : MemberShip H) (member : Member) : MemberShip H :=
  match Join (handler m) (Name member) (tag member "rcp_addr") with
  | (h, Some e) => logError (mkMemberShip (NodeName m) h (logged m)) e "failed to join" member
  | (h, None) => mkMemberShip (NodeName m) h (logged m)
  end.

Definition handleLeave (m : MemberShip H) (member : Member) : MemberShip H :=
  match Leave (handler m) (Name member) with
  | (h, Some e) => logError (mkMemberShip (NodeName m) h (logged m)) e "failed to leave" member
  | (h, None) => mkMemberShip (NodeName m) h (logged m)
  end.

(** The inner loop of the join case. *)
Fixpoint join_loop (m : MemberShip H) (members : list Member) : MemberShip H :=
  match members with
  | [] => m
  | member :: rest =>
      if isLocal m member then join_loop m rest
      else join_loop (handleJoin m member) rest
  end.

(** The inner loop of the leave case; [true] when it hit [return]. *)
Fixpoint leave_loop (m : MemberShip H) (members : list Member) : MemberShip H * bool :=
  match members with
  | [] => (m, false)
  | member :: rest =>
      if isLocal m member then (m, true)
      else leave_loop (handleLeave m member) rest
  end.

(** [eventHandler] over the events delivered on the channel. *)
Fixpoint eventHandler (m : MemberShip H) (events : list Event) : MemberShip H :=
  match events with
  | [] => m
  | e :: rest =>
      match EventType_ e with
      | EventMemberJoin => eventHandler (join_loop m (Members e)) rest
      | EventMemberLeave | EventMemberFailed =>
          match leave_loop m (Members e) with
          | (m', true) => m'
          | (m', false) => eventHandler m' rest
          end
      | _ => eventHandler m rest
      end
  end.

End WithHandler.

(** A handler that records the calls it receives, in order. *)
Inductive call : Type :=
| JoinCall (name addr : string)
| LeaveCall (name : string).

Global Instance recorder : Handler (list call) := {
  Join h name addr := (h ++ [JoinCall name addr], None);
  Leave h name := (h ++ [LeaveCall name], None)
}.

End discovery.

(** ** What a well-formed log looks like *)

Definition uint64 (z : Z) : Prop := 0 <= z < 2 ^ 64.

(** A configuration as the Go type allows it.  The index of one segment
    holds at most [2^32] entries, since an entry stores the relative offset
    in 32 bits. *)
Definition Config_ok (c : Config) : Prop :=
  uint64 (MaxStoreBytes c) /\ uint64 (MaxIndexBytes c) /\ uint64 (InitialOffset c) /\
  MaxIndexBytes c <= endWidth * 2 ^ 32.

(** No name is bound to an inode still to be allocated, and no two names
    share an inode. *)
Record fs_ok (fs : FS) : Prop := {
  fs_bound : forall name i, names fs !! name = Some i -> (i < next_ino fs)%nat;
  fs_inj : forall n1 n2 i, names fs !! n1 = Some i -> names fs !! n2 = Some i -> n1 = n2
}.

(** The bookkeeping of one segment. *)
Record seg_shape (c : Config) (s : segment) : Prop := {
  sh_config : config s = c;
  sh_base : 0 <= baseOffset s;
  sh_next : baseOffset s <= nextOffset s < 2 ^ 64;
  sh_sname : f_name (st_file (store s)) = store_name (baseOffset s);
  sh_iname : f_name (i_file (index_ s)) = index_name (baseOffset s);
  sh_mlen : i_mlen (index_ s) = MaxIndexBytes c;
  sh_isize : i_size (index_ s) = endWidth * (nextOffset s - baseOffset s);
  sh_isize_le : i_size (index_ s) <= MaxIndexBytes c
}.

(** A segment of the list: its files are open and are the ones the
    directory names. *)
Record seg_live (fs : FS) (s : segment) : Prop := {
  lv_sopen : f_closed (st_file (store s)) = false;
  lv_serr : st_err (store s) = None;
  lv_buf : len (st_buf (store s)) <= defaultBufSize;
  lv_iopen : f_closed (i_file (index_ s)) = false;
  lv_sbound : names fs !! store_name (baseOffset s) = Some (f_ino (st_file (store s)));
  lv_ibound : names fs !! index_name (baseOffset s) = Some (f_ino (i_file (index_ s)))
}.

(** Adjacent segments meet, and only the last one may be empty. *)
Fixpoint chain (segs : list segment) : Prop :=
  match segs with
  | [] => True
  | s :: rest =>
      match rest with
      | [] => True
      | s' :: _ => baseOffset s < nextOffset s /\ nextOffset s = baseOffset s' /\ chain rest
      end
  end.

(** The directory holds the files of the listed segments and nothing else. *)
Definition owned (fs : FS) (segs : list segment) : Prop :=
  forall name, is_Some (names fs !! name) <->
    exists s, s ∈ segs /\
              (name = store_name (baseOffset s) \/ name = index_name (baseOffset s)).

Record log_shape (c : Config) (fs : FS) (l : Log) : Prop := {
  ls_config : l_Config l = c;
  ls_cfg : 0 < MaxIndexBytes c < 2 ^ 63;
  ls_fs : fs_ok fs;
  ls_segs : Forall (seg_shape c) (segments l);
  ls_live : Forall (seg_live fs) (segments l);
  ls_chain : chain (segments l);
  ls_owned : owned fs (segments l);
  ls_active :
    match orphan l with
    | Some d =>
        segments l = [] /\ seg_shape c d /\ i_size (index_ d) < MaxIndexBytes c /\
        (st_err (store d) = None \/ st_err (store d) = Some ErrClosed)
    | None => exists a, last (segments l) = Some a /\ i_size (index_ a) < MaxIndexBytes c
    end
}.

(** The bytes of a store as a reader sees them: the file, then the bytes
    still buffered. *)
Definition store_view (fs : FS) (st : Store) : list byte :=
  contents fs (f_ino (st_file st)) ++ st_buf st.

(** Entry [k] of an index. *)
Definition index_entry (idata : list byte) (k : Z) : Z * Z :=
  (Uint32 (slice idata (k * endWidth) offWidth),
   Uint64 (slice idata (k * endWidth + offWidth) posWidth)).

(** The frame that starts at [pos] in a store. *)
Definition view_read (view : list byte) (pos : Z) : option (list byte) :=
  if (0 <=? pos) && (pos + lenWidth <=? len view) then
    let n := Uint64 (slice view pos lenWidth) in
    if pos + lenWidth + n <=? len view then Some (slice view (pos + lenWidth) n) else None
  else None.

Section Invariants.

Context `{Codec}.

(** The record that entry [k] of a segment leads to. *)
Definition seg_record (idata view : list byte) (k : Z) : option Record_ :=
  match view_read view (snd (index_entry idata k)) with
  | Some p => Unmarshal p
  | None => None
  end.

(** The contents of one segment: every indexed entry leads to a record
    that carries its own offset. *)
Record seg_data (fs : FS) (s : segment) : Prop := {
  sd_size : st_size (store s) = len (store_view fs (store s));
  sd_lt : st_size (store s) < 2 ^ 63;
  sd_ilen : len (contents fs (f_ino (i_file (index_ s)))) = i_mlen (index_ s);
  sd_entries : forall k, 0 <= k < nextOffset s - baseOffset s ->
      fst (index_entry (contents fs (f_ino (i_file (index_ s)))) k) = k /\
      exists r,
        seg_record (contents fs (f_ino (i_file (index_ s)))) (store_view fs (store s)) k = Some r
        /\ Offset r = baseOffset s + k
}.

Definition log_data (fs : FS) (l : Log) : Prop := Forall (seg_data fs) (segments l).

(** The limits of the platform at one [Append]: the offset counter does not
    wrap, and the store file stays below [2^63] bytes. *)
Definition append_in_bounds (l : Log) (record : Record_) : Prop :=
  match activeSegment l with
  | Some a =>
      nextOffset a < MaxUint64 /\
      forall p, Marshal (set_Offset record (nextOffset a)) = Some p ->
                st_size (store a) + lenWidth + len p < 2 ^ 63
  | None => True
  end.

(** The states of a log created over an empty directory and then used
    through [Append], [Read] and [Truncate]. *)
Inductive reachable (c : Config) : FS -> Log -> Prop :=
| reach_NewLog fs l :
    Config_ok c ->
    NewLog emptyFS c = (fs, l, None) ->
    reachable c fs l
| reach_Append fs l record fs' l' record' res :
    reachable c fs l ->
    append_in_bounds l record ->
    Log_Append fs l record = (fs', l', record', res) ->
    reachable c fs' l'
| reach_Read fs l off fs' l' res :
    reachable c fs l ->
    uint64 off ->
    Log_Read fs l off = (fs', l', res) ->
    reachable c fs' l'
| reach_Truncate fs l lowest fs' l' err :
    reachable c fs l ->
    uint64 lowest ->
    Log_Truncate fs l lowest = (fs', l', err) ->
    reachable c fs' l'.

(** The structural invariant of the specification: a non-empty list, bases
    strictly increasing, adjacent segments meeting, the last one active. *)
Fixpoint contiguous (segs : list segment) : Prop :=
  match segs with
  | [] => True
  | s :: rest =>
      match rest with
      | [] => True
      | s' :: _ =>
          baseOffset s < baseOffset s' /\ nextOffset s = baseOffset s' /\ contiguous rest
      end
  end.

Definition log_invariant (l : Log) : Prop :=
  segments l <> [] /\ contiguous (segments l) /\ activeSegment l = last (segments l).

(** Appending a list of records, one call after the other. *)
Fixpoint append_all (fs : FS) (l : Log) (records : list Record_)
  : FS * Log * list (Z * option error) :=
  match records with
  | [] => (fs, l, [])
  | r :: rest =>
      match Log_Append fs l r with
      | (fs1, l1, _, res) =>
          match append_all fs1 l1 rest with
          | (fs2, l2, outs) => (fs2, l2, res :: outs)
          end
      end
  end.

(** The offsets of the calls that returned no error. *)
Definition successes (outs : list (Z * option error)) : list Z :=
  omap (fun '(off, err) => match err with None => Some off | Some _ => None end) outs.

End Invariants.

(** * More of the code *)

(** ** segment.go: [nearestMultiple] *)

(** [nearestMultiple(j, k)] on [uint64]; [None] is the run-time panic of an
    integer division by zero. *)
Definition nearestMultiple (j k : Z) : option Z :=
  if k =? 0 then None
  else if j =? 0 then Some (wrap64 (j / k * k))
  else Some (wrap64 (wrap64 (wrap64 (j - k) + 1) / k * k)).

(** ** store.go and log.go: reading the whole log *)

(** [Store.ReadAt(p, off)] with [len(p) = n]: the bytes read and the
    error. *)
Definition Store_ReadAt (fs : FS) (s : Store) (n off : Z)
  : FS * Store * (list byte * option error) :=
  match buf_Flush fs s with
  | (fs1, s1, Some e) => (fs1, s1, ([], Some e))
  | (fs1, s1, None) => (fs1, s1, File_ReadAt fs1 (st_file s1) n off)
  end.

(** [origiinReader]: the store it points to, which is the store of the
    segment at position [or_store] of the log's list, and its offset. *)
Record origiinReader : Type := mkOrigiinReader { or_store : nat; or_off : Z }.

(** [origiinReader.Read(p)] with [len(p) = n].  The flush goes through the
    store that the segment shares with the reader. *)
Definition origiinReader_Read (fs : FS) (l : Log) (o : origiinReader) (n : Z)
  : FS * Log * origiinReader * (list byte * option error) :=
  match segments l !! or_store o with
  | None => (fs, l, o, ([], Some Panic))
  | Some s =>
      match Store_ReadAt fs (store s) n (or_off o) with
      | (fs1, st1, (b, err)) =>
          (fs1, set_segments l (<[or_store o := set_store s st1]> (segments l)),
           {| or_store := or_store o; or_off := to_int64 (wrap64 (or_off o + len b)) |},
           (b, err))
      end
  end.

(** [Log.Reader]: one reader per segment, in order, each at offset 0; they
    are the readers of the [io.MultiReader] returned. *)
Definition Log_Reader (l : Log) : list origiinReader :=
  (fun i => {| or_store := i; or_off := 0 |}) <$> seq 0 (length (segments l)).

(** [Read(p)] of the [io.MultiReader] over the readers that remain: a
    reader that returns [io.EOF] is dropped; a call returns as soon as a
    reader gave bytes or an error other than [io.EOF], and returns
    [io.EOF] itself only when no reader remains. *)
Fixpoint multi_Read (fs : FS) (l : Log) (readers : list origiinReader) (n : Z)
  : FS * Log * list origiinReader * (list byte * option error) :=
  match readers with
  | [] => (fs, l, [], ([], Some EOF))
  | r :: rest =>
      match origiinReader_Read fs l r n with
      | (fs1, l1, r1, (b, Some EOF)) =>
          if 0 <? len b then
            (fs1, l1, rest, (b, match rest with [] => Some EOF | _ :: _ => None end))
          else multi_Read fs1 l1 rest n
      | (fs1, l1, r1, (b, err)) => (fs1, l1, r1 :: rest, (b, err))
      end
  end.

(** Reading to the end: one [Read] per buffer size of the list, until a
    call returns an error; the bytes collected, and that error. *)
Fixpoint read_chunks (fs : FS) (l : Log) (readers : list origiinReader) (sizes : list Z)
    (got : list byte) : FS * Log * list origiinReader * (list byte * option error) :=
  match sizes with
  | [] => (fs, l, readers, (got, None))
  | n :: sizes =>
      match multi_Read fs l readers n with
      | (fs1, l1, readers1, (b, Some e)) => (fs1, l1, readers1, (got ++ b, Some e))
      | (fs1, l1, readers1, (b, None)) => read_chunks fs1 l1 readers1 sizes (got ++ b)
      end
  end.

(** ** replicator.go *)

Module replicator.

(** [Replicator]: the map of servers (absent while [nil]) to their leave
    channels, the [closed] flag and the [close] channel (absent while
    [nil]).  Channels are numbered in the order [make] created them;
    [chans] tells of each whether [close] was called on it.  [started]
    lists the [replicate] goroutines in the order they were started, each
    with its address and its leave channel. *)
Record Replicator : Type := mkReplicator {
  servers : option (gmap string nat);
  closed : bool;
  close : option nat;
  chans : list bool;
  started : list (string * nat)
}.

(** The zero value [Replicator{}]. *)
Definition zero : Replicator :=
  {| servers := None; closed := false; close := None; chans := []; started := [] |}.

(** [close(ch)]; [None] is the panic on a channel that is closed already
    (or was never made). *)
Definition close_chan (chs : list bool) (ch : nat) : option (list bool) :=
  match chs !! ch with
  | Some false => Some (<[ch := true]> chs)
  | _ => None
  end.

Definition init (r : Replicator) : Replicator :=
  let r1 :=
    match servers r with
    | None => {| servers := Some ∅; closed := closed r; close := close r;
                 chans := chans r; started := started r |}
    | Some _ => r
    end in
  match close r1 with
  | None => {| servers := servers r1; closed := closed r1; close := Some (length (chans r1));
               chans := chans r1 ++ [false]; started := started r1 |}
  | Some _ => r1
  end.

(** The three methods return the replicator they leave and their error;
    [None] is a panic: a write to a [nil] map, or [close] of a closed or
    [nil] channel. *)
Definition Join (r : Replicator) (name addr : string) : option (Replicator * option error) :=
  let r := init r in
  if closed r then Some (r, None)
  else
    match servers r ≫= lookup name with
    | Some _ => Some (r, None)
    | None =>
        match servers r with
        | None => None
        | Some m =>
            let ch := length (chans r) in
            Some ({| servers := Some (<[name := ch]> m); closed := closed r; close := close r;
                     chans := chans r ++ [false];
                     started := started r ++ [(addr, ch)] |}, None)
        end
    end.

Definition Leave (r : Replicator) (name : string) : option (Replicator * option error) :=
  let r := init r in
  match servers r ≫= lookup name with
  | None => Some (r, None)
  | Some ch =>
      match close_chan (chans r) ch with
      | None => None
      | Some chs =>
          Some ({| servers := delete name <$> servers r; closed := closed r; close := close r;
                   chans := chs; started := started r |}, None)
      end
  end.

Definition Close (r : Replicator) : option (Replicator * option error) :=
  let r := init r in
  if closed r then Some (r, None)
  else
    match close r with
    | None => None
    | Some ch =>
        match close_chan (chans r) ch with
        | None => None
        | Some chs =>
            Some ({| servers := servers r; closed := true; close := close r;
                     chans := chs; started := started r |}, None)
        end
    end.

(** The calls a membership makes on a replicator. *)
Inductive op : Type :=
| OpJoin (name addr : string)
| OpLeave (name : string)
| OpClose.

Definition step (r : Replicator) (o : op) : option (Replicator * option error) :=
  match o with
  | OpJoin name addr => Join r name addr
  | OpLeave name => Leave r name
  | OpClose => Close r
  end.

(** A sequence of calls, each under the mutex: the replicator at the end
    and the errors returned. *)
Fixpoint run (r : Replicator) (ops : list op) : option (Replicator * list (option error)) :=
  match ops with
  | [] => Some (r, [])
  | o :: rest =>
      match step r o with
      | None => None
      | Some (r1, e) =>
          match run r1 rest with
          | None => None
          | Some (r2, es) => Some (r2, e :: es)
          end
      end
  end.

End replicator.

(** ** server.go *)

Module server.

Definition objectWildcard : string := "*".
Definition produceAction : string := "produce".
Definition consumeAction : string := "consume".

Record ProduceResponse : Type := mkProduceResponse { p_Offset : Z }.
Record ConsumeResponse : Type := mkConsumeResponse { c_Record : option Record_ }.


(** The server side of a [ConsumeStream] call: the subject, the number of
    rounds of the loop that find the context not yet done, and the outcome
    of each [Send]. *)
Record ConsumeStreamServer : Type := mkConsumeStreamServer {
  cs_subject : string;
  cs_rounds : nat;
  cs_send : nat -> option error
}.

Section WithLog.

Context `{Codec}.

(** The [Authorizer] of the server's [Config]; its [CommitLog] is the
    [Log], as the agent sets it up. *)
Variable Authorize : string -> string -> string -> option error.

(** [Produce], for a request that carries a record, called with the
    subject of its context. *)
Definition Produce (fs : FS) (l : Log) (subject : string) (record : Record_)
  : FS * Log * (ProduceResponse + error) :=
  match Authorize subject objectWildcard produceAction with
  | Some e => (fs, l, inr e)
  | None =>
      match Log_Append fs l record with
      | (fs1, l1, _, (_, Some e)) => (fs1, l1, inr e)
      | (fs1, l1, _, (offset, None)) => (fs1, l1, inl {| p_Offset := offset |})
      end
  end.

Definition Consume (fs : FS) (l : Log) (subject : string) (offset : Z)
  : FS * Log * (ConsumeResponse + error) :=
  match Authorize subject objectWildcard consumeAction with
  | Some e => (fs, l, inr e)
  | None =>
      match Log_Read fs l offset with
      | (fs1, l1, (_, Some e)) => (fs1, l1, inr e)
      | (fs1, l1, (record, None)) => (fs1, l1, inl {| c_Record := record |})
      end
  end.



(** The loop of [ConsumeStream]: [offset] is [req.Offset], which the loop
    advances in place.  No other goroutine uses the log meanwhile. *)
Fixpoint consume_loop (rounds : nat) (fs : FS) (l : Log) (stream : ConsumeStreamServer)
    (offset : Z) (sent : list ConsumeResponse)
  : FS * Log * Z * list ConsumeResponse * option error :=
  match rounds with
  | O => (fs, l, offset, sent, None)
  | S rounds =>
      match Consume fs l (cs_subject stream) offset with
      | (fs1, l1, inr (ErrorOffsetOutOfRange _)) => consume_loop rounds fs1 l1 stream offset sent
      | (fs1, l1, inr e) => (fs1, l1, offset, sent, Some e)
      | (fs1, l1, inl res) =>
          match cs_send stream (length sent) with
          | Some e => (fs1, l1, offset, sent, Some e)
          | None => consume_loop rounds fs1 l1 stream (wrap64 (offset + 1)) (sent ++ [res])
          end
      end
  end.

(** [ConsumeStream]: the offset the request ends with, the responses sent
    and the error returned. *)
Definition ConsumeStream (fs : FS) (l : Log) (offset : Z) (stream : ConsumeStreamServer)
  : FS * Log * Z * list ConsumeResponse * option error :=
  consume_loop (cs_rounds stream) fs l stream offset [].

End WithLog.

End server.

(** * Auxiliary definitions

    Predicates and functions that the statements and proofs below use: what
    one operation leaves of the directory, the segment a call builds, the
    records a log holds. *)

(** [fs'] has the names of [fs]. *)
Definition same_names (fs fs' : FS) : Prop :=
  names fs' = names fs /\ next_ino fs' = next_ino fs.

(** [fs'] has the names of [fs] and differs from it at inode [i] only. *)
Definition frame (i : nat) (fs fs' : FS) : Prop :=
  same_names fs fs' /\ forall j, j <> i -> contents fs' j = contents fs j.

(** The only error a buffered write can meet is the closed file. *)
Definition err_closed (before after : option error) : Prop :=
  after = before \/ after = Some ErrClosed.

(** An open store without a pending error. *)
Record store_open (s : Store) : Prop := {
  so_open : f_closed (st_file s) = false;
  so_err : st_err s = None;
  so_buf : len (st_buf s) <= defaultBufSize
}.

(** The segment that [newSegment] builds when neither file exists. *)
Definition fresh_segment (n0 : nat) (b : Z) (c : Config) : segment :=
  {| store := {| st_file := {| f_name := store_name b; f_ino := n0; f_closed := false |};
                 st_buf := []; st_err := None; st_size := 0 |};
     index_ := {| i_file := {| f_name := index_name b; f_ino := S n0; f_closed := false |};
                  i_mlen := MaxIndexBytes c; i_size := 0 |};
     baseOffset := b; nextOffset := b; config := c |}.

Definition offsets (s : segment) : Z * Z := (baseOffset s, nextOffset s).

Definition files_of (s : segment) : list string :=
  [store_name (baseOffset s); index_name (baseOffset s)].

(** What the loop of [Truncate] leaves of one segment. *)
Definition truncated (c : Config) (t : Z) (s s' : segment) : Prop :=
  offsets s' = offsets s /\ index_ s' = index_ s /\ seg_shape c s' /\
  (t < nextOffset s -> s' = s) /\
  (nextOffset s <= t -> st_err (store s') = None).

(** Every second element, starting with the first: what a loop sees that
    advances its index twice per round. *)
Fixpoint every_other {A} (l : list A) : list A :=
  match l with
  | [] => []
  | x :: rest =>
      x :: match rest with
           | [] => []
           | _ :: rest' => every_other rest'
           end
  end.

Definition twice (bs : list Z) : list Z := bs ≫= (fun b => [b; b]).

(** The files of the segments with base offsets [bs]. *)
Definition files_of_bases (bs : list Z) : list string :=
  bs ≫= (fun b => [store_name b; index_name b]).

(** The directory holds the store and the index file of each base offset
    of [bs], and nothing else. *)
Definition paired (fs : FS) (bs : list Z) : Prop :=
  NoDup bs /\ Forall uint64 bs /\
  forall name, is_Some (names fs !! name) <-> name ∈ files_of_bases bs.

(** The segment that [newSegment] builds over two files that exist, the
    index file no longer than [MaxIndexBytes]: the store file [sino] and
    the index file [iino], whose bytes before the call are [sdata] and
    [idata]. *)
Definition reopened (c : Config) (b : Z) (sino iino : nat) (sdata idata : list byte)
  : segment :=
  let mapped := resize (Z.to_nat (MaxIndexBytes c)) "000"%byte idata in
  let n := wrap64 (len idata) in
  {| store := {| st_file := {| f_name := store_name b; f_ino := sino; f_closed := false |};
                 st_buf := []; st_err := None; st_size := wrap64 (len sdata) |};
     index_ := {| i_file := {| f_name := index_name b; f_ino := iino; f_closed := false |};
                  i_mlen := MaxIndexBytes c; i_size := n |};
     baseOffset := b;
     nextOffset :=
       if n =? 0 then b
       else
         let out := wrap32 (wrap64 (n / endWidth - 1)) in
         if n <? out * endWidth + endWidth then b
         else if MaxIndexBytes c <? out * endWidth + endWidth then b
         else wrap64 (b + Uint32 (slice mapped (out * endWidth) offWidth) + 1);
     config := c |}.

(** The inodes that the directory binds to the files of base offset [b]. *)
Definition sino_of (fs : FS) (b : Z) : nat := default 0%nat (names fs !! store_name b).

Definition iino_of (fs : FS) (b : Z) : nat := default 0%nat (names fs !! index_name b).

(** The segment that [newSegment] builds for base offset [b] over the
    files of [fs]. *)
Definition reopen (c : Config) (fs : FS) (b : Z) : segment :=
  reopened c b (sino_of fs b) (iino_of fs b)
    (contents fs (sino_of fs b)) (contents fs (iino_of fs b)).

(** No index file of the listed base offsets is longer than the
    mapping [newIndex] makes of it. *)
Definition indexes_fit (c : Config) (fs : FS) (bs : list Z) : Prop :=
  forall b i, b ∈ bs -> names fs !! index_name b = Some i ->
              len (contents fs i) <= MaxIndexBytes c.

(** What [segment.Close] leaves of a segment: the bookkeeping, with both
    files closed and nothing buffered. *)
Record closed_of (s s' : segment) : Prop := {
  co_offsets : offsets s' = offsets s;
  co_isize : i_size (index_ s') = i_size (index_ s);
  co_imlen : i_mlen (index_ s') = i_mlen (index_ s);
  co_iino : f_ino (i_file (index_ s')) = f_ino (i_file (index_ s));
  co_iclosed : f_closed (i_file (index_ s')) = true;
  co_sino : f_ino (st_file (store s')) = f_ino (st_file (store s));
  co_sclosed : f_closed (st_file (store s')) = true;
  co_buf : st_buf (store s') = [];
  co_err : st_err (store s') = None
}.

(** The member a recorded call names. *)
Definition call_name (c : discovery.call) : string :=
  match c with
  | discovery.JoinCall name _ => name
  | discovery.LeaveCall name => name
  end.

(** The offsets a list of segments covers. *)
Definition covered (offs : list (Z * Z)) (o : Z) : Prop :=
  exists p, p ∈ offs /\ p.1 <= o < p.2.

(** The bytes of the stores of a log, segment by segment. *)
Definition views (fs : FS) (l : Log) : list (list byte) :=
  (fun s => store_view fs (store s)) <$> segments l.

(** What a reader has still to deliver, and what a list of readers has. *)
Definition reader_rest (vs : list (list byte)) (r : origiinReader) : list byte :=
  drop (Z.to_nat (or_off r)) (default [] (vs !! or_store r)).

Definition readers_rest (vs : list (list byte)) (rs : list origiinReader) : list byte :=
  concat (reader_rest vs <$> rs).

Definition reader_ok (vs : list (list byte)) (r : origiinReader) : Prop :=
  exists v, vs !! or_store r = Some v /\ 0 <= or_off r <= len v.

(** The stores of a log can be read: they are open, no two share a file,
    and each is shorter than [2^63] bytes. *)
Record readable (fs : FS) (l : Log) : Prop := {
  rd_open : Forall (fun s => store_open (store s)) (segments l);
  rd_inos : NoDup ((fun s => f_ino (st_file (store s))) <$> segments l);
  rd_len : Forall (fun v => len v < 2 ^ 63) (views fs l)
}.

Section Auxiliary.

Context `{Codec}.

(** How one [Log.Append] is made of [segment.Append] and, when the active
    segment is full afterwards, of the creation of a new segment. *)
Definition append_step (c : Config) (fs : FS) (l : Log) (r : Record_)
    (fs' : FS) (l' : Log) (r' : Record_) (res : Z * option error) (a : segment) : Prop :=
  exists fs1 a1 res1,
    segment_Append fs a r = (fs1, a1, r', res1) /\
    res = match res1.2 with Some e => (0, Some e) | None => (res1.1, None) end /\
    ((fs' = fs1 /\ l' = set_active l a1) \/
     (res1.2 = None /\
      l' = {| l_Config := c;
              segments := segments (set_active l a1) ++
                          [fresh_segment (next_ino fs1) (nextOffset a + 1) c];
              orphan := None |} /\
      (forall j, (j < next_ino fs1)%nat -> contents fs' j = contents fs1 j) /\
      contents fs' (next_ino fs1) = [] /\
      len (contents fs' (S (next_ino fs1))) = MaxIndexBytes c)).

(** The record that a segment holds at relative position [k]. *)
Definition seg_at (fs : FS) (s : segment) (k : Z) : option Record_ :=
  seg_record (contents fs (f_ino (i_file (index_ s)))) (store_view fs (store s)) k.

(** Offset [off] of the log holds record [r]. *)
Definition holds (fs : FS) (segs : list segment) (off : Z) (r : Record_) : Prop :=
  exists s, s ∈ segs /\ in_segment off s /\ seg_at fs s (off - baseOffset s) = Some r.

(** [append_in_bounds] as a check that can be run. *)
Definition bounds_check (l : Log) (r : Record_) : bool :=
  match activeSegment l with
  | Some a =>
      (nextOffset a <? MaxUint64) &&
      match Marshal (set_Offset r (nextOffset a)) with
      | Some p => st_size (store a) + lenWidth + len p <? 2 ^ 63
      | None => true
      end
  | None => true
  end.

Fixpoint appends_check (fs : FS) (l : Log) (records : list Record_) : bool :=
  match records with
  | [] => true
  | r :: rest =>
      bounds_check l r &&
      match Log_Append fs l r with
      | (fs1, l1, _, _) => appends_check fs1 l1 rest
      end
  end.

(** [newSegment] for each base offset of a list, in order. *)
Fixpoint open_all (fs : FS) (l : Log) (bs : list Z) : FS * Log * option error :=
  match bs with
  | [] => (fs, l, None)
  | b :: rest =>
      match Log_newSegment fs l b with
      | (fs1, l1, Some e) => (fs1, l1, Some e)
      | (fs1, l1, None) => open_all fs1 l1 rest
      end
  end.

End Auxiliary.

(** * Lemmas on the model *)

Lemma Z_of_byte_range b : 0 <= Z_of_byte b < 256.
Proof.
  unfold Z_of_byte. pose proof (Byte.to_N_bounded b) as Hb. lia.
Qed.

Lemma Z_of_byte_of_Z z : Z_of_byte (byte_of_Z z) = z mod 256.
Proof.
  unfold Z_of_byte, byte_of_Z.
  assert (Hr : 0 <= z mod 256 < 256) by (apply Z.mod_pos_bound; lia).
  destruct (Byte.of_N (Z.to_N (z mod 256))) as [b|] eqn:E.
  - apply Byte.to_of_N in E. simpl. rewrite E. lia.
  - exfalso. rewrite Byte.of_N_None_iff in E. lia.
Qed.

Lemma be_put_length w v : length (be_put w v) = w.
Proof.
  revert v. induction w as [|w IH]; intros v; simpl; [done|].
  rewrite length_app, IH. simpl. lia.
Qed.

Lemma be_get_snoc bs b : be_get (bs ++ [b]) = be_get bs * 256 + Z_of_byte b.
Proof. unfold be_get. by rewrite fold_left_app. Qed.

Lemma be_get_put w v : be_get (be_put w v) = v mod 256 ^ Z.of_nat w.
Proof.
  revert v. induction w as [|w IH]; intros v.
  - simpl. by rewrite Z.mod_1_r.
  - cbn [be_put]. rewrite be_get_snoc, IH, Z_of_byte_of_Z.
    rewrite Nat2Z.inj_succ, Z.pow_succ_r by lia.
    rewrite Z.rem_mul_r by lia. lia.
Qed.

Lemma len_nonneg {A} (l : list A) : 0 <= len l.
Proof. unfold len. lia. Qed.

Lemma len_app {A} (a b : list A) : len (a ++ b) = len a + len b.
Proof. unfold len. rewrite length_app. lia. Qed.

Lemma len_nil {A} : len (@nil A) = 0.
Proof. done. Qed.

Lemma len_be_put w v : len (be_put w v) = Z.of_nat w.
Proof. unfold len. by rewrite be_put_length. Qed.

Lemma len_slice data lo n :
  0 <= lo -> 0 <= n -> lo + n <= len data -> len (slice data lo n) = n.
Proof.
  unfold slice, len. intros. rewrite length_take, length_drop. lia.
Qed.

Lemma len_slice_le data lo n : 0 <= n -> len (slice data lo n) <= n.
Proof. unfold slice, len. intros. rewrite length_take. lia. Qed.

Lemma slice_app_l a b lo n :
  0 <= lo -> 0 <= n -> lo + n <= len a -> slice (a ++ b) lo n = slice a lo n.
Proof.
  unfold slice, len. intros.
  rewrite drop_app_le by lia. rewrite take_app_le; [done|].
  rewrite length_drop. lia.
Qed.

Lemma slice_app_r a b lo n :
  0 <= lo -> slice (a ++ b) (len a + lo) n = slice b lo n.
Proof.
  unfold slice, len. intros.
  replace (Z.to_nat (Z.of_nat (length a) + lo)) with (length a + Z.to_nat lo)%nat by lia.
  by rewrite drop_app_add.
Qed.

Lemma slice_all a : slice a 0 (len a) = a.
Proof.
  unfold slice, len. simpl. rewrite Nat2Z.id. apply firstn_all.
Qed.

Lemma slice_prefix a b : slice (a ++ b) 0 (len a) = a.
Proof.
  rewrite slice_app_l by (pose proof (len_nonneg a); lia). apply slice_all.
Qed.

Lemma slice_take data m lo n :
  0 <= lo -> 0 <= n -> lo + n <= m -> slice (take (Z.to_nat m) data) lo n = slice data lo n.
Proof.
  intros. destruct (decide (m <= len data)).
  - rewrite <- (take_drop (Z.to_nat m) data) at 2.
    symmetry. apply slice_app_l; [done..|].
    unfold len in *. rewrite length_take. lia.
  - rewrite take_ge; [done|]. unfold len in *. lia.
Qed.

Lemma len_take_le {A} (data : list A) m :
  0 <= m <= len data -> len (take (Z.to_nat m) data) = m.
Proof. unfold len. intros. rewrite length_take. lia. Qed.

Lemma len_splice data lo src :
  0 <= lo -> lo + len src <= len data -> len (splice data lo src) = len data.
Proof.
  unfold splice, len. intros. rewrite !length_app, length_take, length_drop. lia.
Qed.

Lemma slice_splice_before data lo src lo' n :
  0 <= lo' -> 0 <= n -> lo' + n <= lo -> lo <= len data ->
  slice (splice data lo src) lo' n = slice data lo' n.
Proof.
  intros. unfold splice.
  rewrite slice_app_l by (rewrite ?len_take_le; lia).
  by apply slice_take.
Qed.

Lemma slice_splice_in data lo src a n :
  0 <= lo <= len data -> 0 <= a -> 0 <= n -> a + n <= len src ->
  slice (splice data lo src) (lo + a) n = slice src a n.
Proof.
  intros. unfold splice.
  replace (lo + a) with (len (take (Z.to_nat lo) data) + a)
    by (rewrite len_take_le; lia).
  rewrite slice_app_r by lia.
  by rewrite slice_app_l by lia.
Qed.

Lemma slice_resize data m lo n :
  0 <= lo -> 0 <= n -> lo + n <= m -> lo + n <= len data ->
  slice (resize (Z.to_nat m) "000"%byte data) lo n = slice data lo n.
Proof.
  intros. unfold slice, len in *.
  destruct (decide (Z.to_nat m <= length data)%nat).
  - rewrite resize_le by done.
    change (slice (take (Z.to_nat m) data) lo n = slice data lo n).
    by apply slice_take.
  - rewrite resize_ge by lia. rewrite drop_app_le by lia.
    rewrite take_app_le; [done|]. rewrite length_drop. lia.
Qed.

(** ** File names *)

Lemma list_ascii_of_string_app a b :
  list_ascii_of_string (a +:+ b) = list_ascii_of_string a ++ list_ascii_of_string b.
Proof. induction a as [|c a IH]; simpl; [done|]. by rewrite IH. Qed.

Lemma path_Ext_suffix (s ext : string) :
  path_Ext ext = ext -> ext <> EmptyString -> path_Ext (s +:+ ext) = ext.
Proof.
  intros Hext Hne. induction s as [|c s IH]; simpl; [done|].
  rewrite IH. by destruct ext.
Qed.

Lemma TrimSuffix_app (s ext : string) : TrimSuffix (s +:+ ext) ext = s.
Proof.
  unfold TrimSuffix. rewrite list_ascii_of_string_app.
  destruct (decide _) as [_|Hn].
  - rewrite length_app, Nat.add_sub, take_app_length.
    apply string_of_list_ascii_of_string.
  - exfalso. apply Hn. by apply suffix_app_r.
Qed.

Lemma to_uint_nonnil n : N.to_uint n <> Decimal.Nil.
Proof.
  intros E. pose proof (Unsigned.to_of (N.to_uint n)) as Hn.
  rewrite Unsigned.of_to, E in Hn. discriminate.
Qed.

Lemma ParseUint_format_uint b : uint64 b -> ParseUint (format_uint b) = (b, true).
Proof.
  intros [Hlo Hhi]. unfold ParseUint, format_uint.
  destruct (decide _) as [E|_].
  - exfalso. pose proof (NilEmpty.usu (N.to_uint (Z.to_N b))) as Hu.
    rewrite E in Hu. simpl in Hu. inversion Hu as [Hd].
    by apply (to_uint_nonnil (Z.to_N b)).
  - rewrite NilEmpty.usu, Unsigned.of_to, Z2N.id by done.
    unfold MaxUint64. destruct (Z.leb_spec b (2 ^ 64 - 1)); [done|lia].
Qed.

Lemma parse_store_name b : uint64 b -> parse_baseOffset (store_name b) = b.
Proof.
  intros Hb. unfold parse_baseOffset, store_name.
  rewrite path_Ext_suffix by done.
  by rewrite TrimSuffix_app, ParseUint_format_uint.
Qed.

Lemma parse_index_name b : uint64 b -> parse_baseOffset (index_name b) = b.
Proof.
  intros Hb. unfold parse_baseOffset, index_name.
  rewrite path_Ext_suffix by done.
  by rewrite TrimSuffix_app, ParseUint_format_uint.
Qed.

Lemma store_name_inj a b : uint64 a -> uint64 b -> store_name a = store_name b -> a = b.
Proof.
  intros Ha Hb E. rewrite <- (parse_store_name a), <- (parse_store_name b) by done.
  by rewrite E.
Qed.

Lemma index_name_inj a b : uint64 a -> uint64 b -> index_name a = index_name b -> a = b.
Proof.
  intros Ha Hb E. rewrite <- (parse_index_name a), <- (parse_index_name b) by done.
  by rewrite E.
Qed.

Lemma store_index_name_ne a b : store_name a <> index_name b.
Proof.
  unfold store_name, index_name. intros E.
  assert (Hx : path_Ext (format_uint a +:+ ".store") = path_Ext (format_uint b +:+ ".index"))
    by (by rewrite E).
  rewrite !path_Ext_suffix in Hx by done. discriminate.
Qed.

(** ** The file system *)

Lemma contents_set_contents fs i d j :
  contents (set_contents fs i d) j = if decide (i = j) then d else contents fs j.
Proof.
  unfold contents, set_contents. simpl. rewrite lookup_insert.
  by destruct (decide (i = j)).
Qed.

Lemma contents_set_contents_eq fs i d : contents (set_contents fs i d) i = d.
Proof. rewrite contents_set_contents. by destruct (decide _). Qed.

Lemma contents_set_contents_ne fs i d j :
  i <> j -> contents (set_contents fs i d) j = contents fs j.
Proof. intros. rewrite contents_set_contents. by destruct (decide _). Qed.

Lemma same_names_refl fs : same_names fs fs.
Proof. done. Qed.

Lemma same_names_trans fs1 fs2 fs3 :
  same_names fs1 fs2 -> same_names fs2 fs3 -> same_names fs1 fs3.
Proof. intros [? ?] [? ?]. split; congruence. Qed.

Lemma frame_refl i fs : frame i fs fs.
Proof. done. Qed.

Lemma frame_trans i fs1 fs2 fs3 : frame i fs1 fs2 -> frame i fs2 fs3 -> frame i fs1 fs3.
Proof.
  intros [Hn1 Hc1] [Hn2 Hc2]. split; [by eapply same_names_trans|].
  intros j Hj. rewrite Hc2, Hc1; done.
Qed.

Lemma frame_set_contents fs i d : frame i fs (set_contents fs i d).
Proof. split; [done|]. intros j Hj. by apply contents_set_contents_ne. Qed.

Lemma frame_same_names i fs fs' : frame i fs fs' -> same_names fs fs'.
Proof. by intros [? _]. Qed.

Lemma fs_ok_same_names fs fs' : same_names fs fs' -> fs_ok fs -> fs_ok fs'.
Proof.
  intros [Hn Hi] [Hb Hj]. split.
  - intros name i. rewrite Hn, Hi. apply Hb.
  - intros n1 n2 i. rewrite Hn. apply Hj.
Qed.

(** ** The buffered writer *)

Lemma File_Write_open fs f p :
  f_closed f = false ->
  File_Write fs f p = (set_contents fs (f_ino f) (contents fs (f_ino f) ++ p), (len p, None)).
Proof. unfold File_Write. by intros ->. Qed.

Lemma File_Write_same_names fs f p : same_names fs (File_Write fs f p).1.
Proof. unfold File_Write. by destruct (f_closed f). Qed.

Lemma buf_Flush_same fs s :
  same_names fs (buf_Flush fs s).1.1 /\
  st_file (buf_Flush fs s).1.2 = st_file s /\
  st_size (buf_Flush fs s).1.2 = st_size s.
Proof.
  unfold buf_Flush. destruct (st_err s); [done|].
  destruct (Buffered s =? 0); [done|].
  pose proof (File_Write_same_names fs (st_file s) (st_buf s)) as Hw.
  destruct (File_Write fs (st_file s) (st_buf s)) as [fs' [n [e|]]]; done.
Qed.

Lemma buf_Write_same fs s p :
  same_names fs (buf_Write fs s p).1.1 /\
  st_file (buf_Write fs s p).1.2 = st_file s /\
  st_size (buf_Write fs s p).1.2 = st_size s.
Proof.
  unfold buf_Write. destruct (st_err s); [done|].
  destruct (len p <=? Available s); [done|].
  destruct (Buffered s =? 0).
  - pose proof (File_Write_same_names fs (st_file s) p) as Hw.
    destruct (File_Write fs (st_file s) p) as [fs' [n [e|]]]; done.
  - set (s1 := set_buf s _ None).
    pose proof (buf_Flush_same fs s1) as (Hn & Hf & Hs).
    destruct (buf_Flush fs s1) as [[fs1 s2] [e|]]; [done|]. simpl in *.
    destruct (_ <=? Available s2); [done|].
    pose proof (File_Write_same_names fs1 (st_file s2) (drop (Z.to_nat (Available s)) p)) as Hw.
    destruct (File_Write fs1 (st_file s2) _) as [fs' [n [e|]]]; simpl in *;
      (split; [by eapply same_names_trans|done]).
Qed.

Lemma File_Write_err fs f p e : (File_Write fs f p).2.2 = Some e -> e = ErrClosed.
Proof. unfold File_Write. destruct (f_closed f); cbn; congruence. Qed.

Lemma buf_Flush_err fs s :
  err_closed (st_err s) (st_err (buf_Flush fs s).1.2) /\
  (buf_Flush fs s).2 = st_err (buf_Flush fs s).1.2.
Proof.
  unfold buf_Flush, err_closed. destruct (st_err s) eqn:E; [cbn; rewrite E; auto|].
  destruct (Buffered s =? 0); [cbn; rewrite E; auto|].
  pose proof (File_Write_err fs (st_file s) (st_buf s)) as Hw.
  destruct (File_Write fs (st_file s) (st_buf s)) as [fs' [n [e|]]]; cbn in *; [|auto].
  rewrite (Hw e) by done. auto.
Qed.

Lemma buf_Write_err fs s p :
  err_closed (st_err s) (st_err (buf_Write fs s p).1.2) /\
  (buf_Write fs s p).2.2 = st_err (buf_Write fs s p).1.2.
Proof.
  unfold buf_Write, err_closed. destruct (st_err s) eqn:E; [cbn; rewrite E; auto|].
  destruct (len p <=? Available s); [cbn; auto|].
  destruct (Buffered s =? 0).
  - pose proof (File_Write_err fs (st_file s) p) as Hw.
    destruct (File_Write fs (st_file s) p) as [fs' [n [e|]]]; cbn in *; [|rewrite E; auto].
    rewrite (Hw e) by done. auto.
  - set (s1 := set_buf s _ None).
    pose proof (buf_Flush_err fs s1) as [Hc He].
    destruct (buf_Flush fs s1) as [[fs1 s2] o]. cbn in Hc, He. subst o.
    destruct (st_err s2) as [e|] eqn:E2; cbn.
    { rewrite E2. destruct Hc as [Hc|Hc]; [done|]. injection Hc as ->. auto. }
    destruct (_ <=? Available s2); [cbn; auto|].
    pose proof (File_Write_err fs1 (st_file s2) (drop (Z.to_nat (Available s)) p)) as Hw.
    destruct (File_Write fs1 (st_file s2) _) as [fs' [n [e|]]]; cbn in *; [|rewrite E2; auto].
    rewrite (Hw e) by done. auto.
Qed.

Lemma Store_Append_err fs s p :
  err_closed (st_err s) (st_err (Store_Append fs s p).1.2) /\
  (Store_Append fs s p).2.2 = st_err (Store_Append fs s p).1.2.
Proof.
  unfold Store_Append.
  pose proof (buf_Write_err fs s (PutUint64 (wrap64 (len p)))) as [Hc1 He1].
  destruct (buf_Write fs s _) as [[fs1 s1] [n1 o1]]. cbn in Hc1, He1. subst o1.
  destruct (st_err s1) as [e|] eqn:E1; [cbn; by rewrite E1|].
  pose proof (buf_Write_err fs1 s1 p) as [Hc2 He2].
  destruct (buf_Write fs1 s1 p) as [[fs2 s2] [n2 o2]]. cbn in Hc2, He2. subst o2.
  unfold err_closed in *. rewrite E1 in Hc2.
  destruct (st_err s2) as [e|] eqn:E2; cbn; rewrite ?E2.
  - split; [|done]. destruct Hc2 as [Hc2|Hc2]; [done|]. auto.
  - split; [|done]. destruct Hc1 as [Hc1|Hc1]; [|done]. rewrite <- Hc1. auto.
Qed.

Lemma buf_Flush_open fs s :
  store_open s ->
  exists fs' s',
    buf_Flush fs s = (fs', s', None) /\ store_open s' /\ st_buf s' = [] /\
    store_view fs' s' = store_view fs s /\ frame (f_ino (st_file s)) fs fs' /\
    st_file s' = st_file s /\ st_size s' = st_size s.
Proof.
  intros [Ho He Hb]. unfold buf_Flush. rewrite He.
  destruct (Z.eqb_spec (Buffered s) 0) as [E|E].
  - exists fs, s. split_and!; try done.
    unfold Buffered, len in E. destruct (st_buf s); [done|simpl in E; lia].
  - rewrite File_Write_open by done.
    eexists _, _. split; [done|]. split_and!; try done.
    + unfold store_view. simpl. rewrite contents_set_contents_eq. by rewrite app_nil_r.
    + apply frame_set_contents.
Qed.

Lemma buf_Write_open fs s p :
  store_open s ->
  exists fs' s',
    buf_Write fs s p = (fs', s', (len p, None)) /\ store_open s' /\
    store_view fs' s' = store_view fs s ++ p /\ frame (f_ino (st_file s)) fs fs' /\
    st_file s' = st_file s /\ st_size s' = st_size s.
Proof.
  intros [Ho He Hb]. unfold buf_Write. rewrite He.
  destruct (Z.leb_spec (len p) (Available s)) as [Hle|Hgt].
  { eexists _, _. split; [done|]. split_and!; try done.
    - split; try done. simpl. rewrite len_app. unfold Available in Hle. lia.
    - unfold store_view. simpl. by rewrite app_assoc. }
  destruct (Z.eqb_spec (Buffered s) 0) as [E|E].
  { rewrite File_Write_open by done.
    eexists _, _. split; [done|]. split_and!; try done.
    - assert (Hnil : st_buf s = []).
      { unfold Buffered, len in E. destruct (st_buf s); [done|simpl in E; lia]. }
      unfold store_view. simpl. rewrite contents_set_contents_eq, Hnil.
      by rewrite !app_nil_r.
    - apply frame_set_contents. }
  set (n := Available s). set (s1 := set_buf s _ None).
  assert (Hn : 0 <= n < len p) by (unfold n, Available in *; lia).
  assert (Hs1 : store_open s1).
  { split; try done. unfold s1. simpl. rewrite len_app, len_slice by lia.
    unfold n, Available. lia. }
  destruct (buf_Flush_open fs s1 Hs1) as (fs1 & s2 & -> & Hs2 & Hnil & Hv & Hfr & Hf & Hsz).
  assert (Hview : store_view fs1 s2 ++ drop (Z.to_nat n) p = store_view fs s ++ p).
  { rewrite Hv. unfold store_view, s1. simpl. rewrite <- !app_assoc. do 2 f_equal.
    unfold slice. rewrite drop_0. apply take_drop. }
  destruct (Z.leb_spec (len (drop (Z.to_nat n) p)) (Available s2)) as [Hle2|Hgt2].
  { eexists _, _. split; [done|]. split_and!; try done.
    - split; [apply Hs2|done|]. simpl. unfold Available in Hle2. rewrite Hnil in Hle2.
      unfold len in *. simpl in Hle2. lia.
    - rewrite <- Hview. unfold store_view. simpl. by rewrite Hnil, app_nil_r. }
  rewrite File_Write_open by apply Hs2.
  eexists _, _. split.
  { do 2 f_equal. f_equal. unfold len. rewrite length_drop. unfold len in Hn. lia. }
  split_and!; try done.
  - rewrite <- Hview. unfold store_view. simpl.
    rewrite contents_set_contents_eq, Hnil. by rewrite !app_nil_r.
  - eapply frame_trans; [exact Hfr|]. rewrite Hf. apply frame_set_contents.
Qed.

(** ** The store *)

Lemma Store_Append_same fs s p :
  same_names fs (Store_Append fs s p).1.1 /\
  st_file (Store_Append fs s p).1.2 = st_file s.
Proof.
  unfold Store_Append.
  pose proof (buf_Write_same fs s (PutUint64 (wrap64 (len p)))) as (Hn1 & Hf1 & _).
  destruct (buf_Write fs s _) as [[fs1 s1] [n1 [e|]]]; [done|]. simpl in *.
  pose proof (buf_Write_same fs1 s1 p) as (Hn2 & Hf2 & _).
  destruct (buf_Write fs1 s1 p) as [[fs2 s2] [n2 [e|]]]; simpl in *.
  - split; [by eapply same_names_trans|congruence].
  - split; [by eapply same_names_trans|congruence].
Qed.

Lemma Store_Append_open fs s p :
  store_open s ->
  exists fs' s',
    Store_Append fs s p = (fs', s', (wrap64 (len p + lenWidth), st_size s, None)) /\
    store_open s' /\
    store_view fs' s' = store_view fs s ++ PutUint64 (wrap64 (len p)) ++ p /\
    frame (f_ino (st_file s)) fs fs' /\
    st_file s' = st_file s /\
    st_size s' = wrap64 (st_size s + wrap64 (len p + lenWidth)).
Proof.
  intros Hs. unfold Store_Append.
  destruct (buf_Write_open fs s (PutUint64 (wrap64 (len p))) Hs)
    as (fs1 & s1 & -> & Hs1 & Hv1 & Hfr1 & Hf1 & Hsz1).
  destruct (buf_Write_open fs1 s1 p Hs1) as (fs2 & s2 & -> & Hs2 & Hv2 & Hfr2 & Hf2 & Hsz2).
  eexists _, _. split; [done|]. split_and!.
  - destruct Hs2. by split.
  - unfold store_view in *. simpl. rewrite Hv2, Hv1. by rewrite <- app_assoc.
  - eapply frame_trans; [exact Hfr1|]. by rewrite <- Hf1.
  - simpl. congruence.
  - simpl. congruence.
Qed.

Lemma be_get_nonneg bs : 0 <= be_get bs.
Proof.
  induction bs as [|b bs IH] using rev_ind; [done|].
  rewrite be_get_snoc. pose proof (Z_of_byte_range b). lia.
Qed.

Lemma Store_Read_same fs s pos :
  same_names fs (Store_Read fs s pos).1.1 /\
  st_file (Store_Read fs s pos).1.2 = st_file s /\
  st_size (Store_Read fs s pos).1.2 = st_size s.
Proof.
  unfold Store_Read.
  pose proof (buf_Flush_same fs s) as (Hn & Hf & Hs).
  destruct (buf_Flush fs s) as [[fs1 s1] [e|]]; [done|]. simpl in *.
  destruct (File_ReadAt fs1 (st_file s1) lenWidth _) as [d [e|]]; [done|].
  destruct (File_ReadAt fs1 (st_file s1) (Uint64 d) _) as [d2 [e|]]; done.
Qed.

Lemma to_int64_small z : 0 <= z < 2 ^ 63 -> to_int64 z = z.
Proof. intros. unfold to_int64. destruct (Z.ltb_spec z (2 ^ 63)); lia. Qed.

Lemma wrap64_small z : 0 <= z < 2 ^ 64 -> wrap64 z = z.
Proof. intros. unfold wrap64. by apply Z.mod_small. Qed.

Lemma wrap32_small z : 0 <= z < 2 ^ 32 -> wrap32 z = z.
Proof. intros. unfold wrap32. by apply Z.mod_small. Qed.

Lemma File_ReadAt_open fs f n off :
  f_closed f = false -> 0 <= off -> 0 <= n -> off + n <= len (contents fs (f_ino f)) ->
  File_ReadAt fs f n off = (slice (contents fs (f_ino f)) off n, None).
Proof.
  intros Ho Hoff Hn Hle. unfold File_ReadAt.
  destruct (Z.ltb_spec off 0); [lia|].
  destruct (Z.eqb_spec n 0) as [->|Hn0]; [done|].
  rewrite Ho. rewrite len_slice by lia.
  destruct (Z.ltb_spec n n); [lia|done].
Qed.

Lemma Store_Read_open fs s pos b :
  store_open s ->
  len (store_view fs s) < 2 ^ 63 ->
  view_read (store_view fs s) pos = Some b ->
  exists fs' s',
    Store_Read fs s pos = (fs', s', (Some b, None)) /\
    store_open s' /\ store_view fs' s' = store_view fs s /\
    frame (f_ino (st_file s)) fs fs' /\
    st_file s' = st_file s /\ st_size s' = st_size s.
Proof.
  intros Hs Hlt Hr. unfold Store_Read.
  destruct (buf_Flush_open fs s Hs) as (fs1 & s1 & -> & Hs1 & Hnil & Hv & Hfr & Hf & Hsz).
  unfold view_read in Hr.
  destruct (Z.leb_spec 0 pos) as [H1|]; [|done].
  destruct (Z.leb_spec (pos + lenWidth) (len (store_view fs s))) as [H2|]; [|done].
  simpl in Hr.
  destruct (Z.leb_spec (pos + lenWidth + Uint64 (slice (store_view fs s) pos lenWidth))
              (len (store_view fs s))) as [H3|]; [|done].
  inversion Hr as [Hb]. clear Hr.
  assert (Hc : contents fs1 (f_ino (st_file s1)) = store_view fs s).
  { rewrite <- Hv. unfold store_view. by rewrite Hnil, app_nil_r. }
  unfold lenWidth in *.
  rewrite to_int64_small by lia.
  rewrite File_ReadAt_open by (rewrite ?Hc; try apply Hs1; lia).
  rewrite Hc.
  pose proof (be_get_nonneg (slice (store_view fs s) pos 8)) as Hn.
  unfold Uint64 in *.
  rewrite wrap64_small by lia.
  rewrite to_int64_small by lia.
  rewrite File_ReadAt_open by (rewrite ?Hc; try apply Hs1; lia).
  rewrite Hc.
  eexists _, _. split; [done|]. split_and!; try done.
Qed.

Lemma view_read_app v ext pos b :
  view_read v pos = Some b -> view_read (v ++ ext) pos = Some b.
Proof.
  unfold view_read, lenWidth. intros Hr.
  destruct (Z.leb_spec 0 pos) as [H1|]; [|done].
  destruct (Z.leb_spec (pos + 8) (len v)) as [H2|]; [|done].
  simpl in Hr.
  destruct (Z.leb_spec (pos + 8 + Uint64 (slice v pos 8)) (len v)) as [H3|]; [|done].
  pose proof (be_get_nonneg (slice v pos 8)) as Hn. unfold Uint64 in *.
  pose proof (len_nonneg ext).
  rewrite len_app.
  destruct (Z.leb_spec (pos + 8) (len v + len ext)); [|lia]. simpl.
  rewrite (slice_app_l v ext pos 8) by lia.
  destruct (Z.leb_spec (pos + 8 + be_get (slice v pos 8)) (len v + len ext)); [|lia].
  rewrite slice_app_l by lia. done.
Qed.

Lemma Uint64_PutUint64 v : Uint64 (PutUint64 v) = wrap64 v.
Proof. unfold Uint64, PutUint64, wrap64. by rewrite be_get_put. Qed.

Lemma Uint32_PutUint32 v : Uint32 (PutUint32 v) = wrap32 v.
Proof. unfold Uint32, PutUint32, wrap32. by rewrite be_get_put. Qed.

Lemma len_PutUint64 v : len (PutUint64 v) = 8.
Proof. unfold PutUint64. by rewrite len_be_put. Qed.

Lemma len_PutUint32 v : len (PutUint32 v) = 4.
Proof. unfold PutUint32. by rewrite len_be_put. Qed.

Lemma slice_mid a b c : slice (a ++ b ++ c) (len a) (len b) = b.
Proof.
  pose proof (len_nonneg b).
  replace (len a) with (len a + 0) by lia.
  rewrite slice_app_r by lia. apply slice_prefix.
Qed.

Lemma slice_tail a b c : slice (a ++ b ++ c) (len a + len b) (len c) = c.
Proof.
  rewrite slice_app_r by apply len_nonneg.
  replace (len b) with (len b + 0) by lia.
  rewrite slice_app_r by lia. apply slice_all.
Qed.

Lemma view_read_new v p :
  len p < 2 ^ 64 ->
  view_read (v ++ PutUint64 (wrap64 (len p)) ++ p) (len v) = Some p.
Proof.
  intros Hp. pose proof (len_nonneg p) as Hp0. pose proof (len_nonneg v) as Hv0.
  rewrite (wrap64_small (len p)) by lia.
  unfold view_read, lenWidth. rewrite !len_app, len_PutUint64.
  destruct (Z.leb_spec 0 (len v)); [|lia].
  destruct (Z.leb_spec (len v + 8) (len v + (8 + len p))); [|lia]. cbn [andb].
  pose proof (slice_mid v (PutUint64 (len p)) p) as Hmid.
  pose proof (slice_tail v (PutUint64 (len p)) p) as Htail.
  rewrite len_PutUint64 in Hmid, Htail.
  rewrite Hmid, Uint64_PutUint64, wrap64_small by lia.
  destruct (Z.leb_spec (len v + 8 + len p) (len v + (8 + len p))); [|lia].
  by rewrite Htail.
Qed.

(** ** The index *)

Lemma index_Write_same fs i off pos :
  same_names fs (index_Write fs i off pos).1.1 /\
  i_file (index_Write fs i off pos).1.2 = i_file i /\
  i_mlen (index_Write fs i off pos).1.2 = i_mlen i.
Proof.
  unfold index_Write. destruct (_ <? _); [done|]. destruct (_ || _); done.
Qed.

Lemma index_Write_full fs i off pos :
  0 <= i_size i < 2 ^ 63 -> i_mlen i < i_size i + endWidth ->
  index_Write fs i off pos = (fs, i, Some EOF).
Proof.
  unfold index_Write, endWidth, offWidth, posWidth. intros Hs Hf.
  rewrite wrap64_small by lia.
  destruct (Z.ltb_spec (i_mlen i) (i_size i + (4 + 8))); [done|lia].
Qed.

Lemma index_Write_ok fs i off pos :
  0 <= i_size i -> i_size i + endWidth <= i_mlen i -> i_mlen i < 2 ^ 63 ->
  len (contents fs (f_ino (i_file i))) = i_mlen i ->
  index_Write fs i off pos =
    (set_contents fs (f_ino (i_file i))
       (splice (contents fs (f_ino (i_file i))) (i_size i) (PutUint32 off ++ PutUint64 pos)),
     {| i_file := i_file i; i_mlen := i_mlen i; i_size := i_size i + endWidth |},
     None).
Proof.
  unfold index_Write, endWidth, offWidth, posWidth. intros Hs Hf Hm Hl.
  rewrite wrap64_small by lia. rewrite Hl.
  destruct (Z.ltb_spec (i_mlen i) (i_size i + (4 + 8))); [lia|]. done.
Qed.

Lemma index_Write_err fs i off pos e :
  (index_Write fs i off pos).2 = Some e -> e = EOF \/ e = Panic.
Proof.
  unfold index_Write. destruct (_ <? _); [simpl; intros [= <-]; by left|].
  destruct (_ || _); [simpl; intros [= <-]; by right|done].
Qed.

Lemma index_Read_empty fs i in_ : i_size i = 0 -> index_Read fs i in_ = (0, 0, Some EOF).
Proof. unfold index_Read. by intros ->. Qed.

Lemma index_Read_entry fs i n k :
  i_size i = endWidth * n -> 0 <= k < n -> n <= 2 ^ 32 ->
  i_size i <= i_mlen i -> i_mlen i <= len (contents fs (f_ino (i_file i))) ->
  index_Read fs i k =
    (fst (index_entry (contents fs (f_ino (i_file i))) k),
     snd (index_entry (contents fs (f_ino (i_file i))) k), None).
Proof.
  unfold index_Read, index_entry, endWidth, offWidth, posWidth.
  intros Hs Hk Hn Hm Hl. simpl.
  destruct (Z.eqb_spec (i_size i) 0); [lia|].
  destruct (Z.eqb_spec k (-1)); [lia|].
  rewrite wrap32_small by lia.
  destruct (Z.ltb_spec (i_size i) (k * (4 + 8) + (4 + 8))); [lia|].
  destruct (Z.ltb_spec (i_mlen i) (k * (4 + 8) + (4 + 8))); [lia|].
  destruct (Z.ltb_spec (len (contents fs (f_ino (i_file i)))) (k * (4 + 8) + (4 + 8))); [lia|].
  done.
Qed.

Lemma index_Read_last fs i n :
  i_size i = endWidth * n -> 0 < n -> n <= 2 ^ 32 ->
  i_size i <= i_mlen i -> i_mlen i <= len (contents fs (f_ino (i_file i))) ->
  index_Read fs i (-1) =
    (fst (index_entry (contents fs (f_ino (i_file i))) (n - 1)),
     snd (index_entry (contents fs (f_ino (i_file i))) (n - 1)), None).
Proof.
  unfold index_Read, index_entry, endWidth, offWidth, posWidth.
  intros Hs Hk Hn Hm Hl. simpl.
  destruct (Z.eqb_spec (i_size i) 0); [lia|].
  rewrite Hs. replace ((4 + 8) * n / (4 + 8)) with n by (rewrite Z.mul_comm, Z.div_mul; lia).
  rewrite wrap64_small, wrap32_small by (rewrite ?wrap64_small; lia).
  destruct (Z.ltb_spec ((4 + 8) * n) ((n - 1) * (4 + 8) + (4 + 8))); [lia|].
  destruct (Z.ltb_spec (i_mlen i) ((n - 1) * (4 + 8) + (4 + 8))); [lia|].
  destruct (Z.ltb_spec (len (contents fs (f_ino (i_file i)))) ((n - 1) * (4 + 8) + (4 + 8)));
    [lia|].
  done.
Qed.

Lemma index_entry_splice_before idata n e k :
  0 <= k < n -> endWidth * n <= len idata ->
  index_entry (splice idata (endWidth * n) e) k = index_entry idata k.
Proof.
  unfold index_entry, endWidth, offWidth, posWidth. intros Hk Hl.
  rewrite !slice_splice_before by lia. done.
Qed.

Lemma slice_suffix a b : slice (a ++ b) (len a) (len b) = b.
Proof.
  replace (len a) with (len a + 0) by lia.
  rewrite slice_app_r by lia. apply slice_all.
Qed.

Lemma index_entry_splice_at idata n off pos :
  0 <= n -> endWidth * n <= len idata ->
  index_entry (splice idata (endWidth * n) (PutUint32 off ++ PutUint64 pos)) n
  = (wrap32 off, wrap64 pos).
Proof.
  unfold index_entry, endWidth, offWidth, posWidth. intros Hn Hl.
  replace (n * (4 + 8)) with ((4 + 8) * n + 0) by lia.
  replace ((4 + 8) * n + 0 + 4) with ((4 + 8) * n + 4) by lia.
  rewrite !slice_splice_in
    by (rewrite ?len_app, ?len_PutUint32, ?len_PutUint64; lia).
  pose proof (slice_prefix (PutUint32 off) (PutUint64 pos)) as Hp.
  pose proof (slice_suffix (PutUint32 off) (PutUint64 pos)) as Hs.
  rewrite len_PutUint32 in Hp, Hs. rewrite len_PutUint64 in Hs.
  by rewrite Hp, Hs, Uint32_PutUint32, Uint64_PutUint64.
Qed.

(** ** Segments *)

Lemma newSegment_fresh fs b c :
  names fs !! store_name b = None -> names fs !! index_name b = None ->
  0 < MaxIndexBytes c < 2 ^ 63 ->
  exists fs',
    newSegment fs b c = (fs', Some (fresh_segment (next_ino fs) b c), None) /\
    names fs' = <[index_name b := S (next_ino fs)]> (<[store_name b := next_ino fs]> (names fs)) /\
    next_ino fs' = S (S (next_ino fs)) /\
    (forall j, (j < next_ino fs)%nat -> contents fs' j = contents fs j) /\
    contents fs' (next_ino fs) = [] /\
    contents fs' (S (next_ino fs)) = replicate (Z.to_nat (MaxIndexBytes c)) "000"%byte.
Proof.
  intros Hs Hi Hc. unfold newSegment, os_OpenFile. rewrite Hs. cbv beta iota zeta.
  unfold newStore, os_Stat, File_Name. cbn [names f_name].
  rewrite lookup_insert_eq. unfold contents at 1. cbn [inodes]. rewrite lookup_insert_eq.
  cbn [names default]. rewrite lookup_insert_ne by apply store_index_name_ne. rewrite Hi.
  cbv beta iota zeta.
  unfold newIndex, os_Stat, File_Name. cbn [names f_name].
  rewrite lookup_insert_eq. cbn [next_ino names inodes].
  unfold os_Truncate. rewrite to_int64_small by lia.
  destruct (Z.ltb_spec (MaxIndexBytes c) 0); [lia|].
  cbn [names f_name]. rewrite lookup_insert_eq.
  unfold ftruncate. cbn [f_ino].
  match goal with |- context [set_contents ?f _ _] => set (fs2 := f) end.
  assert (Hnil : contents fs2 (S (next_ino fs)) = []).
  { unfold contents, fs2. cbn [inodes]. by rewrite lookup_insert_eq. }
  rewrite contents_set_contents_eq, Hnil, resize_nil.
  assert (Hlen : len (replicate (Z.to_nat (MaxIndexBytes c)) "000"%byte) = MaxIndexBytes c).
  { unfold len. rewrite length_replicate. lia. }
  rewrite Hlen.
  destruct (Z.eqb_spec (MaxIndexBytes c) 0); [lia|].
  rewrite index_Read_empty by done.
  eexists. split; [reflexivity|]. split_and!; try done.
  - intros j Hj. rewrite contents_set_contents_ne by lia.
    unfold contents, fs2. cbn [inodes]. rewrite !lookup_insert_ne by lia. done.
  - rewrite contents_set_contents_ne by lia.
    unfold contents, fs2. cbn [inodes].
    rewrite lookup_insert_ne by lia. by rewrite lookup_insert_eq.
  - apply contents_set_contents_eq.
Qed.

Lemma index_Write_cases fs i off pos :
  match (index_Write fs i off pos).2 with
  | None =>
      i_size (index_Write fs i off pos).1.2 = wrap64 (i_size i + endWidth) /\
      i_size i + endWidth <= i_mlen i /\
      wrap64 (i_size i + endWidth) <= i_mlen i /\
      frame (f_ino (i_file i)) fs (index_Write fs i off pos).1.1
  | Some _ => (index_Write fs i off pos).1 = (fs, i)
  end.
Proof.
  unfold index_Write.
  destruct (Z.ltb_spec (i_mlen i) (wrap64 (i_size i + endWidth))); [done|].
  destruct (Z.ltb_spec (i_mlen i) (i_size i + endWidth)); [done|].
  destruct (_ <? _); [done|]. cbn. split_and!; try done. apply frame_set_contents.
Qed.

Section Shape.

Context `{Codec}.

(** ** What [segment.Append] does to the bookkeeping *)

Lemma segment_Append_gen fs s r :
  let res := segment_Append fs s r in
  same_names fs res.1.1.1 /\
  res.1.2 = set_Offset r (nextOffset s) /\
  baseOffset res.1.1.2 = baseOffset s /\
  config res.1.1.2 = config s /\
  st_file (store res.1.1.2) = st_file (store s) /\
  i_file (index_ res.1.1.2) = i_file (index_ s) /\
  i_mlen (index_ res.1.1.2) = i_mlen (index_ s) /\
  ((res.2.2 = None /\ res.2.1 = nextOffset s /\
    nextOffset res.1.1.2 = wrap64 (nextOffset s + 1) /\
    i_size (index_ res.1.1.2) = wrap64 (i_size (index_ s) + endWidth) /\
    i_size (index_ s) + endWidth <= i_mlen (index_ s))
   \/ (res.2.2 <> None /\ res.2.1 = 0 /\ nextOffset res.1.1.2 = nextOffset s /\
       index_ res.1.1.2 = index_ s)).
Proof.
  unfold segment_Append.
  destruct (Marshal (set_Offset r (nextOffset s))) as [p|]; last first.
  { cbn. split_and!; try done. right. done. }
  pose proof (Store_Append_same fs (store s) p) as [Hn Hf].
  destruct (Store_Append fs (store s) p) as [[fs1 st] [[n pos] [e|]]]; cbn in Hn, Hf.
  { cbn. split_and!; try done. by right. }
  set (s1 := set_store s st).
  pose proof (index_Write_same fs1 (index_ s1)
                (wrap32 (wrap64 (nextOffset s1 - baseOffset s1))) pos) as (Hn2 & Hf2 & Hm2).
  pose proof (index_Write_cases fs1 (index_ s1)
                (wrap32 (wrap64 (nextOffset s1 - baseOffset s1))) pos) as Hc.
  destruct (index_Write fs1 (index_ s1) _ pos) as [[fs2 i] [e|]]; cbn in *.
  - inversion Hc; subst. split_and!; try done. by right.
  - destruct Hc as (Hsz & Hle & _). split_and!; try done.
    + by eapply same_names_trans.
    + left. split_and!; done.
Qed.

Lemma segment_Append_shape c fs s r :
  seg_shape c s -> nextOffset s < MaxUint64 -> MaxIndexBytes c < 2 ^ 63 ->
  seg_shape c (segment_Append fs s r).1.1.2.
Proof.
  intros [Hc Hb Hn Hsn Hin Hm Hs Hle] Hmax Hlt.
  pose proof (segment_Append_gen fs s r) as (_ & _ & Hb' & Hc' & Hsf & Hif & Hml & Hcase).
  cbn zeta in *. unfold MaxUint64, endWidth, offWidth, posWidth in *.
  destruct Hcase as [(_ & _ & Hn' & Hs' & Hroom)|(_ & _ & Hn' & Hi')].
  - rewrite wrap64_small in Hn' by lia. rewrite wrap64_small in Hs' by lia.
    split; rewrite ?Hb', ?Hn', ?Hs', ?Hsf, ?Hif, ?Hml; try done; try lia; try congruence.
    unfold endWidth, offWidth, posWidth. lia.
  - split; rewrite ?Hb', ?Hn', ?Hi', ?Hsf, ?Hif; try done; congruence.
Qed.

Lemma seg_live_store_open fs s : seg_live fs s -> store_open (store s).
Proof. intros []. by split. Qed.

Lemma segment_Append_live fs s r :
  seg_live fs s -> seg_live (segment_Append fs s r).1.1.1 (segment_Append fs s r).1.1.2.
Proof.
  intros Hl.
  pose proof (segment_Append_gen fs s r) as ([Hn _] & _ & Hb' & _ & Hsf & Hif & _).
  cbn zeta in *.
  assert (Hso : store_open (store (segment_Append fs s r).1.1.2)).
  { unfold segment_Append.
    destruct (Marshal (set_Offset r (nextOffset s))) as [p|];
      [|by apply seg_live_store_open in Hl].
    destruct (Store_Append_open fs (store s) p (seg_live_store_open _ _ Hl))
      as (fs1 & st & -> & Hso & _).
    by destruct (index_Write fs1 _ _ _) as [[fs2 i] [e|]]. }
  destruct Hl, Hso. split; rewrite ?Hn, ?Hb', ?Hsf, ?Hif; done.
Qed.

(** ** Lists of segments *)

Lemma set_last_snoc {A} (pre : list A) (a x : A) : set_last (pre ++ [a]) x = pre ++ [x].
Proof.
  unfold set_last. destruct (pre ++ [a]) eqn:E.
  - by destruct pre.
  - rewrite <- E. by rewrite removelast_last.
Qed.

Lemma chain_cons2 s s' rest :
  chain (s :: s' :: rest) <->
  baseOffset s < nextOffset s /\ nextOffset s = baseOffset s' /\ chain (s' :: rest).
Proof. done. Qed.

Lemma chain_offsets l1 l2 : offsets <$> l1 = offsets <$> l2 -> chain l1 -> chain l2.
Proof.
  revert l2. induction l1 as [|a l1 IH]; intros [|b l2] E; try done.
  destruct l1 as [|a' l1], l2 as [|b' l2]; try done.
  rewrite !chain_cons2. injection E as E1 E2 E3 E4 E5.
  intros (? & ? & ?). split_and!; try congruence.
  apply IH; [|done]. cbn. f_equal; [|exact E5]. unfold offsets. congruence.
Qed.

Lemma chain_snoc_replace pre a a' :
  offsets a' = offsets a -> chain (pre ++ [a]) -> chain (pre ++ [a']).
Proof.
  intros E. apply chain_offsets. rewrite !fmap_app. cbn. by rewrite E.
Qed.

Lemma chain_app_r l1 l2 : chain (l1 ++ l2) -> chain l2.
Proof.
  induction l1 as [|a l1 IH]; [done|]. intros Hc. apply IH.
  destruct (l1 ++ l2) eqn:E; [done|]. cbn in Hc. rewrite E in Hc.
  by destruct Hc as (_ & _ & ?).
Qed.

Lemma chain_snoc_add pre a b :
  chain (pre ++ [a]) -> baseOffset a < nextOffset a -> nextOffset a = baseOffset b ->
  chain ((pre ++ [a]) ++ [b]).
Proof.
  intros Hc Hlt Hn. induction pre as [|x pre IH]; [done|].
  cbn in *. destruct (pre ++ [a]) as [|y rest] eqn:E; [by destruct pre|].
  cbn. destruct Hc as (? & ? & ?). split_and!; try done. by apply IH.
Qed.

(** In a chain, every segment before the last one ends at or before the
    base of the last one. *)
Lemma chain_before_last pre a x :
  chain (pre ++ [a]) -> x ∈ pre ->
  baseOffset x < nextOffset x /\ nextOffset x <= baseOffset a.
Proof.
  revert x. induction pre as [|y pre IH]; [by intros x _ ?%elem_of_nil|].
  intros x Hc Hx. cbn in Hc.
  destruct (pre ++ [a]) as [|z rest] eqn:E; [by destruct pre|].
  destruct Hc as (Hlt & Hn & Hc).
  assert (Hz : baseOffset z <= baseOffset a).
  { destruct pre as [|z' pre'].
    - cbn in E. injection E as -> _. lia.
    - cbn in E. injection E as -> _.
      destruct (IH z Hc (list_elem_of_here _ _)). lia. }
  apply elem_of_cons in Hx as [->|Hx].
  - split; [done|lia].
  - by apply IH.
Qed.

Lemma owned_ext fs fs' segs segs' :
  names fs' = names fs -> baseOffset <$> segs' = baseOffset <$> segs ->
  owned fs segs -> owned fs' segs'.
Proof.
  intros Hn Hb Ho name. rewrite Hn, (Ho name).
  assert (Hiff : forall b, (exists s, s ∈ segs /\ baseOffset s = b) <->
                           (exists s, s ∈ segs' /\ baseOffset s = b)).
  { intros b. transitivity (b ∈ baseOffset <$> segs).
    - rewrite list_elem_of_fmap. split; intros (s & ? & ?); exists s; done.
    - rewrite <- Hb, list_elem_of_fmap. split; intros (s & ? & ?); exists s; done. }
  split.
  - intros (s & Hs & Hname).
    destruct (proj1 (Hiff (baseOffset s))) as (s' & Hs' & E'); [by exists s|].
    exists s'. by rewrite E'.
  - intros (s & Hs & Hname).
    destruct (proj2 (Hiff (baseOffset s))) as (s' & Hs' & E'); [by exists s|].
    exists s'. by rewrite E'.
Qed.

Lemma seg_live_same_names fs fs' s : same_names fs fs' -> seg_live fs s -> seg_live fs' s.
Proof. intros [Hn _] []. split; rewrite ?Hn; done. Qed.

Lemma seg_shape_uint64 c s : seg_shape c s -> uint64 (baseOffset s).
Proof. intros []. unfold uint64. lia. Qed.

(** ** Rolling over to a new segment *)

Lemma fresh_segment_shape n0 b c :
  uint64 b -> 0 < MaxIndexBytes c -> seg_shape c (fresh_segment n0 b c).
Proof.
  intros [? ?] ?. split; cbn; unfold endWidth, offWidth, posWidth; try done; lia.
Qed.

Lemma fs_ok_create2 fs fs' n1 n2 :
  fs_ok fs -> names fs !! n1 = None -> names fs !! n2 = None -> n1 <> n2 ->
  names fs' = <[n2 := S (next_ino fs)]> (<[n1 := next_ino fs]> (names fs)) ->
  next_ino fs' = S (S (next_ino fs)) ->
  fs_ok fs'.
Proof.
  intros [Hb Hj] H1 H2 Hne Hn Hi. split.
  - intros name i. rewrite Hn, Hi.
    rewrite lookup_insert. destruct (decide (n2 = name)); [intros [= <-]; lia|].
    rewrite lookup_insert. destruct (decide (n1 = name)); [intros [= <-]; lia|].
    intros Hl%Hb. lia.
  - intros a b i. rewrite Hn. rewrite !lookup_insert_Some.
    intros [[<- <-]|[? [[<- <-]|[? Ha]]]] [[<- E]|[? [[<- E]|[? Hb']]]];
      try done; try lia.
    + apply Hb in Hb'. lia.
    + apply Hb in Hb'. lia.
    + apply Hb in Ha. lia.
    + apply Hb in Ha. lia.
    + by eapply Hj.
Qed.

Lemma not_named fs segs c b :
  owned fs segs -> Forall (seg_shape c) segs -> uint64 b ->
  (forall x, x ∈ segs -> baseOffset x <> b) ->
  names fs !! store_name b = None /\ names fs !! index_name b = None.
Proof.
  intros Ho Hsh Hb Hne. rewrite Forall_forall in Hsh. split.
  - destruct (names fs !! store_name b) eqn:E; [|done]. exfalso.
    destruct (proj1 (Ho (store_name b))) as (s & Hs & [Hx|Hx]); [by eexists| |].
    + apply store_name_inj in Hx; [|done|by eapply seg_shape_uint64, Hsh].
      by apply (Hne s).
    + by apply store_index_name_ne in Hx.
  - destruct (names fs !! index_name b) eqn:E; [|done]. exfalso.
    destruct (proj1 (Ho (index_name b))) as (s & Hs & [Hx|Hx]); [by eexists| |].
    + symmetry in Hx. by apply store_index_name_ne in Hx.
    + apply index_name_inj in Hx; [|done|by eapply seg_shape_uint64, Hsh].
      by apply (Hne s).
Qed.

Lemma Log_newSegment_shape c fs l b :
  l_Config l = c -> fs_ok fs -> 0 < MaxIndexBytes c < 2 ^ 63 -> uint64 b ->
  Forall (seg_shape c) (segments l) -> Forall (seg_live fs) (segments l) ->
  owned fs (segments l) -> chain (segments l) ->
  (forall x, x ∈ segments l -> baseOffset x < b) ->
  (forall a, last (segments l) = Some a ->
             baseOffset a < nextOffset a /\ nextOffset a = b) ->
  exists fs',
    Log_newSegment fs l b =
      (fs', {| l_Config := c;
               segments := segments l ++ [fresh_segment (next_ino fs) b c];
               orphan := None |}, None) /\
    log_shape c fs' {| l_Config := c;
                       segments := segments l ++ [fresh_segment (next_ino fs) b c];
                       orphan := None |} /\
    (forall j, (j < next_ino fs)%nat -> contents fs' j = contents fs j) /\
    contents fs' (next_ino fs) = [] /\
    len (contents fs' (S (next_ino fs))) = MaxIndexBytes c.
Proof.
  intros Hc Hfs Hcfg Hb Hsh Hlv Ho Hch Hlt Hlast.
  destruct (not_named fs (segments l) c b) as [Hs Hi]; try done.
  { intros x Hx%Hlt. lia. }
  destruct (newSegment_fresh fs b c Hs Hi Hcfg) as (fs' & E & Hn & Hino & Hold & Hnew1 & Hnew2).
  exists fs'. unfold Log_newSegment. rewrite Hc, E. split; [done|].
  split; [|split_and!; try done; rewrite Hnew2; unfold len; rewrite length_replicate; lia].
  assert (Hold_names : forall x, x ∈ segments l ->
            names fs' !! store_name (baseOffset x) = names fs !! store_name (baseOffset x) /\
            names fs' !! index_name (baseOffset x) = names fs !! index_name (baseOffset x)).
  { intros x Hx. rewrite Forall_forall in Hsh.
    pose proof (seg_shape_uint64 _ _ (Hsh x Hx)) as Hu. specialize (Hlt x Hx).
    rewrite Hn. split.
    - rewrite lookup_insert_ne by (intros E'; symmetry in E'; by apply store_index_name_ne in E').
      rewrite lookup_insert_ne; [done|]. intros E'%store_name_inj; [lia|done..].
    - rewrite lookup_insert_ne by (intros E'%index_name_inj; [lia|done..]).
      rewrite lookup_insert_ne; [done|]. apply store_index_name_ne. }
  split; cbn [l_Config segments orphan].
  - done.
  - done.
  - apply (fs_ok_create2 fs fs' (store_name b) (index_name b)); try done.
    apply store_index_name_ne.
  - apply Forall_app. split; [done|]. constructor; [|done].
    apply fresh_segment_shape; [done|lia].
  - apply Forall_app. split.
    + rewrite Forall_forall in Hlv |- *. intros x Hx.
      destruct (Hlv x Hx), (Hold_names x Hx) as [E1 E2].
      split; rewrite ?E1, ?E2; done.
    + constructor; [|done]. split; cbn; try done.
      * rewrite Hn.
        rewrite lookup_insert_ne by (apply not_eq_sym, store_index_name_ne).
        by rewrite lookup_insert_eq.
      * rewrite Hn. by rewrite lookup_insert_eq.
  - destruct (segments l) as [|x0 rest0] eqn:Esegs using rev_ind; [done|].
    clear IHrest0. destruct (Hlast x0) as [? ?]; [by rewrite last_snoc|].
    by apply chain_snoc_add.
  - intros name. rewrite Hn. rewrite !lookup_insert_is_Some. rewrite (Ho name). split.
    + intros [<-|[_ [<-|[_ (s & Hs' & Hname)]]]].
      * eexists. split; [apply elem_of_app; right; apply list_elem_of_here|]. by right.
      * eexists. split; [apply elem_of_app; right; apply list_elem_of_here|]. by left.
      * exists s. split; [apply elem_of_app; by left|done].
    + intros (s & [Hs'|Hs']%elem_of_app & Hname).
      * destruct (decide (index_name b = name)); [by left|right; split; [done|]].
        destruct (decide (store_name b = name)); [by left|right; split; [done|]].
        by exists s.
      * apply list_elem_of_singleton in Hs' as ->. cbn in Hname.
        destruct Hname as [-> | ->]; [|by left].
        right. split; [apply not_eq_sym, store_index_name_ne|by left].
  - exists (fresh_segment (next_ino fs) b c). rewrite last_snoc. split; [done|]. cbn. lia.
Qed.

(** ** [Log.Append] keeps the bookkeeping *)


Lemma segment_Append_orphan_err fs s r :
  st_err (store s) = None \/ st_err (store s) = Some ErrClosed ->
  st_err (store (segment_Append fs s r).1.1.2) = None \/
  st_err (store (segment_Append fs s r).1.1.2) = Some ErrClosed.
Proof.
  intros Hs. unfold segment_Append.
  destruct (Marshal (set_Offset r (nextOffset s))) as [p|]; [|done].
  pose proof (Store_Append_err fs (store s) p) as [Hc _].
  destruct (Store_Append fs (store s) p) as [[fs1 st] [[n pos] [e1|]]]; cbn in Hc.
  { cbn. destruct Hc as [-> | ->]; auto. }
  destruct (index_Write fs1 _ _ _) as [[fs2 i] [e|]]; cbn;
    destruct Hc as [-> | ->]; auto.
Qed.

Lemma IsMaxed_false_index c s :
  config s = c -> IsMaxed s = false -> i_size (index_ s) < MaxIndexBytes c.
Proof.
  unfold IsMaxed. intros -> [_ Hi]%orb_false_elim. by apply Z.leb_gt in Hi.
Qed.

Lemma chain_snoc_base pre a a' :
  baseOffset a' = baseOffset a -> chain (pre ++ [a]) -> chain (pre ++ [a']).
Proof.
  intros E. induction pre as [|x pre IH]; [done|].
  cbn. destruct (pre ++ [a]) as [|y rest] eqn:E1; [by destruct pre|].
  destruct (pre ++ [a']) as [|y' rest'] eqn:E2; [by destruct pre|].
  intros (? & ? & ?). split_and!; try done; [|by apply IH].
  destruct pre; cbn in *; congruence.
Qed.

Lemma shape_update_last c fs fs1 cfg pre a a1 :
  log_shape c fs {| l_Config := cfg; segments := pre ++ [a]; orphan := None |} ->
  same_names fs fs1 -> seg_shape c a1 -> seg_live fs1 a1 ->
  baseOffset a1 = baseOffset a -> i_size (index_ a1) < MaxIndexBytes c ->
  log_shape c fs1 {| l_Config := cfg; segments := pre ++ [a1]; orphan := None |}.
Proof.
  intros [Hc Hcfg Hfs Hsh Hlv Hch Ho Hact] Hn Ha1 Hl1 Hb Hsz. cbn in *.
  apply Forall_app in Hsh as [Hsh_pre _]. apply Forall_app in Hlv as [Hlv_pre _].
  split; cbn; try done.
  - by eapply fs_ok_same_names.
  - apply Forall_app. split; [done|]. by apply Forall_singleton.
  - apply Forall_app. split; [|by apply Forall_singleton].
    eapply Forall_impl; [exact Hlv_pre|]. intros x. by apply seg_live_same_names.
  - by eapply chain_snoc_base.
  - eapply owned_ext; [apply Hn| |done]. rewrite !fmap_app. cbn. by rewrite Hb.
  - exists a1. by rewrite last_snoc.
Qed.

Lemma shape_update_orphan c fs fs1 cfg d d1 :
  log_shape c fs {| l_Config := cfg; segments := []; orphan := Some d |} ->
  same_names fs fs1 -> seg_shape c d1 -> i_size (index_ d1) < MaxIndexBytes c ->
  st_err (store d1) = None \/ st_err (store d1) = Some ErrClosed ->
  log_shape c fs1 {| l_Config := cfg; segments := []; orphan := Some d1 |}.
Proof.
  intros [Hc Hcfg Hfs Hsh Hlv Hch Ho Hact] Hn Hd1 Hsz He. cbn in *.
  split; cbn; try done.
  - by eapply fs_ok_same_names.
  - eapply owned_ext; [apply Hn|done|done].
Qed.

Lemma Log_Append_shape c fs l r fs' l' r' res :
  log_shape c fs l ->
  (forall a, activeSegment l = Some a -> nextOffset a < MaxUint64) ->
  Log_Append fs l r = (fs', l', r', res) ->
  exists a a',
    activeSegment l = Some a /\ log_shape c fs' l' /\ activeSegment l' = Some a' /\
    r' = set_Offset r (nextOffset a) /\
    ((res = (nextOffset a, None) /\ nextOffset a' = nextOffset a + 1)
     \/ (exists e, res = (0, Some e) /\ nextOffset a' = nextOffset a /\
                   (segment_Append fs a r).2.2 = Some e)).
Proof.
  intros Hshape Hmax. destruct l as [cfg segs orph].
  unfold Log_Append, activeSegment in *. cbn [orphan segments] in *.
  pose proof Hshape as [Hc Hcfg Hfs Hsh Hlv Hch Ho Hact]. cbn in Hc, Hsh, Hlv, Hch, Ho, Hact.
  destruct orph as [d|].
  - (* the active segment was dropped from the list by Truncate *)
    destruct Hact as (-> & Hd & Hsz & Herr). cbn.
    specialize (Hmax d eq_refl).
    pose proof (segment_Append_gen fs d r) as (Hn & Hr & Hb' & Hc' & Hsf & Hif & Hml & Hcase).
    pose proof (segment_Append_shape c fs d r Hd Hmax (proj2 Hcfg)) as Hd'.
    pose proof (segment_Append_orphan_err fs d r Herr) as Herr'.
    assert (Hw : wrap64 (nextOffset d + 1) = nextOffset d + 1)
      by (apply wrap64_small; destruct Hd; unfold MaxUint64 in *; lia).
    cbn zeta in *.
    destruct (segment_Append fs d r) as [[[fs1 d1] r1] [off [e|]]] eqn:Eapp; cbn in *.
    + destruct Hcase as [(? & _)|(_ & -> & Hn' & Hi')]; [done|].
      intros [= <- <- <- <-]. exists d, d1. split_and!; try done.
      * eapply shape_update_orphan; try done. by rewrite Hi'.
      * right. exists e. by rewrite Eapp.
    + destruct Hcase as [(_ & -> & Hn' & Hs' & Hroom)|(? & _)]; [|done].
      rewrite Hw in *.
      destruct (IsMaxed d1) eqn:Emax.
      * destruct (Log_newSegment_shape c fs1
                    {| l_Config := cfg; segments := []; orphan := Some d1 |}
                    (nextOffset d + 1))
          as (fs2 & E2 & Hshape2 & _); cbn; try done.
        { by eapply fs_ok_same_names. }
        { destruct Hd; unfold uint64, MaxUint64 in *; lia. }
        { eapply owned_ext; [apply Hn|done|done]. }
        { by intros x ?%elem_of_nil. }
        rewrite E2. intros [= <- <- <- <-].
        eexists d, _. split_and!; try done. by left.
      * intros [= <- <- <- <-]. exists d, d1. split_and!; try done; [|by left].
        eapply shape_update_orphan; try done.
        eapply IsMaxed_false_index; [|done]. by destruct Hd'.
  - (* the active segment is the last of the list *)
    destruct Hact as (a & Hlast & Hsz).
    apply last_Some in Hlast as [pre ->]. rewrite last_snoc in *.
    specialize (Hmax a eq_refl).
    apply Forall_app in Hsh as [Hsh_pre Hsh_a]. apply Forall_inv in Hsh_a.
    apply Forall_app in Hlv as [Hlv_pre Hlv_a]. apply Forall_inv in Hlv_a.
    pose proof (segment_Append_gen fs a r) as (Hn & Hr & Hb' & Hc' & Hsf & Hif & Hml & Hcase).
    pose proof (segment_Append_shape c fs a r Hsh_a Hmax (proj2 Hcfg)) as Ha'.
    pose proof (segment_Append_live fs a r Hlv_a) as Hlv_a'.
    assert (Hw : wrap64 (nextOffset a + 1) = nextOffset a + 1)
      by (apply wrap64_small; destruct Hsh_a; unfold MaxUint64 in *; lia).
    cbn zeta in *.
    destruct (segment_Append fs a r) as [[[fs1 a1] r1] [off [e|]]] eqn:Eapp; cbn in *.
    + destruct Hcase as [(? & _)|(_ & -> & Hn' & Hi')]; [done|].
      unfold set_active. cbn. rewrite set_last_snoc.
      intros [= <- <- <- <-]. exists a, a1. cbn. rewrite last_snoc.
      split_and!; try done; [|right; exists e; by rewrite Eapp].
      eapply shape_update_last; try done. by rewrite Hi'.
    + destruct Hcase as [(_ & -> & Hn' & Hs' & Hroom)|(? & _)]; [|done].
      rewrite Hw in *. unfold set_active. cbn. rewrite set_last_snoc.
      destruct (IsMaxed a1) eqn:Emax.
      * assert (Hlt_a : baseOffset a1 < nextOffset a1)
          by (destruct Hsh_a; lia).
        destruct (Log_newSegment_shape c fs1
                    {| l_Config := cfg; segments := pre ++ [a1]; orphan := None |}
                    (nextOffset a + 1))
          as (fs2 & E2 & Hshape2 & _); cbn; try done.
        { by eapply fs_ok_same_names. }
        { destruct Hsh_a; unfold uint64, MaxUint64 in *; lia. }
        { apply Forall_app. split; [done|]. by apply Forall_singleton. }
        { apply Forall_app. split; [|by apply Forall_singleton].
          eapply Forall_impl; [exact Hlv_pre|]. intros x. by apply seg_live_same_names. }
        { eapply owned_ext; [apply Hn| |done]. rewrite !fmap_app. cbn. by rewrite Hb'. }
        { by eapply chain_snoc_base. }
        { intros x [Hx|Hx]%elem_of_app.
          - destruct (chain_before_last pre a x Hch Hx). destruct Hsh_a. lia.
          - apply list_elem_of_singleton in Hx as ->. lia. }
        { intros a0. rewrite last_snoc. intros [= <-]. lia. }
        rewrite E2. intros [= <- <- <- <-].
        eexists a, _. cbn. rewrite last_snoc. split_and!; try done. by left.
      * intros [= <- <- <- <-]. exists a, a1. cbn. rewrite last_snoc.
        split_and!; try done; [|by left].
        eapply shape_update_last; try done.
        eapply IsMaxed_false_index; [|done]. by destruct Ha'.
Qed.

(** ** [Log.Read] keeps the bookkeeping *)

Lemma Store_Read_keeps_open fs s pos :
  store_open s -> store_open (Store_Read fs s pos).1.2.
Proof.
  intros Hs. unfold Store_Read.
  destruct (buf_Flush_open fs s Hs) as (fs1 & s1 & -> & Hs1 & _).
  destruct (File_ReadAt fs1 (st_file s1) lenWidth _) as [d [e|]]; [done|].
  destruct (File_ReadAt fs1 (st_file s1) (Uint64 d) _) as [d2 [e|]]; done.
Qed.

Lemma segment_Read_gen fs s off :
  same_names fs (segment_Read fs s off).1.1 /\
  exists st,
    (segment_Read fs s off).1.2 = set_store s st /\
    st_file st = st_file (store s) /\ st_size st = st_size (store s) /\
    (store_open (store s) -> store_open st).
Proof.
  unfold segment_Read.
  destruct (index_Read fs (index_ s) _) as [[out pos] [e|]].
  { cbn. split; [done|]. exists (store s). by destruct s. }
  pose proof (Store_Read_same fs (store s) pos) as (Hn & Hf & Hsz).
  pose proof (Store_Read_keeps_open fs (store s) pos) as Ho.
  destruct (Store_Read fs (store s) pos) as [[fs1 st] [[p|] [e|]]]; cbn in *;
    try (split; [done|]; by exists st).
  destruct (Unmarshal p); cbn; (split; [done|]; by exists st).
Qed.

Lemma seg_shape_set_store c s st :
  st_file st = st_file (store s) -> seg_shape c s -> seg_shape c (set_store s st).
Proof. intros Hf []. split; cbn; rewrite ?Hf; done. Qed.

Lemma seg_live_set_store fs fs' s st :
  same_names fs fs' -> st_file st = st_file (store s) -> store_open st ->
  seg_live fs s -> seg_live fs' (set_store s st).
Proof. intros [Hn _] Hf [] []. split; cbn; rewrite ?Hn, ?Hf; done. Qed.

Lemma Log_Read_shape c fs l off fs' l' res :
  log_shape c fs l -> Log_Read fs l off = (fs', l', res) ->
  log_shape c fs' l' /\ same_names fs fs' /\
  offsets <$> segments l' = offsets <$> segments l /\
  index_ <$> segments l' = index_ <$> segments l /\
  orphan l' = orphan l /\ l_Config l' = l_Config l.
Proof.
  intros Hshape. unfold Log_Read.
  destruct (list_find (in_segment off) (segments l)) as [[i s]|] eqn:Ef;
    [|intros [= <- <- <-]; done].
  destruct (nextOffset s <=? off); [intros [= <- <- <-]; done|].
  apply list_find_Some in Ef as (Hi & _ & _).
  pose proof (segment_Read_gen fs s off) as (Hn & st & Es & Hf & Hsz & Hopen).
  destruct (segment_Read fs s off) as [[fs1 s1] r]. cbn in Hn, Es. subst s1.
  intros [= <- <- <-].
  destruct Hshape as [Hc Hcfg Hfs Hsh Hlv Hch Ho Hact].
  assert (Hoff : offsets <$> <[i:=set_store s st]> (segments l) = offsets <$> segments l).
  { rewrite list_fmap_insert. apply list_insert_id. by rewrite list_lookup_fmap, Hi. }
  assert (Hidx : index_ <$> <[i:=set_store s st]> (segments l) = index_ <$> segments l).
  { rewrite list_fmap_insert. apply list_insert_id. by rewrite list_lookup_fmap, Hi. }
  assert (Hbase : baseOffset <$> <[i:=set_store s st]> (segments l)
                  = baseOffset <$> segments l).
  { rewrite list_fmap_insert. apply list_insert_id. by rewrite list_lookup_fmap, Hi. }
  split_and!; try done. split; cbn; try done.
  - by eapply fs_ok_same_names.
  - apply Forall_insert; [done|]. apply seg_shape_set_store; [done|].
    by eapply Forall_lookup_1 in Hsh.
  - apply Forall_insert.
    + eapply Forall_impl; [exact Hlv|]. intros x. by apply seg_live_same_names.
    + eapply Forall_lookup_1 in Hlv; [|done].
      apply (seg_live_set_store fs); try done.
      by eapply Hopen, seg_live_store_open.
  - eapply chain_offsets; [|done]. by rewrite Hoff.
  - eapply owned_ext; [apply Hn|done|done].
  - destruct (orphan l) as [d|].
    + destruct Hact as (Hnil & _). by rewrite Hnil in Hi.
    + destruct Hact as (a & Hlast & Hsz').
      assert (Hl : last (index_ <$> <[i:=set_store s st]> (segments l)) = Some (index_ a))
        by (by rewrite Hidx, fmap_last, Hlast).
      rewrite fmap_last in Hl.
      destruct (last (<[i:=set_store s st]> (segments l))) as [a'|]; [|done].
      injection Hl as Hl. exists a'. by rewrite Hl.
Qed.

(** ** [NewLog] over an empty directory *)

Lemma Config_defaults_Initial c : InitialOffset (Config_defaults c) = InitialOffset c.
Proof.
  unfold Config_defaults. destruct (MaxStoreBytes c =? 0); cbn;
    destruct (MaxIndexBytes c =? 0); done.
Qed.

Lemma Config_defaults_index c :
  MaxIndexBytes (Config_defaults c) = if MaxIndexBytes c =? 0 then 1024 else MaxIndexBytes c.
Proof.
  unfold Config_defaults. destruct (MaxStoreBytes c =? 0); cbn;
    destruct (MaxIndexBytes c =? 0); done.
Qed.

Lemma fs_ok_empty : fs_ok emptyFS.
Proof. split; intros *; cbn; by rewrite lookup_empty. Qed.

Lemma owned_empty : owned emptyFS [].
Proof.
  intros name. cbn. rewrite lookup_empty. split; [by intros [? ?]|].
  by intros (s & ?%elem_of_nil & _).
Qed.

Lemma NewLog_empty c :
  uint64 (InitialOffset c) -> 0 < MaxIndexBytes (Config_defaults c) < 2 ^ 63 ->
  exists fs,
    NewLog emptyFS c =
      (fs, {| l_Config := Config_defaults c;
              segments := [fresh_segment 0 (InitialOffset c) (Config_defaults c)];
              orphan := None |}, None) /\
    log_shape (Config_defaults c) fs
      {| l_Config := Config_defaults c;
         segments := [fresh_segment 0 (InitialOffset c) (Config_defaults c)];
         orphan := None |} /\
    contents fs 0%nat = [] /\
    len (contents fs 1%nat) = MaxIndexBytes (Config_defaults c).
Proof.
  intros Hi Hc. unfold NewLog, Log_setup, os_ReadDir. cbn [names emptyFS].
  rewrite map_to_list_empty. cbn [fmap list_fmap].
  replace (merge_sort Z.le (map parse_baseOffset [])) with (@nil Z) by reflexivity.
  cbn [setup_loop segments l_Config].
  rewrite Config_defaults_Initial.
  destruct (Log_newSegment_shape (Config_defaults c) emptyFS
              {| l_Config := Config_defaults c; segments := []; orphan := None |}
              (InitialOffset c))
    as (fs & E & Hshape & _ & H0 & H1); cbn;
    try done; try apply fs_ok_empty; try apply owned_empty.
  - by intros x ?%elem_of_nil.
  - exists fs. by rewrite E.
Qed.

Lemma Log_Append_step c fs l r fs' l' r' res :
  log_shape c fs l ->
  (forall a, activeSegment l = Some a -> nextOffset a < MaxUint64) ->
  Log_Append fs l r = (fs', l', r', res) ->
  exists a, activeSegment l = Some a /\ append_step c fs l r fs' l' r' res a.
Proof.
  intros Hshape Hmax. destruct l as [cfg segs orph].
  unfold Log_Append, activeSegment, append_step in *. cbn [orphan segments] in *.
  pose proof Hshape as [Hc Hcfg Hfs Hsh Hlv Hch Ho Hact]. cbn in Hc, Hsh, Hlv, Hch, Ho, Hact.
  destruct orph as [d|].
  - destruct Hact as (-> & Hd & Hsz & Herr). cbn.
    specialize (Hmax d eq_refl).
    pose proof (segment_Append_gen fs d r) as (Hn & Hr & Hb' & Hc' & Hsf & Hif & Hml & Hcase).
    pose proof (segment_Append_shape c fs d r Hd Hmax (proj2 Hcfg)) as Hd'.
    assert (Hw : wrap64 (nextOffset d + 1) = nextOffset d + 1)
      by (apply wrap64_small; destruct Hd; unfold MaxUint64 in *; lia).
    cbn zeta in *.
    destruct (segment_Append fs d r) as [[[fs1 d1] r1] [off [e|]]] eqn:Eapp; cbn in *.
    + intros [= <- <- <- <-]. exists d. split; [done|]. eexists _, _, _. split; [done|]. split; [done|].
      by left.
    + destruct Hcase as [(_ & -> & Hn' & Hs' & Hroom)|(? & _)]; [|done].
      rewrite Hw in *.
      destruct (IsMaxed d1) eqn:Emax.
      * destruct (Log_newSegment_shape c fs1
                    {| l_Config := cfg; segments := []; orphan := Some d1 |}
                    (nextOffset d + 1))
          as (fs2 & E2 & _ & Hfr); cbn; try done.
        { by eapply fs_ok_same_names. }
        { destruct Hd; unfold uint64, MaxUint64 in *; lia. }
        { eapply owned_ext; [apply Hn|done|done]. }
        { by intros x ?%elem_of_nil. }
        rewrite E2. intros [= <- <- <- <-].
        exists d. split; [done|]. eexists _, _, _. split; [done|]. split; [done|]. right.
        destruct Hfr as (? & ? & ?). split_and!; done.
      * intros [= <- <- <- <-]. exists d. split; [done|]. eexists _, _, _. split; [done|]. split; [done|].
        by left.
  - destruct Hact as (a & Hlast & Hsz).
    apply last_Some in Hlast as [pre ->]. rewrite last_snoc in *.
    specialize (Hmax a eq_refl).
    apply Forall_app in Hsh as [Hsh_pre Hsh_a]. apply Forall_inv in Hsh_a.
    apply Forall_app in Hlv as [Hlv_pre Hlv_a]. apply Forall_inv in Hlv_a.
    pose proof (segment_Append_gen fs a r) as (Hn & Hr & Hb' & Hc' & Hsf & Hif & Hml & Hcase).
    pose proof (segment_Append_shape c fs a r Hsh_a Hmax (proj2 Hcfg)) as Ha'.
    pose proof (segment_Append_live fs a r Hlv_a) as Hlv_a'.
    assert (Hw : wrap64 (nextOffset a + 1) = nextOffset a + 1)
      by (apply wrap64_small; destruct Hsh_a; unfold MaxUint64 in *; lia).
    cbn zeta in *.
    destruct (segment_Append fs a r) as [[[fs1 a1] r1] [off [e|]]] eqn:Eapp; cbn in *.
    + intros [= <- <- <- <-]. exists a. split; [done|]. eexists _, _, _. split; [done|]. split; [done|].
      by left.
    + destruct Hcase as [(_ & -> & Hn' & Hs' & Hroom)|(? & _)]; [|done].
      rewrite Hw in *. unfold set_active. cbn. rewrite set_last_snoc.
      destruct (IsMaxed a1) eqn:Emax.
      * assert (Hlt_a : baseOffset a1 < nextOffset a1)
          by (destruct Hsh_a; lia).
        destruct (Log_newSegment_shape c fs1
                    {| l_Config := cfg; segments := pre ++ [a1]; orphan := None |}
                    (nextOffset a + 1))
          as (fs2 & E2 & _ & Hfr); cbn; try done.
        { by eapply fs_ok_same_names. }
        { destruct Hsh_a; unfold uint64, MaxUint64 in *; lia. }
        { apply Forall_app. split; [done|]. by apply Forall_singleton. }
        { apply Forall_app. split; [|by apply Forall_singleton].
          eapply Forall_impl; [exact Hlv_pre|]. intros x. by apply seg_live_same_names. }
        { eapply owned_ext; [apply Hn| |done]. rewrite !fmap_app. cbn. by rewrite Hb'. }
        { by eapply chain_snoc_base. }
        { intros x [Hx|Hx]%elem_of_app.
          - destruct (chain_before_last pre a x Hch Hx). destruct Hsh_a. lia.
          - apply list_elem_of_singleton in Hx as ->. lia. }
        { intros a0. rewrite last_snoc. intros [= <-]. lia. }
        rewrite E2. intros [= <- <- <- <-].
        exists a. split; [done|]. eexists _, _, _. split; [done|]. split; [done|]. right.
        destruct Hfr as (? & ? & ?). split_and!; try done. by rewrite set_last_snoc.
      * intros [= <- <- <- <-]. exists a. split; [done|]. eexists _, _, _. split; [done|]. split; [done|].
        left. split; [done|]. unfold set_active. cbn. by rewrite ?set_last_snoc.
Qed.

Lemma newSegment_too_large fs b c :
  names fs !! store_name b = None -> names fs !! index_name b = None ->
  2 ^ 63 <= MaxIndexBytes c < 2 ^ 64 ->
  (newSegment fs b c).2 = Some ErrInvalid.
Proof.
  intros Hs Hi Hc. unfold newSegment, os_OpenFile. rewrite Hs. cbv beta iota zeta.
  unfold newStore, os_Stat, File_Name. cbn [names f_name].
  rewrite lookup_insert_eq.
  cbn [names]. rewrite lookup_insert_ne by apply store_index_name_ne. rewrite Hi.
  cbv beta iota zeta.
  unfold newIndex, os_Stat, File_Name. cbn [names f_name].
  rewrite lookup_insert_eq.
  unfold os_Truncate, to_int64.
  destruct (Z.ltb_spec (MaxIndexBytes c) (2 ^ 63)); [lia|].
  destruct (Z.ltb_spec (MaxIndexBytes c - 2 ^ 64) 0); [done|lia].
Qed.

Lemma NewLog_empty_cfg c fs l :
  uint64 (MaxIndexBytes c) -> NewLog emptyFS c = (fs, l, None) ->
  0 < MaxIndexBytes (Config_defaults c) < 2 ^ 63.
Proof.
  intros [Hlo Hhi] E.
  assert (Hpos : 0 < MaxIndexBytes (Config_defaults c) < 2 ^ 64).
  { rewrite Config_defaults_index. destruct (Z.eqb_spec (MaxIndexBytes c) 0); lia. }
  destruct (Z.ltb_spec (MaxIndexBytes (Config_defaults c)) (2 ^ 63)); [lia|].
  exfalso. revert E. unfold NewLog, Log_setup, os_ReadDir. cbn [names emptyFS].
  rewrite map_to_list_empty. cbn [fmap list_fmap].
  replace (merge_sort Z.le (map parse_baseOffset [])) with (@nil Z) by reflexivity.
  cbn [setup_loop segments l_Config]. unfold Log_newSegment. cbn [l_Config].
  pose proof (newSegment_too_large emptyFS (InitialOffset (Config_defaults c))
                (Config_defaults c)) as Hbig.
  destruct (newSegment emptyFS _ _) as [[fs1 o] e]. cbn in Hbig.
  rewrite Hbig by (rewrite ?lookup_empty; try done; lia). by destruct o.
Qed.

(** ** Offsets handed out by a run of appends *)

Lemma successes_cons_ok off outs : successes ((off, None) :: outs) = off :: successes outs.
Proof. done. Qed.

Lemma successes_cons_err off e outs : successes ((off, Some e) :: outs) = successes outs.
Proof. done. Qed.

Lemma append_all_offsets c records : forall fs l a,
  log_shape c fs l -> activeSegment l = Some a ->
  nextOffset a + len records < 2 ^ 64 ->
  successes (append_all fs l records).2 =
    (fun i => nextOffset a + Z.of_nat i) <$> seq 0 (length (successes (append_all fs l records).2)).
Proof.
  induction records as [|r rest IH]; intros fs l a Hshape Ha Hbound; [done|].
  cbn [append_all].
  destruct (Log_Append fs l r) as [[[fs1 l1] r1] res] eqn:E.
  destruct (Log_Append_shape c fs l r fs1 l1 r1 res Hshape) as (a0 & a' & Ha0 & Hshape1 & Ha' & _ & Hres);
    [|done|].
  { intros a1 Ha1. rewrite Ha in Ha1. injection Ha1 as <-.
    unfold MaxUint64, len in *. cbn [length] in Hbound. lia. }
  rewrite Ha in Ha0. injection Ha0 as <-.
  specialize (IH fs1 l1 a' Hshape1 Ha').
  destruct (append_all fs1 l1 rest) as [[fs2 l2] outs]. cbn [snd] in *.
  unfold len in *. cbn [length] in Hbound.
  destruct Hres as [[-> Hn]|(e & -> & Hn & _)].
  - rewrite successes_cons_ok. rewrite IH by lia. cbn [length seq fmap list_fmap].
    rewrite length_fmap, length_seq.
    f_equal; [lia|].
    rewrite <- (fmap_S_seq 0), <- list_fmap_compose.
    apply list_fmap_ext. intros _ i _. cbn. lia.
  - rewrite successes_cons_err. rewrite IH by lia.
    rewrite length_fmap, length_seq. apply list_fmap_ext. intros _ i _. lia.
Qed.

End Shape.

(** ** [Log.Truncate] keeps the bookkeeping *)

Lemma Store_Close_open fs s :
  store_open s ->
  exists fs' s',
    Store_Close fs s = (fs', s', None) /\
    frame (f_ino (st_file s)) fs fs' /\
    f_name (st_file s') = f_name (st_file s) /\ f_ino (st_file s') = f_ino (st_file s) /\
    st_err s' = None /\ st_size s' = st_size s /\
    contents fs' (f_ino (st_file s)) = store_view fs s.
Proof.
  intros Hs. unfold Store_Close.
  destruct (buf_Flush_open fs s Hs) as (fs1 & s1 & -> & Hs1 & Hnil & Hv & Hfr & Hf & Hsz).
  unfold File_Close. destruct Hs1 as [-> He _]. cbn.
  eexists _, _. split; [done|]. cbn. rewrite Hf. split_and!; try done.
  rewrite <- Hv. unfold store_view. by rewrite Hnil, app_nil_r, Hf.
Qed.

Lemma segment_Remove_live c fs s :
  seg_shape c s -> seg_live fs s ->
  exists fs' s',
    segment_Remove fs s = (fs', s', None) /\
    names fs' = delete (store_name (baseOffset s))
                  (delete (index_name (baseOffset s)) (names fs)) /\
    next_ino fs' = next_ino fs /\
    (forall j, j <> f_ino (st_file (store s)) -> contents fs' j = contents fs j) /\
    offsets s' = offsets s /\ index_ s' = index_ s /\ seg_shape c s' /\
    st_err (store s') = None.
Proof.
  intros Hsh Hlv. unfold segment_Remove.
  destruct (Store_Close_open fs (store s) (seg_live_store_open _ _ Hlv))
    as (fs1 & st & -> & [[Hn Hi] Hfr] & Hname & Hino & Herr & Hsz & _).
  unfold os_Remove, index_Name, File_Name. cbn [index_ set_store store].
  destruct Hsh as [Hc Hb Hnx Hsn Hin Hm Hs Hle]. destruct Hlv as [? ? ? ? Hsb Hib].
  rewrite Hin, Hn, Hib. cbn [names]. rewrite Hname, Hsn.
  rewrite lookup_delete_ne by apply not_eq_sym, store_index_name_ne. rewrite Hsb.
  eexists _, _. split; [done|]. cbn. split_and!; try done.
  split; cbn; rewrite ?Hname; done.
Qed.

Section Truncate.

Context `{Codec}.

Lemma truncate_loop_live c lowest segs : forall fs,
  Forall (seg_shape c) segs -> Forall (seg_live fs) segs ->
  NoDup (baseOffset <$> segs) ->
  exists fs' inplace,
    truncate_loop fs segs lowest =
      (fs', inplace, filter (fun s => wrap64 (lowest + 1) < nextOffset s) segs, None) /\
    next_ino fs' = next_ino fs /\
    (forall s, s ∈ segs -> nextOffset s <= wrap64 (lowest + 1) ->
       names fs' !! store_name (baseOffset s) = None /\
       names fs' !! index_name (baseOffset s) = None) /\
    (forall name,
       (forall s, s ∈ segs -> nextOffset s <= wrap64 (lowest + 1) -> name ∉ files_of s) ->
       names fs' !! name = names fs !! name) /\
    (forall name i, names fs' !! name = Some i -> names fs !! name = Some i) /\
    (forall j,
       (forall s, s ∈ segs -> nextOffset s <= wrap64 (lowest + 1) ->
                  j <> f_ino (st_file (store s))) ->
       contents fs' j = contents fs j) /\
    Forall2 (truncated c (wrap64 (lowest + 1))) segs inplace.
Proof.
  set (t := wrap64 (lowest + 1)).
  induction segs as [|s rest IH]; intros fs Hsh Hlv Hnd.
  { exists fs, []. cbn. split_and!; try done. intros s Hs. by apply elem_of_nil in Hs. }
  apply Forall_cons in Hsh as [Hs Hsh]. apply Forall_cons in Hlv as [Hl Hlv].
  cbn in Hnd. apply NoDup_cons in Hnd as [Hnotin Hnd].
  cbn [truncate_loop]. fold t.
  destruct (Z.leb_spec (nextOffset s) t) as [Hle|Hgt].
  - (* the segment goes *)
    destruct (segment_Remove_live c fs s Hs Hl)
      as (fs1 & s1 & -> & Hn1 & Hi1 & Hc1 & Hoff1 & Hidx1 & Hs1 & Herr1).
    assert (Hne : forall x, x ∈ rest -> baseOffset x <> baseOffset s).
    { intros x Hx E. apply Hnotin. rewrite <- E. by apply list_elem_of_fmap_2. }
    rewrite Forall_forall in Hsh.
    assert (Hlv1 : Forall (seg_live fs1) rest).
    { rewrite Forall_forall in Hlv |- *. intros x Hx.
      pose proof (seg_shape_uint64 _ _ (Hsh x Hx)) as Hux.
      pose proof (seg_shape_uint64 _ _ Hs) as Hus.
      destruct (Hlv x Hx). split; try done; rewrite Hn1.
      - rewrite lookup_delete_ne by (intros E%store_name_inj; [by eapply Hne|done..]).
        rewrite lookup_delete_ne by apply not_eq_sym, store_index_name_ne. done.
      - rewrite lookup_delete_ne by apply store_index_name_ne.
        rewrite lookup_delete_ne by (intros E%index_name_inj; [by eapply Hne|done..]). done. }
    destruct (IH fs1) as (fs' & inplace & -> & Hi' & Hgone & Hkeep & Hsub & Hc' & Hf2);
      [by apply Forall_forall|done|done|].
    exists fs', (s1 :: inplace).
    rewrite filter_cons_False by lia.
    split; [done|]. split_and!.
    + congruence.
    + intros x [->|Hx]%elem_of_cons Hxle; [|by apply Hgone].
      assert (Hsub' : forall name, names fs1 !! name = None -> names fs' !! name = None).
      { intros name Hnone. destruct (names fs' !! name) eqn:E; [|done].
        apply Hsub in E. congruence. }
      split; apply Hsub'; rewrite Hn1.
      * by rewrite lookup_delete_eq.
      * rewrite lookup_delete_ne by apply store_index_name_ne. by rewrite lookup_delete_eq.
    + intros name Hname. rewrite Hkeep.
      * assert (Hs_files : name ∉ files_of s) by (apply Hname; [left|done]).
        unfold files_of in Hs_files. rewrite Hn1.
        rewrite !lookup_delete_ne; [done|..]; intros <-; apply Hs_files;
          [right; left|left].
      * intros x Hx. apply Hname. by right.
    + intros name i Hl'%Hsub. rewrite Hn1 in Hl'.
      apply lookup_delete_Some in Hl' as [_ Hl']. by apply lookup_delete_Some in Hl' as [_ Hl'].
    + intros j Hj. rewrite Hc'.
      * apply Hc1. apply Hj; [left|done].
      * intros x Hx. apply Hj. by right.
    + constructor; [|done]. split_and!; try done. intros ?. lia.
  - (* the segment stays *)
    destruct (IH fs) as (fs' & inplace & -> & Hi' & Hgone & Hkeep & Hsub & Hc' & Hf2);
      try done.
    exists fs', (s :: inplace).
    rewrite filter_cons_True by lia.
    split; [done|]. split_and!; try done.
    + intros x [->|Hx]%elem_of_cons Hxle; [lia|by apply Hgone].
    + intros name Hname. apply Hkeep. intros x Hx. apply Hname. by right.
    + intros j Hj. apply Hc'. intros x Hx. apply Hj. by right.
    + constructor; [|done]. split_and!; try done. intros ?. lia.
Qed.

Lemma chain_head_lt s rest y :
  chain (s :: rest) -> y ∈ rest -> baseOffset s < nextOffset s /\ nextOffset s <= baseOffset y.
Proof.
  revert s y. induction rest as [|y0 rest IH]; intros s y Hc Hy; [by apply elem_of_nil in Hy|].
  apply chain_cons2 in Hc as (Hlt & Hn & Hc).
  apply elem_of_cons in Hy as [->|Hy]; [lia|].
  destruct (IH y0 y Hc Hy). lia.
Qed.

Lemma chain_NoDup_bases segs : chain segs -> NoDup (baseOffset <$> segs).
Proof.
  induction segs as [|s rest IH]; intros Hc; [constructor|].
  cbn. constructor.
  - intros (y & Hb & Hy)%list_elem_of_fmap.
    destruct (chain_head_lt s rest y Hc Hy). lia.
  - apply IH. by apply (chain_app_r [s]).
Qed.

Lemma filter_keep_all {A} (P : A -> Prop) `{forall x, Decision (P x)} (l : list A) :
  Forall P l -> filter P l = l.
Proof.
  induction 1 as [|x l Hx Hl IH]; [done|]. rewrite filter_cons_True by done. by rewrite IH.
Qed.

Lemma filter_keep_none {A} (P : A -> Prop) `{forall x, Decision (P x)} (l : list A) :
  Forall (fun x => ~ P x) l -> filter P l = [].
Proof.
  induction 1 as [|x l Hx Hl IH]; [done|]. by rewrite filter_cons_False.
Qed.

(** In a chain the next offsets grow, so the kept segments are a suffix. *)
Lemma chain_filter_suffix c t segs :
  chain segs -> Forall (seg_shape c) segs ->
  exists removed,
    segs = removed ++ filter (fun s => t < nextOffset s) segs /\
    Forall (fun s => nextOffset s <= t) removed.
Proof.
  induction segs as [|s rest IH]; intros Hc Hsh; [by exists []|].
  apply Forall_cons in Hsh as [Hs Hsh].
  destruct (decide (t < nextOffset s)) as [Hgt|Hle].
  - exists []. split; [|done]. cbn [app]. symmetry. apply filter_keep_all.
    constructor; [done|]. rewrite Forall_forall in Hsh |- *. intros y Hy.
    destruct (chain_head_lt s rest y Hc Hy). destruct (Hsh y Hy). lia.
  - destruct IH as (removed & E & Hrem); [by apply (chain_app_r [s])|done|].
    exists (s :: removed). rewrite filter_cons_False by done. split.
    + cbn. by rewrite <- E.
    + constructor; [lia|done].
Qed.

Lemma NoDup_fmap_elem {A B} (f : A -> B) (l : list A) x y :
  NoDup (f <$> l) -> x ∈ l -> y ∈ l -> f x = f y -> x = y.
Proof.
  intros Hnd (i & Hi)%list_elem_of_lookup (j & Hj)%list_elem_of_lookup E.
  assert (i = j).
  { eapply NoDup_lookup; [exact Hnd| |].
    - rewrite list_lookup_fmap, Hi. done.
    - rewrite list_lookup_fmap, Hj. cbn. by rewrite E. }
  subst. congruence.
Qed.

Lemma Log_Truncate_shape c fs l lowest fs' l' err :
  log_shape c fs l -> Log_Truncate fs l lowest = (fs', l', err) ->
  err = None /\ log_shape c fs' l' /\
  segments l' = filter (fun s => wrap64 (lowest + 1) < nextOffset s) (segments l) /\
  next_ino fs' = next_ino fs /\
  (forall s, s ∈ segments l -> nextOffset s <= wrap64 (lowest + 1) ->
     names fs' !! store_name (baseOffset s) = None /\
     names fs' !! index_name (baseOffset s) = None) /\
  (forall s, s ∈ segments l' ->
     names fs' !! store_name (baseOffset s) = names fs !! store_name (baseOffset s) /\
     names fs' !! index_name (baseOffset s) = names fs !! index_name (baseOffset s)) /\
  (forall j,
     (forall s, s ∈ segments l -> nextOffset s <= wrap64 (lowest + 1) ->
                j <> f_ino (st_file (store s))) ->
     contents fs' j = contents fs j).
Proof.
  intros Hshape. destruct l as [cfg segs orph]. unfold Log_Truncate. cbn [segments orphan l_Config].
  pose proof Hshape as [Hc Hcfg Hfs Hsh Hlv Hch Ho Hact]. cbn in Hc, Hsh, Hlv, Hch, Ho, Hact.
  set (t := wrap64 (lowest + 1)).
  pose proof (chain_NoDup_bases segs Hch) as Hnd.
  destruct (truncate_loop_live c lowest segs fs Hsh Hlv Hnd)
    as (fs1 & inplace & -> & Hi & Hgone & Hkeep & Hsub & Hcont & Hf2).
  fold t in Hgone, Hkeep, Hcont, Hf2 |- *.
  intros [= <- <- <-].
  assert (Hkept_names : forall s, s ∈ filter (fun s => t < nextOffset s) segs ->
     names fs1 !! store_name (baseOffset s) = names fs !! store_name (baseOffset s) /\
     names fs1 !! index_name (baseOffset s) = names fs !! index_name (baseOffset s)).
  { intros s [Hst Hs]%list_elem_of_filter.
    rewrite Forall_forall in Hsh.
    assert (Hne : forall x, x ∈ segs -> nextOffset x <= t -> baseOffset s <> baseOffset x).
    { intros x Hx Hxt E. assert (s = x) by (by eapply (NoDup_fmap_elem baseOffset)).
      subst. lia. }
    split; apply Hkeep; intros x Hx Hxt; unfold files_of;
      rewrite !elem_of_cons, elem_of_nil; intros [E|[E|[]]].
    - apply store_name_inj in E; [by eapply Hne| |]; by eapply seg_shape_uint64, Hsh.
    - by apply store_index_name_ne in E.
    - symmetry in E. by apply store_index_name_ne in E.
    - apply index_name_inj in E; [by eapply Hne| |]; by eapply seg_shape_uint64, Hsh. }
  assert (Hfs1 : fs_ok fs1).
  { destruct Hfs as [Hb Hj]. split.
    - intros name i Hl%Hsub. rewrite Hi. by eapply Hb.
    - intros n1 n2 i H1%Hsub H2%Hsub. by eapply Hj. }
  assert (Howned : owned fs1 (filter (fun s => t < nextOffset s) segs)).
  { intros name. split.
    - intros [i Hl]. pose proof (Hsub _ _ Hl) as Hl0.
      destruct (proj1 (Ho name)) as (s & Hs & Hname); [by eexists|].
      exists s. split; [|done]. apply list_elem_of_filter. split; [|done].
      destruct (decide (t < nextOffset s)); [done|]. exfalso.
      destruct (Hgone s Hs) as [G1 G2]; [lia|].
      destruct Hname as [-> | ->]; congruence.
    - intros (s & Hs & Hname). destruct (Hkept_names s Hs) as [E1 E2].
      apply list_elem_of_filter in Hs as [_ Hs].
      rewrite Forall_forall in Hlv. destruct (Hlv s Hs).
      destruct Hname as [-> | ->]; [rewrite E1|rewrite E2]; by eexists. }
  split; [done|]. split; [|split_and!; try done].
  destruct (chain_filter_suffix c t segs Hch Hsh) as (removed & Esegs & Hrem).
  assert (Hsh_kept : Forall (seg_shape c) (filter (fun s => t < nextOffset s) segs)).
  { rewrite Forall_forall in Hsh |- *. intros s [_ Hs]%list_elem_of_filter. by apply Hsh. }
  assert (Hlv_kept : Forall (seg_live fs1) (filter (fun s => t < nextOffset s) segs)).
  { rewrite Forall_forall in Hlv |- *. intros s Hs.
    destruct (Hkept_names s Hs) as [E1 E2].
    apply list_elem_of_filter in Hs as [_ Hs]. destruct (Hlv s Hs).
    split; rewrite ?E1, ?E2; done. }
  assert (Hch_kept : chain (filter (fun s => t < nextOffset s) segs)).
  { rewrite Esegs in Hch. by apply chain_app_r in Hch. }
  destruct orph as [d|].
  - (* nothing is listed *)
    destruct Hact as (-> & Hd & Hsz & Herr). cbn in *.
    inversion Hf2; subst. split; cbn; try done.
  - destruct Hact as (a & Hlast & Hsz).
    apply last_Some in Hlast as [pre ->].
    apply Forall2_app_inv_l in Hf2 as (pre' & last' & Hpre' & Hlast' & ->).
    apply Forall2_cons_inv_l in Hlast' as (a' & nil' & Ha' & Hnil' & ->).
    apply Forall2_nil_inv_l in Hnil' as ->.
    rewrite last_snoc.
    destruct Ha' as (Hoff & Hidx & Hsha' & Hsame & Herr').
    assert (Hnext : nextOffset a' = nextOffset a) by (unfold offsets in Hoff; congruence).
    rewrite Hnext.
    destruct (Z.leb_spec (nextOffset a) t) as [Hle|Hgt].
    + (* every segment goes; the active one stays reachable through its pointer *)
      assert (Hnone : filter (fun s => t < nextOffset s) (pre ++ [a]) = []).
      { apply filter_keep_none. apply Forall_app. split.
        - rewrite Forall_forall. intros x Hx.
          destruct (chain_before_last pre a x Hch Hx).
          apply Forall_app in Hsh as [_ Hsa]. apply Forall_inv in Hsa. destruct Hsa. lia.
        - constructor; [lia|done]. }
      rewrite Hnone in *. split; cbn; try done.
      split_and!; try done; [by rewrite Hidx|by left; apply Herr'].
    + rewrite filter_app, (filter_cons_True _ a) by done. cbn [filter list_filter].
      rewrite filter_app, (filter_cons_True _ a) in Hsh_kept, Hlv_kept, Hch_kept, Howned
        by done.
      cbn [filter list_filter] in Hsh_kept, Hlv_kept, Hch_kept, Howned.
      split; cbn; try done.
      exists a. by rewrite last_snoc.
Qed.

End Truncate.

(** ** The contents of a segment *)

Lemma ino_distinct fs n1 n2 i1 i2 :
  fs_ok fs -> names fs !! n1 = Some i1 -> names fs !! n2 = Some i2 -> n1 <> n2 -> i1 <> i2.
Proof. intros [_ Hj] H1 H2 Hne ->. apply Hne. by eapply Hj. Qed.

Lemma seg_inos_distinct fs s :
  fs_ok fs -> seg_live fs s -> f_ino (st_file (store s)) <> f_ino (i_file (index_ s)).
Proof.
  intros Hfs []. eapply ino_distinct; try done. apply store_index_name_ne.
Qed.

Lemma segs_inos_distinct c fs x y :
  fs_ok fs -> seg_shape c x -> seg_shape c y -> seg_live fs x -> seg_live fs y ->
  baseOffset x <> baseOffset y ->
  f_ino (st_file (store x)) <> f_ino (st_file (store y)) /\
  f_ino (st_file (store x)) <> f_ino (i_file (index_ y)) /\
  f_ino (i_file (index_ x)) <> f_ino (st_file (store y)) /\
  f_ino (i_file (index_ x)) <> f_ino (i_file (index_ y)).
Proof.
  intros Hfs Hx Hy [] [] Hne.
  pose proof (seg_shape_uint64 _ _ Hx). pose proof (seg_shape_uint64 _ _ Hy).
  split_and!; eapply ino_distinct; try done.
  - by intros ?%store_name_inj.
  - apply store_index_name_ne.
  - apply not_eq_sym, store_index_name_ne.
  - by intros ?%index_name_inj.
Qed.

Section Data.

Context `{Codec}.

Lemma seg_record_extend idata idata' view ext n k r :
  0 <= k < n ->
  (forall j, 0 <= j < n -> index_entry idata' j = index_entry idata j) ->
  seg_record idata view k = Some r ->
  seg_record idata' (view ++ ext) k = Some r.
Proof.
  unfold seg_record. intros Hk Hi. rewrite Hi by done.
  destruct (view_read view _) as [p|] eqn:E; [|done].
  by rewrite (view_read_app _ _ _ _ E).
Qed.

Lemma seg_data_frame fs fs' s :
  contents fs' (f_ino (st_file (store s))) = contents fs (f_ino (st_file (store s))) ->
  contents fs' (f_ino (i_file (index_ s))) = contents fs (f_ino (i_file (index_ s))) ->
  seg_data fs s -> seg_data fs' s.
Proof.
  intros Hs Hi [Hsz Hlt Hil He].
  split; unfold store_view in *; rewrite ?Hs, ?Hi; done.
Qed.

Lemma seg_at_frame fs fs' s k :
  contents fs' (f_ino (st_file (store s))) = contents fs (f_ino (st_file (store s))) ->
  contents fs' (f_ino (i_file (index_ s))) = contents fs (f_ino (i_file (index_ s))) ->
  seg_at fs' s k = seg_at fs s k.
Proof. intros Hs Hi. unfold seg_at, store_view. by rewrite Hs, Hi. Qed.

(** [segment.Append] on a listed segment: the entries already there stay,
    and a successful call adds the stamped record at the next position. *)
Lemma segment_Append_data c fs s r :
  fs_ok fs -> seg_shape c s -> seg_live fs s -> seg_data fs s ->
  MaxIndexBytes c <= endWidth * 2 ^ 32 ->
  nextOffset s < MaxUint64 ->
  (forall p, Marshal (set_Offset r (nextOffset s)) = Some p ->
             st_size (store s) + lenWidth + len p < 2 ^ 63) ->
  let fs' := (segment_Append fs s r).1.1.1 in
  let s' := (segment_Append fs s r).1.1.2 in
  seg_data fs' s' /\
  (forall j, j <> f_ino (st_file (store s)) -> j <> f_ino (i_file (index_ s)) ->
             contents fs' j = contents fs j) /\
  (forall k r0, 0 <= k < nextOffset s - baseOffset s ->
                seg_at fs s k = Some r0 -> seg_at fs' s' k = Some r0) /\
  ((segment_Append fs s r).2.2 = None ->
   seg_at fs' s' (nextOffset s - baseOffset s) = Some (set_Offset r (nextOffset s))).
Proof.
  intros Hfs Hsh Hlv Hd Hcap Hmax Hfit.
  pose proof (seg_inos_distinct fs s Hfs Hlv) as Hino.
  unfold segment_Append, seg_at.
  destruct (Marshal (set_Offset r (nextOffset s))) as [p|] eqn:Em; [|by cbn].
  specialize (Hfit p eq_refl).
  destruct (Store_Append_open fs (store s) p (seg_live_store_open _ _ Hlv))
    as (fs1 & st & -> & Hso & Hv1 & [Hn1 Hfr1] & Hf1 & Hsz1).
  destruct Hd as [Hsz Hlt Hil He].
  destruct Hsh as [Hc Hb Hnx Hsn Hin Hm Hs Hle].
  pose proof (len_nonneg p) as Hp0.
  pose proof (len_nonneg (store_view fs (store s))) as Hv0.
  unfold lenWidth in *.
  assert (Hsz1v : st_size st = st_size (store s) + 8 + len p).
  { rewrite Hsz1. rewrite (wrap64_small (len p + 8)) by lia.
    rewrite wrap64_small by lia. lia. }
  assert (Hsz1' : st_size st = len (store_view fs1 st)).
  { rewrite Hsz1v, Hv1, !len_app, len_PutUint64. lia. }
  assert (Hidx1 : contents fs1 (f_ino (i_file (index_ s)))
                  = contents fs (f_ino (i_file (index_ s)))).
  { apply Hfr1. congruence. }
  set (n := nextOffset s - baseOffset s) in *.
  assert (En : n = nextOffset s - baseOffset s) by done.
  assert (Hn : 0 <= n) by lia.
  cbn [set_store index_ nextOffset baseOffset store].
  set (idata := contents fs (f_ino (i_file (index_ s)))) in *.
  unfold endWidth, offWidth, posWidth in *.
  destruct (Z.le_gt_cases (i_size (index_ s) + 12) (i_mlen (index_ s))) as [Hroom|Hfull].
  - (* the index takes the entry *)
    rewrite index_Write_ok
      by (unfold endWidth, offWidth, posWidth; rewrite ?Hidx1; fold idata; try lia).
    cbn [fst snd set_store set_index set_nextOffset store index_ nextOffset baseOffset i_file
         i_mlen i_size].
    rewrite Hidx1. fold idata.
    rewrite (wrap64_small (nextOffset s + 1)) by (unfold MaxUint64 in *; lia).
    rewrite (wrap64_small (nextOffset s - baseOffset s)) by lia. fold n.
    rewrite wrap32_small by lia.
    assert (Hlen_i : 12 * n <= len idata) by lia.
    rewrite Hs. change ((4 + 8) * n) with (12 * n).
    assert (Hentry_old : forall j, 0 <= j < n ->
              index_entry (splice idata (12 * n) (PutUint32 n ++ PutUint64 (st_size (store s)))) j
              = index_entry idata j).
    { intros j Hj. apply (index_entry_splice_before idata n); [done|].
      unfold endWidth, offWidth, posWidth. lia. }
    assert (Hentry_new :
              index_entry (splice idata (12 * n) (PutUint32 n ++ PutUint64 (st_size (store s)))) n
              = (n, st_size (store s))).
    { pose proof (index_entry_splice_at idata n n (st_size (store s))) as Hat.
      unfold endWidth, offWidth, posWidth in Hat.
      change ((4 + 8) * n) with (12 * n) in Hat.
      rewrite Hat by lia. rewrite wrap32_small, wrap64_small by lia. done. }
    assert (Hstore2 : forall d, store_view (set_contents fs1 (f_ino (i_file (index_ s))) d) st
                                = store_view fs1 st).
    { intros d. unfold store_view. rewrite contents_set_contents_ne; [done|]. congruence. }
    assert (Hnew : seg_record
                     (splice idata (12 * n) (PutUint32 n ++ PutUint64 (st_size (store s))))
                     (store_view fs1 st) n = Some (set_Offset r (nextOffset s))).
    { unfold seg_record. rewrite Hentry_new. cbn [snd].
      rewrite Hv1, Hsz. rewrite view_read_new by lia.
      apply Unmarshal_Marshal; [cbn; lia|done]. }
    split_and!.
    + split; cbn [store index_ set_store set_index set_nextOffset st_size nextOffset baseOffset
               i_file i_mlen i_size config]; fold n.
      * by rewrite Hstore2.
      * lia.
      * rewrite contents_set_contents_eq. rewrite len_splice; [done|lia|].
        rewrite len_app, len_PutUint32, len_PutUint64. lia.
      * intros k Hk. rewrite contents_set_contents_eq, Hstore2.
        destruct (decide (k = n)) as [->|Hkn].
        { rewrite Hentry_new. split; [done|]. eexists. split; [exact Hnew|]. cbn. unfold n. lia. }
        destruct (He k) as (He1 & r0 & He2 & He3); [lia|].
        rewrite Hentry_old by lia. split; [done|]. exists r0. split; [|done].
        rewrite Hv1. eapply seg_record_extend; [|exact Hentry_old|exact He2]. lia.
    + intros j Hj1 Hj2. rewrite contents_set_contents_ne by congruence. by apply Hfr1.
    + fold n. intros k r0 Hk Hr0. rewrite contents_set_contents_eq, Hstore2, Hv1.
      eapply seg_record_extend; [|exact Hentry_old|exact Hr0]. lia.
    + fold n. intros _. by rewrite contents_set_contents_eq, Hstore2.
  - (* the index is full *)
    rewrite index_Write_full by (unfold endWidth, offWidth, posWidth; lia).
    cbn [fst snd set_index set_nextOffset store index_ nextOffset baseOffset i_file set_store].
    rewrite Hidx1. fold idata.
    split_and!; [|by intros; apply Hfr1| |done].
    + split; cbn [store index_ set_store set_index set_nextOffset st_size nextOffset baseOffset
               i_file i_mlen i_size config];
        rewrite ?Hidx1; try done; try lia.
      intros k Hk. fold idata. destruct (He k Hk) as (He1 & r0 & He2 & He3).
      split; [done|]. exists r0. split; [|done]. rewrite Hv1.
      by eapply seg_record_extend.
    + intros k r0 Hk Hr0. rewrite Hv1. by eapply seg_record_extend.
Qed.

(** [segment.Read] inside the range of a listed segment returns the record
    the index leads to, and only flushes the store. *)
Lemma segment_Read_data c fs s off :
  fs_ok fs -> seg_shape c s -> seg_live fs s -> seg_data fs s ->
  MaxIndexBytes c <= endWidth * 2 ^ 32 ->
  baseOffset s <= off < nextOffset s ->
  exists fs' st r,
    segment_Read fs s off = (fs', set_store s st, (Some r, None)) /\
    seg_at fs s (off - baseOffset s) = Some r /\ Offset r = off /\
    frame (f_ino (st_file (store s))) fs fs' /\
    st_file st = st_file (store s) /\ store_open st /\
    seg_data fs' (set_store s st) /\
    (forall k, seg_at fs' (set_store s st) k = seg_at fs s k).
Proof.
  intros Hfs Hsh Hlv Hd Hcap Hoff.
  pose proof (seg_inos_distinct fs s Hfs Hlv) as Hino.
  destruct Hsh as [Hc Hb Hnx Hsn Hin Hm Hs Hle].
  destruct Hd as [Hsz Hlt Hil He].
  set (k := off - baseOffset s). set (n := nextOffset s - baseOffset s) in *.
  assert (Hk : 0 <= k < n) by (unfold k, n; lia).
  assert (Hn : n <= 2 ^ 32) by (unfold endWidth, offWidth, posWidth in *; lia).
  destruct (He k Hk) as (He1 & r & He2 & He3).
  unfold segment_Read. fold k.
  rewrite wrap64_small, to_int64_small by (rewrite ?wrap64_small; lia).
  rewrite (index_Read_entry fs (index_ s) n k) by (try done; lia).
  unfold seg_record in He2.
  set (pos := (index_entry (contents fs (f_ino (i_file (index_ s)))) k).2) in *.
  destruct (view_read (store_view fs (store s)) pos) as [p|] eqn:Ev; [|done].
  destruct (Store_Read_open fs (store s) pos p (seg_live_store_open _ _ Hlv)) as
    (fs' & st & -> & Hso & Hv & Hfr & Hf & Hsz'); [lia|done|].
  rewrite He2.
  assert (Hidx : contents fs' (f_ino (i_file (index_ s)))
                 = contents fs (f_ino (i_file (index_ s)))).
  { apply Hfr. congruence. }
  assert (Hat : forall j, seg_at fs' (set_store s st) j = seg_at fs s j).
  { intros j. unfold seg_at. cbn [index_ store set_store]. by rewrite Hidx, Hv. }
  exists fs', st, r. split_and!; try done.
  - unfold seg_at, seg_record. fold k pos. by rewrite Ev.
  - unfold k in He3. lia.
  - split; cbn [index_ store set_store nextOffset baseOffset]; rewrite ?Hidx, ?Hv; try done.
    + congruence.
    + lia.
Qed.

End Data.

Section LogData.

Context `{Codec}.

(** ** The records of a log *)

Lemma chain_unique segs off s1 s2 :
  chain segs -> s1 ∈ segs -> s2 ∈ segs -> in_segment off s1 -> in_segment off s2 -> s1 = s2.
Proof.
  unfold in_segment. induction segs as [|x rest IH]; intros Hc H1 H2 P1 P2.
  { by apply elem_of_nil in H1. }
  apply elem_of_cons in H1 as [->|H1]; apply elem_of_cons in H2 as [->|H2]; try done.
  - destruct (chain_head_lt x rest s2 Hc H2). lia.
  - destruct (chain_head_lt x rest s1 Hc H1). lia.
  - apply IH; try done. by apply (chain_app_r [x]).
Qed.

(** [Log.Read] returns the record the log holds. *)
Lemma Log_Read_holds c fs l off r :
  log_shape c fs l -> log_data fs l -> MaxIndexBytes c <= endWidth * 2 ^ 32 ->
  holds fs (segments l) off r ->
  exists fs' l', Log_Read fs l off = (fs', l', (Some r, None)).
Proof.
  intros Hshape Hdata Hcap (s & Hs & Hin & Hat).
  pose proof Hshape as [Hc Hcfg Hfs Hsh Hlv Hch Ho Hact].
  unfold Log_Read.
  destruct (list_find_elem_of (in_segment off) (segments l) s Hs Hin) as [[i s'] Ef].
  rewrite Ef. apply list_find_Some in Ef as (Hi & Hin' & _).
  assert (s' = s) as ->.
  { eapply chain_unique; try done. by eapply list_elem_of_lookup_2. }
  destruct Hin as [Hlo Hhi].
  destruct (Z.leb_spec (nextOffset s) off); [lia|].
  rewrite Forall_forall in Hsh, Hlv. unfold log_data in Hdata. rewrite Forall_forall in Hdata.
  destruct (segment_Read_data c fs s off) as (fs' & st & r' & -> & Hat' & _); auto.
  rewrite Hat in Hat'. injection Hat' as <-. by eexists _, _.
Qed.

(** Inside the range of a listed segment, the log holds a record that
    carries the offset. *)
Lemma holds_in_range fs l s off :
  log_data fs l -> s ∈ segments l -> in_segment off s ->
  exists r, holds fs (segments l) off r /\ Offset r = off.
Proof.
  intros Hdata Hs [Hlo Hhi]. unfold log_data in Hdata. rewrite Forall_forall in Hdata.
  destruct (Hdata s Hs) as [_ _ _ He].
  destruct (He (off - baseOffset s)) as (_ & r & Hr & Hoff); [lia|].
  exists r. split; [by exists s|lia].
Qed.

Lemma elem_of_insert_cases {A} (l : list A) i x y s :
  l !! i = Some s -> x ∈ l -> (x ∈ <[i:=y]> l) \/ x = s.
Proof.
  intros Hi (j & Hj)%list_elem_of_lookup.
  destruct (decide (i = j)) as [->|Hne]; [right; congruence|left].
  apply list_elem_of_lookup. exists j. by rewrite list_lookup_insert_ne.
Qed.

Lemma elem_of_insert_inv {A} (l : list A) i x y :
  x ∈ <[i:=y]> l -> x = y \/ exists j, j <> i /\ l !! j = Some x.
Proof.
  intros (j & Hj)%list_elem_of_lookup.
  destruct (decide (i = j)) as [->|Hne].
  - destruct (decide (j < length l)%nat).
    + rewrite list_lookup_insert_eq in Hj by done. left. congruence.
    + rewrite list_insert_ge in Hj by lia. apply lookup_lt_Some in Hj. lia.
  - rewrite list_lookup_insert_ne in Hj by done. right. exists j. split; [congruence|done].
Qed.

Lemma NoDup_fmap_lookup {A B} (f : A -> B) (l : list A) i j x y :
  NoDup (f <$> l) -> l !! i = Some x -> l !! j = Some y -> i <> j -> f x <> f y.
Proof.
  intros Hnd Hi Hj Hne E. apply Hne.
  eapply NoDup_lookup; [exact Hnd| |].
  - rewrite list_lookup_fmap, Hi. done.
  - rewrite list_lookup_fmap, Hj. cbn. by rewrite E.
Qed.

Lemma Log_Read_data c fs l off fs' l' res :
  log_shape c fs l -> log_data fs l -> MaxIndexBytes c <= endWidth * 2 ^ 32 ->
  Log_Read fs l off = (fs', l', res) ->
  log_data fs' l' /\
  (forall o r, holds fs (segments l) o r -> holds fs' (segments l') o r).
Proof.
  intros Hshape Hdata Hcap.
  pose proof Hshape as [Hc Hcfg Hfs Hsh Hlv Hch Ho Hact].
  unfold Log_Read.
  destruct (list_find (in_segment off) (segments l)) as [[i s]|] eqn:Ef;
    [|intros [= <- <- <-]; done].
  apply list_find_Some in Ef as (Hi & [Hlo Hhi] & _).
  destruct (Z.leb_spec (nextOffset s) off); [lia|].
  pose proof (list_elem_of_lookup_2 _ _ _ Hi) as Hs.
  rewrite Forall_forall in Hsh, Hlv. unfold log_data in *. rewrite Forall_forall in Hdata.
  destruct (segment_Read_data c fs s off)
    as (fs1 & st & r' & -> & _ & _ & [Hn Hfr] & Hf & Hso & Hd1 & Hat1); auto.
  intros [= <- <- <-]. cbn [segments set_segments].
  pose proof (chain_NoDup_bases _ Hch) as Hnd.
  assert (Hother : forall x, x ∈ segments l -> x <> s ->
            contents fs1 (f_ino (st_file (store x))) = contents fs (f_ino (st_file (store x))) /\
            contents fs1 (f_ino (i_file (index_ x))) = contents fs (f_ino (i_file (index_ x)))).
  { intros x Hx Hne.
    assert (Hb : baseOffset x <> baseOffset s).
    { intros E. apply Hne. by eapply (NoDup_fmap_elem baseOffset). }
    destruct (segs_inos_distinct c fs x s Hfs (Hsh x Hx) (Hsh s Hs) (Hlv x Hx) (Hlv s Hs) Hb)
      as (? & _ & ? & _).
    split; apply Hfr; done. }
  split.
  - rewrite Forall_forall. intros x [->|(j & Hj & Hx)]%elem_of_insert_inv; [done|].
    assert (Hne : x <> s).
    { intros ->. by eapply (NoDup_fmap_lookup baseOffset (segments l) j i s s Hnd). }
    pose proof (list_elem_of_lookup_2 _ _ _ Hx) as Hx'.
    destruct (Hother x Hx' Hne). apply (seg_data_frame fs); auto.
  - intros o r (x & Hx & Hin & Hat).
    destruct (decide (baseOffset x = baseOffset s)) as [E|Hne'].
    + assert (x = s) as -> by (by eapply (NoDup_fmap_elem baseOffset)).
      exists (set_store s st). split_and!; [|done|].
      * apply list_elem_of_lookup. exists i. apply list_lookup_insert_eq.
        by eapply lookup_lt_Some.
      * cbn [baseOffset set_store]. by rewrite Hat1.
    + assert (Hne : x <> s) by congruence.
      exists x. split_and!; [|done|].
      * destruct (elem_of_insert_cases (segments l) i x (set_store s st) s Hi Hx); done.
      * destruct (Hother x Hx Hne). by rewrite (seg_at_frame fs fs1).
Qed.

(** ** [Log.Append] and the records *)

Lemma fresh_segment_data fs n0 b c :
  contents fs n0 = [] -> len (contents fs (S n0)) = MaxIndexBytes c ->
  seg_data fs (fresh_segment n0 b c).
Proof.
  intros H0 H1. split; cbn; unfold store_view; cbn; rewrite ?H0; try done.
  intros k Hk. lia.
Qed.

Lemma extend_fresh_data fs1 fs' segs n0 b c :
  (forall j, (j < n0)%nat -> contents fs' j = contents fs1 j) ->
  contents fs' n0 = [] -> len (contents fs' (S n0)) = MaxIndexBytes c ->
  (forall x, x ∈ segs ->
     (f_ino (st_file (store x)) < n0)%nat /\ (f_ino (i_file (index_ x)) < n0)%nat) ->
  Forall (seg_data fs1) segs ->
  Forall (seg_data fs') (segs ++ [fresh_segment n0 b c]) /\
  (forall o r0, holds fs1 segs o r0 -> holds fs' (segs ++ [fresh_segment n0 b c]) o r0).
Proof.
  intros Hold H0 H1 Hino Hd. rewrite Forall_forall in Hd. split.
  - apply Forall_app. split.
    + rewrite Forall_forall. intros x Hx. destruct (Hino x Hx).
      apply (seg_data_frame fs1); auto.
    + constructor; [|done]. by apply fresh_segment_data.
  - intros o r0 (x & Hx & Hin & Hat). exists x. split_and!; [|done|].
    + apply elem_of_app. by left.
    + destruct (Hino x Hx). rewrite (seg_at_frame fs1 fs'); auto.
Qed.

Lemma append_listed_data c fs pre a r :
  fs_ok fs -> Forall (seg_shape c) (pre ++ [a]) -> Forall (seg_live fs) (pre ++ [a]) ->
  chain (pre ++ [a]) -> Forall (seg_data fs) (pre ++ [a]) ->
  MaxIndexBytes c <= endWidth * 2 ^ 32 ->
  nextOffset a < MaxUint64 ->
  (forall p, Marshal (set_Offset r (nextOffset a)) = Some p ->
             st_size (store a) + lenWidth + len p < 2 ^ 63) ->
  let fs1 := (segment_Append fs a r).1.1.1 in
  let a1 := (segment_Append fs a r).1.1.2 in
  Forall (seg_data fs1) (pre ++ [a1]) /\
  (forall o r0, holds fs (pre ++ [a]) o r0 -> holds fs1 (pre ++ [a1]) o r0) /\
  ((segment_Append fs a r).2.2 = None ->
   holds fs1 (pre ++ [a1]) (nextOffset a) (set_Offset r (nextOffset a))) /\
  (forall x, x ∈ pre ++ [a1] ->
     (f_ino (st_file (store x)) < next_ino fs1)%nat /\
     (f_ino (i_file (index_ x)) < next_ino fs1)%nat).
Proof.
  intros Hfs Hsh Hlv Hch Hd Hcap Hmax Hfit.
  rewrite Forall_forall in Hsh, Hlv, Hd.
  assert (Ha : a ∈ pre ++ [a]) by (apply elem_of_app; right; apply list_elem_of_here).
  destruct (segment_Append_data c fs a r Hfs (Hsh a Ha) (Hlv a Ha) (Hd a Ha) Hcap Hmax Hfit)
    as (Hd1 & Hfr & Hkeep & Hnew).
  pose proof (segment_Append_gen fs a r) as ([Hn Hi] & _ & Hb' & _ & Hsf & Hif & _ & Hcase).
  cbn zeta in *.
  set (fs1 := (segment_Append fs a r).1.1.1) in *.
  set (a1 := (segment_Append fs a r).1.1.2) in *.
  assert (Hother : forall x, x ∈ pre ->
            contents fs1 (f_ino (st_file (store x))) = contents fs (f_ino (st_file (store x))) /\
            contents fs1 (f_ino (i_file (index_ x))) = contents fs (f_ino (i_file (index_ x)))).
  { intros x Hx. assert (Hx' : x ∈ pre ++ [a]) by (apply elem_of_app; by left).
    assert (Hb : baseOffset x <> baseOffset a).
    { destruct (chain_before_last pre a x Hch Hx). lia. }
    destruct (segs_inos_distinct c fs x a Hfs (Hsh x Hx') (Hsh a Ha) (Hlv x Hx') (Hlv a Ha) Hb)
      as (? & ? & ? & ?).
    split; apply Hfr; done. }
  assert (Hnext : nextOffset a <= nextOffset a1).
  { destruct (Hsh a Ha).
    destruct Hcase as [(_ & _ & -> & _)|(_ & _ & -> & _)]; [|lia].
    rewrite wrap64_small by (unfold MaxUint64 in *; lia). lia. }
  split_and!.
  - rewrite Forall_forall. intros x [Hx|Hx]%elem_of_app.
    + destruct (Hother x Hx). apply (seg_data_frame fs); auto.
      apply Hd. apply elem_of_app. by left.
    + by apply list_elem_of_singleton in Hx as ->.
  - intros o r0 (x & [Hx|Hx]%elem_of_app & Hin & Hat).
    + exists x. split_and!; [apply elem_of_app; by left|done|].
      destruct (Hother x Hx). by rewrite (seg_at_frame fs fs1).
    + apply list_elem_of_singleton in Hx as ->. destruct Hin as [Hlo Hhi].
      exists a1. split_and!.
      * apply elem_of_app. right. apply list_elem_of_here.
      * split; [congruence|lia].
      * rewrite Hb'. apply Hkeep; [lia|done].
  - intros Hok. exists a1. split_and!.
    + apply elem_of_app. right. apply list_elem_of_here.
    + destruct (Hsh a Ha).
      destruct Hcase as [(_ & _ & Hn' & _)|(? & _)]; [|done].
      rewrite wrap64_small in Hn' by (unfold MaxUint64 in *; lia).
      split; [rewrite Hb'|]; lia.
    + rewrite Hb'. by apply Hnew.
  - destruct Hfs as [Hbound _].
    intros x [Hx|Hx]%elem_of_app.
    + assert (Hx' : x ∈ pre ++ [a]) by (apply elem_of_app; by left).
      destruct (Hlv x Hx'). rewrite Hi. split; by eapply Hbound.
    + apply list_elem_of_singleton in Hx as ->. destruct (Hlv a Ha).
      rewrite Hi, Hsf, Hif. split; by eapply Hbound.
Qed.

Lemma Log_Append_data c fs l r fs' l' r' res :
  log_shape c fs l -> log_data fs l -> MaxIndexBytes c <= endWidth * 2 ^ 32 ->
  append_in_bounds l r ->
  Log_Append fs l r = (fs', l', r', res) ->
  log_data fs' l' /\
  (forall o r0, holds fs (segments l) o r0 -> holds fs' (segments l') o r0) /\
  (orphan l = None -> forall off, res = (off, None) ->
   holds fs' (segments l') off (set_Offset r off)).
Proof.
  intros Hshape Hdata Hcap Hbounds E.
  assert (Hmax : forall a, activeSegment l = Some a -> nextOffset a < MaxUint64).
  { intros a Ha. unfold append_in_bounds in Hbounds. rewrite Ha in Hbounds. tauto. }
  destruct (Log_Append_step c fs l r fs' l' r' res Hshape Hmax E)
    as (a & Ha & fs1 & a1 & res1 & Eseg & Hres & Hcases).
  unfold append_in_bounds in Hbounds. rewrite Ha in Hbounds. destruct Hbounds as [Hmax_a Hfit].
  pose proof Hshape as [Hc Hcfg Hfs Hsh Hlv Hch Ho Hact].
  unfold log_data in *. unfold activeSegment in Ha.
  destruct l as [cfg segs orph]. cbn [segments orphan l_Config] in *.
  destruct orph as [d|].
  - (* appends through the pointer to a dropped segment leave the list alone *)
    destruct Hact as (-> & _). injection Ha as ->.
    unfold set_active in Hcases. cbn in Hcases.
    destruct Hcases as [[-> ->]|(Hok & -> & Hold & H0 & H1)]; cbn [segments].
    + split_and!; try done. intros o r0 (x & Hx & _). by apply elem_of_nil in Hx.
    + split_and!; try done.
      * constructor; [|done]. by apply fresh_segment_data.
      * intros o r0 (x & Hx & _). by apply elem_of_nil in Hx.
  - destruct Hact as (a' & Hlast & _). rewrite Hlast in Ha. injection Ha as ->.
    apply last_Some in Hlast as [pre ->].
    destruct (append_listed_data c fs pre a r Hfs Hsh Hlv Hch Hdata Hcap Hmax_a Hfit)
      as (Hd1 & Hkeep & Hnew & Hino).
    rewrite Eseg in Hd1, Hkeep, Hnew, Hino. cbn [fst snd] in Hd1, Hkeep, Hnew, Hino.
    pose proof (segment_Append_gen fs a r) as (_ & _ & _ & _ & _ & _ & _ & Hcase).
    rewrite Eseg in Hcase. cbn [fst snd] in Hcase.
    unfold set_active in Hcases. cbn in Hcases. rewrite set_last_snoc in Hcases.
    destruct Hcases as [[-> ->]|(Hok & -> & Hold & H0 & H1)]; cbn [segments].
    + split_and!; try done. intros _ off ->.
      destruct res1 as [off1 [e|]]; [done|]. cbn in Hres, Hcase. injection Hres as ->.
      destruct Hcase as [(_ & -> & _)|(? & _)]; [|done]. by apply Hnew.
    + destruct (extend_fresh_data fs1 fs' (pre ++ [a1]) (next_ino fs1) (nextOffset a + 1) c)
        as [Hd2 Hkeep2]; try done.
      split_and!; try done.
      * intros o r0 Hh. by apply Hkeep2, Hkeep.
      * intros _ off ->. destruct res1 as [off1 [e|]]; [done|]. cbn in Hres, Hcase.
        injection Hres as ->.
        destruct Hcase as [(_ & -> & _)|(? & _)]; [|done]. by apply Hkeep2, Hnew.
Qed.

(** ** [Log.Truncate] and the records *)

Lemma Log_Truncate_data c fs l lowest fs' l' err :
  log_shape c fs l -> log_data fs l ->
  Log_Truncate fs l lowest = (fs', l', err) ->
  forall x, x ∈ segments l' ->
    x ∈ segments l /\ seg_data fs' x /\ forall k, seg_at fs' x k = seg_at fs x k.
Proof.
  intros Hshape Hdata E x Hx.
  destruct (Log_Truncate_shape c fs l lowest fs' l' err Hshape E)
    as (_ & _ & Hsegs & _ & _ & _ & Hcont).
  pose proof Hshape as [Hc Hcfg Hfs Hsh Hlv Hch Ho Hact].
  rewrite Hsegs in Hx. apply list_elem_of_filter in Hx as [Hgt Hx].
  unfold log_data in Hdata. rewrite Forall_forall in Hsh, Hlv, Hdata.
  pose proof (chain_NoDup_bases _ Hch) as Hnd.
  assert (Hother : forall s, s ∈ segments l -> nextOffset s <= wrap64 (lowest + 1) ->
            f_ino (st_file (store x)) <> f_ino (st_file (store s)) /\
            f_ino (i_file (index_ x)) <> f_ino (st_file (store s))).
  { intros s Hs Hle.
    assert (Hb : baseOffset x <> baseOffset s).
    { intros Eb. assert (x = s) by (by eapply (NoDup_fmap_elem baseOffset)). subst. lia. }
    destruct (segs_inos_distinct c fs x s Hfs (Hsh x Hx) (Hsh s Hs) (Hlv x Hx) (Hlv s Hs) Hb)
      as (? & _ & ? & _). done. }
  assert (Hc1 : contents fs' (f_ino (st_file (store x)))
                = contents fs (f_ino (st_file (store x)))).
  { apply Hcont. intros s Hs Hle. by destruct (Hother s Hs Hle). }
  assert (Hc2 : contents fs' (f_ino (i_file (index_ x)))
                = contents fs (f_ino (i_file (index_ x)))).
  { apply Hcont. intros s Hs Hle. by destruct (Hother s Hs Hle). }
  split_and!; [done| |].
  - apply (seg_data_frame fs); auto.
  - intros k. by apply seg_at_frame.
Qed.

(** ** Every reachable state is well formed *)

Lemma Config_ok_defaults c :
  Config_ok c ->
  0 < MaxIndexBytes (Config_defaults c) < 2 ^ 63 /\
  MaxIndexBytes (Config_defaults c) <= endWidth * 2 ^ 32.
Proof.
  intros (_ & [? ?] & _ & Hcap). rewrite Config_defaults_index.
  unfold endWidth, offWidth, posWidth in *.
  destruct (Z.eqb_spec (MaxIndexBytes c) 0); lia.
Qed.

Lemma reachable_Config_ok c fs l : reachable c fs l -> Config_ok c.
Proof. by induction 1. Qed.

Lemma reachable_inv c fs l :
  reachable c fs l -> log_shape (Config_defaults c) fs l /\ log_data fs l.
Proof.
  intros Hreach. pose proof (reachable_Config_ok c fs l Hreach) as Hok.
  destruct (Config_ok_defaults c Hok) as [Hcfg Hcap].
  induction Hreach as [fs l _ E|fs l r fs' l' r' res Hr IH Hb E
                  |fs l off fs' l' res Hr IH Hoff E
                  |fs l lowest fs' l' err Hr IH Hlow E].
  - destruct Hok as (_ & _ & Hinit & _).
    destruct (NewLog_empty c Hinit Hcfg) as (fs0 & E0 & Hshape & H0 & H1).
    rewrite E0 in E. injection E as <- <-. split; [done|].
    constructor; [|done]. by apply fresh_segment_data.
  - destruct IH as [IHs IHd]. split.
    + destruct (Log_Append_shape _ fs l r fs' l' r' res IHs) as (_ & _ & _ & ? & _); try done.
      intros a Ha. unfold append_in_bounds in Hb. rewrite Ha in Hb. tauto.
    + by destruct (Log_Append_data _ fs l r fs' l' r' res IHs IHd Hcap Hb E).
  - destruct IH as [IHs IHd]. split.
    + by destruct (Log_Read_shape _ fs l off fs' l' res IHs E).
    + by destruct (Log_Read_data _ fs l off fs' l' res IHs IHd Hcap E).
  - destruct IH as [IHs IHd]. split.
    + by destruct (Log_Truncate_shape _ fs l lowest fs' l' err IHs E) as (_ & ? & _).
    + unfold log_data. rewrite Forall_forall. intros x Hx.
      by destruct (Log_Truncate_data _ fs l lowest fs' l' err IHs IHd E x Hx) as (_ & ? & _).
Qed.

End LogData.

(** ** The wire codec is a codec *)

Lemma varint_roundtrip fuel : forall v rest,
  (0 < fuel)%nat -> 0 <= v < 128 ^ Z.of_nat fuel ->
  Wire.varint_get fuel (Wire.varint_put fuel v ++ rest) = Some (v, rest).
Proof.
  induction fuel as [|k IH]; intros v rest Hpos Hv; [lia|].
  rewrite Nat2Z.inj_succ, Z.pow_succ_r in Hv by lia.
  cbn [Wire.varint_put]. destruct (Z.ltb_spec v 128) as [Hlt|Hge].
  - cbn [app Wire.varint_get]. rewrite Z_of_byte_of_Z, Z.mod_small by lia.
    destruct (Z.ltb_spec v 128); [done|lia].
  - cbn [app Wire.varint_get]. rewrite Z_of_byte_of_Z.
    assert (Hm : 0 <= v mod 128 < 128) by (apply Z.mod_pos_bound; lia).
    rewrite (Z.mod_small (v mod 128 + 128)) by lia.
    destruct (Z.ltb_spec (v mod 128 + 128) 128); [lia|].
    assert (Hq : 1 <= v / 128 < 128 ^ Z.of_nat k).
    { split; [apply Z.div_le_lower_bound; lia|]. apply Z.div_lt_upper_bound; lia. }
    rewrite IH.
    + f_equal. f_equal. pose proof (Z.div_mod v 128). lia.
    + destruct k; [cbn in Hq; lia|lia].
    + lia.
Qed.

Lemma get_put_offset off :
  0 <= off < 2 ^ 64 -> Wire.get_offset (Wire.put_offset off) = Some off.
Proof.
  intros Hoff. unfold Wire.put_offset.
  destruct (Z.eqb_spec off 0) as [->|Hne]; [done|].
  cbn [Wire.get_offset]. destruct (decide _) as [_|]; [|done].
  rewrite <- (app_nil_r (Wire.varint_put 10 off)).
  rewrite varint_roundtrip by (try (change (128 ^ Z.of_nat 10) with (2 ^ 70)); lia).
  destruct (Z.eqb_spec off 0); [done|done].
Qed.

Lemma wire_roundtrip r p :
  0 <= Offset r < 2 ^ 64 -> Wire.marshal r = Some p -> Wire.unmarshal p = Some r.
Proof.
  intros Hoff. unfold Wire.marshal.
  destruct (Z.leb_spec (2 ^ 31) (len (Wire.put_value (Value r) ++ Wire.put_offset (Offset r))))
    as [|Hsmall]; [done|].
  intros [= <-]. destruct r as [v off]. cbn [Value Offset] in *.
  destruct v as [|b v].
  - cbn [Wire.put_value app]. unfold Wire.unmarshal.
    pose proof (get_put_offset off Hoff) as Hg.
    destruct (Wire.put_offset off) as [|t rest] eqn:Eput.
    + cbn in Hg. by injection Hg as <-.
    + assert (t = Wire.tag_offset) as ->.
      { unfold Wire.put_offset in Eput. destruct (off =? 0); [done|]. by injection Eput. }
      destruct (decide (Wire.tag_offset = Wire.tag_value)) as [?|_]; [done|].
      by rewrite Hg.
  - remember (b :: v) as vv eqn:Evv.
    assert (Epv : Wire.put_value vv
                  = Wire.tag_value :: Wire.varint_put 10 (len vv) ++ vv) by by subst vv.
    rewrite Epv in *. clear Epv.
    cbn [app Wire.unmarshal].
    destruct (decide (Wire.tag_value = Wire.tag_value)) as [_|]; [|done].
    rewrite <- app_assoc.
    assert (Hlen : 0 < len vv < 2 ^ 31).
    { split; [subst vv; unfold len; cbn; lia|].
      rewrite len_app in Hsmall.
      unfold len in *. cbn [length] in Hsmall. rewrite length_app in Hsmall.
      pose proof (len_nonneg (Wire.put_offset off)). unfold len in *. lia. }
    rewrite varint_roundtrip by (try (change (128 ^ Z.of_nat 10) with (2 ^ 70)); lia).
    destruct (Z.eqb_spec (len vv) 0); [lia|].
    rewrite len_app.
    destruct (Z.ltb_spec (len vv + len (Wire.put_offset off)) (len vv));
      [pose proof (len_nonneg (Wire.put_offset off)); lia|].
    cbn [orb]. unfold len at 1 2. rewrite Nat2Z.id.
    rewrite drop_app_length, take_app_length. by rewrite get_put_offset.
Qed.

Global Instance wire_codec : Codec :=
  {| Marshal := Wire.marshal; Unmarshal := Wire.unmarshal; Unmarshal_Marshal := wire_roundtrip |}.

(** * Concrete runs

    Small logs built by running the model with the wire codec; the
    examples below evaluate the operations on them. *)

(** The configuration of the log tests: stores of at most 32 bytes. *)
Definition test_config : Config :=
  {| MaxStoreBytes := 32; MaxIndexBytes := 0; InitialOffset := 0 |}.

Definition hello : Record_ :=
  {| Value := list_byte_of_string "hello world"; Offset := 0 |}.

(** A fresh log over an empty directory. *)
Definition fresh_fs : FS := (NewLog emptyFS test_config).1.1.

Definition fresh_log : Log := (NewLog emptyFS test_config).1.2.

(** The same log after three appends of [hello]. *)
Definition three_fs : FS := (append_all fresh_fs fresh_log [hello; hello; hello]).1.1.

Definition three_log : Log := (append_all fresh_fs fresh_log [hello; hello; hello]).1.2.

(** The log of three records (whose highest offset is 2) after [Reset],
    and after [Truncate(2)]. *)
Definition reset_fs : FS := (Log_Reset three_fs three_log).1.1.

Definition reset_log : Log := (Log_Reset three_fs three_log).1.2.

Definition truncated_fs : FS := (Log_Truncate three_fs three_log 2).1.1.

Definition truncated_log : Log := (Log_Truncate three_fs three_log 2).1.2.

(** A peer as the agent announces it: its address is under [rpc_addr]. *)
Definition peer : discovery.Member :=
  {| discovery.Name := "1";
     discovery.Tags := {[ "rpc_addr"%string := "127.0.0.1:8401"%string ]} |}.

Definition local_node : discovery.MemberShip (list discovery.call) :=
  discovery.mkMemberShip "0" [] [].

(** The zero configuration, which [NewLog] fills with its defaults of 1024
    bytes, and a record without payload. *)
Definition zero_config : Config :=
  {| MaxStoreBytes := 0; MaxIndexBytes := 0; InitialOffset := 0 |}.

Definition empty_record : Record_ := {| Value := []; Offset := 0 |}.

Definition default_fs : FS := (NewLog emptyFS zero_config).1.1.

Definition default_log : Log := (NewLog emptyFS zero_config).1.2.

(** The default log after 85 appends of [empty_record]. *)
Definition full_fs : FS := (append_all default_fs default_log (replicate 85 empty_record)).1.1.

Definition full_log : Log := (append_all default_fs default_log (replicate 85 empty_record)).1.2.




(** The log of three records after [Truncate(1)]. *)
Definition cut_fs : FS := (Log_Truncate three_fs three_log 1).1.1.

Definition cut_log : Log := (Log_Truncate three_fs three_log 1).1.2.

(** A directory with the store files of two base offsets and no index
    file. *)
Definition stray_fs : FS :=
  {| names := {[ "0.store"%string := 0%nat; "1.store"%string := 1%nat ]};
     inodes := {[ 0%nat := []; 1%nat := [] ]};
     next_ino := 2 |}.

(** A directory with the two files of base offset 0 and a file that is
    not a segment file; its name parses to 0. *)
Definition foreign_fs : FS :=
  {| names := {[ "0.store"%string := 0%nat; "0.index"%string := 1%nat;
                 "lock"%string := 2%nat ]};
     inodes := {[ 0%nat := []; 1%nat := []; 2%nat := [] ]};
     next_ino := 3 |}.

(** The log of three records, closed, and the log that [NewLog] builds
    over its directory. *)
Definition closed_fs : FS := (Log_Close three_fs three_log).1.1.

Definition closed_log : Log := (Log_Close three_fs three_log).1.2.

Definition again_fs : FS := (NewLog closed_fs test_config).1.1.

Definition again_log : Log := (NewLog closed_fs test_config).1.2.

(** The store of the fresh log's segment and the payload of [hello]. *)
Definition fresh_store : Store := store (fresh_segment 0 0 (Config_defaults test_config)).

Definition fresh_index : index := index_ (fresh_segment 0 0 (Config_defaults test_config)).

(** The one segment of [full_log], whose index holds 85 entries. *)
Definition full_segment : segment :=
  default (fresh_segment 0 0 (Config_defaults zero_config)) (last (segments full_log)).

(** The log of three records after a fourth append, and after a read of
    offset 1. *)
Definition four_fs : FS := (Log_Append three_fs three_log hello).1.1.1.

Definition four_log : Log := (Log_Append three_fs three_log hello).1.1.2.

Definition read_fs : FS := (Log_Read three_fs three_log 1).1.1.

Definition read_log : Log := (Log_Read three_fs three_log 1).1.2.

(** A second peer, and the local node as a member of an event. *)
Definition peer2 : discovery.Member :=
  discovery.mkMember "2" {[ "rpc_addr"%string := "127.0.0.1:8402"%string ]}.

Definition self : discovery.Member :=
  discovery.mkMember "0" {[ "rpc_addr"%string := "127.0.0.1:8400"%string ]}.

(** The replicator after [Join] of two servers. *)
Definition two_servers : replicator.Replicator :=
  {| replicator.servers := Some {[ "1"%string := 1%nat; "2"%string := 2%nat ]};
     replicator.closed := false; replicator.close := Some 0%nat;
     replicator.chans := [false; false; false];
     replicator.started := [("127.0.0.1:8401"%string, 1%nat); ("127.0.0.1:8402"%string, 2%nat)] |}.

(** An authorizer that allows everything, the first and the last segment of
    the log of three records, and two streams of a client that takes every
    message. *)
Definition allow_all : string -> string -> string -> option error := fun _ _ _ => None.

Definition three_first : segment :=
  default (fresh_segment 0 0 test_config) (head (segments three_log)).

Definition three_last : segment :=
  default (fresh_segment 0 0 test_config) (last (segments three_log)).

Definition taker : server.ConsumeStreamServer :=
  {| server.cs_subject := "root"; server.cs_rounds := 4; server.cs_send := fun _ => None |}.


(** The log of three records after [Truncate(2)], which removed the active
    segment, and after one more append. *)
Definition stale_fs : FS := (Log_Append truncated_fs truncated_log hello).1.1.1.

Definition stale_log : Log := (Log_Append truncated_fs truncated_log hello).1.1.2.

(** A directory with the two files of base offset 0; the index file holds
    2048 bytes, twice the default of [MaxIndexBytes]. *)
Definition long_fs : FS :=
  {| names := {[ "0.store"%string := 0%nat; "0.index"%string := 1%nat ]};
     inodes := {[ 0%nat := []; 1%nat := replicate 2048 "000"%byte ]};
     next_ino := 2 |}.

(** * The properties of the specification *)

(** ** Appending *)

Lemma fresh_NewLog : NewLog emptyFS test_config = (fresh_fs, fresh_log, None).
Proof. vm_compute. reflexivity. Qed.

Lemma test_config_ok : Config_ok test_config.
Proof. unfold Config_ok, uint64, test_config, endWidth, offWidth, posWidth; cbn. lia. Qed.

Lemma fresh_reachable : reachable test_config fresh_fs fresh_log.
Proof. apply reach_NewLog; [apply test_config_ok | apply fresh_NewLog]. Qed.

Section AppendOffsets.

Context `{Codec}.

(** C10. [segment.Append] writes the segment's current [nextOffset] into the
    caller's record before it marshals it, and changes nothing else of the
    record.  The write stays on every path: when the call fails (marshal,
    store append or index write) the record still carries the offset,
    the returned offset is 0 and [nextOffset] is the one before the call;
    when it succeeds the returned offset is the stamped one and
    [nextOffset] has advanced by one. *)
Theorem C10_segment_Append_stamps_record (fs : FS) (s : segment) (r : Record_) :
  let res := segment_Append fs s r in
  res.1.2 = set_Offset r (nextOffset s) /\
  Offset res.1.2 = nextOffset s /\
  Value res.1.2 = Value r /\
  (res.2.2 <> None -> res.2.1 = 0 /\ nextOffset res.1.1.2 = nextOffset s) /\
  (res.2.2 = None ->
   res.2.1 = nextOffset s /\ nextOffset res.1.1.2 = wrap64 (nextOffset s + 1)).
Proof.
  intros res.
  destruct (segment_Append_gen fs s r) as (_ & Hr & _ & _ & _ & _ & _ & Hcase).
  fold res in Hr, Hcase. rewrite Hr.
  split; [done|]. split; [done|]. split; [done|]. split.
  - intros Herr. destruct Hcase as [(E & _)|(_ & ? & ? & _)]; [done|done].
  - intros Hok. destruct Hcase as [(_ & ? & ? & _)|(E & _)]; [done|done].
Qed.

(** C1. On a log that [NewLog] created over an empty directory with
    [InitialOffset] 0, the offsets returned by the [Append] calls that
    succeed are 0, 1, 2, ... in this order, whatever the records and however
    many segments the appends roll over (fewer than [2^64] calls, so that
    the counter does not wrap). *)
Theorem C1_append_offsets_contiguous (c : Config) (fs : FS) (l : Log)
    (records : list Record_) :
  uint64 (MaxIndexBytes c) -> InitialOffset c = 0 ->
  NewLog emptyFS c = (fs, l, None) ->
  len records < 2 ^ 64 ->
  successes (append_all fs l records).2 =
    Z.of_nat <$> seq 0 (length (successes (append_all fs l records).2)).
Proof.
  intros Hidx Hinit Hnew Hlen.
  pose proof (NewLog_empty_cfg c fs l Hidx Hnew) as Hcfg.
  destruct (NewLog_empty c) as (fs0 & E & Hshape & _); [rewrite Hinit; unfold uint64; lia|done|].
  rewrite Hnew in E. injection E as -> ->.
  etrans.
  - apply (append_all_offsets _ records fs0 _ _ Hshape eq_refl).
    cbn [fresh_segment nextOffset]. rewrite Hinit. lia.
  - apply list_fmap_ext. intros i x _. cbn [fresh_segment nextOffset]. rewrite Hinit. lia.
Qed.

End AppendOffsets.

Lemma C1_witness :
  successes (append_all fresh_fs fresh_log [hello; hello; hello]).2 =
    Z.of_nat <$> seq 0 (length (successes (append_all fresh_fs fresh_log [hello; hello; hello]).2)).
Proof.
  apply (C1_append_offsets_contiguous test_config).
  - unfold uint64, test_config; cbn; lia.
  - reflexivity.
  - apply fresh_NewLog.
  - vm_compute. reflexivity.
Defined.

(** ** The structural invariant *)

Lemma three_log_invariant : log_invariant three_log.
Proof.
  split; [vm_compute; discriminate|]. split; [|vm_compute; reflexivity].
  vm_compute. repeat split.
Qed.

(** C6. [Reset] and [Truncate] do not keep the structural invariant.
    [Reset] closes the segments and runs [setup] again without emptying the
    slice, so the reopened segments are appended after the closed ones: the
    base offsets 0, 2 become 0, 2, 0, 2.  [Truncate(lowest)] with [lowest]
    at the highest offset removes every segment, the active one included:
    the slice is empty and [LowestOffset] indexes out of range. *)
Theorem C6_invariant_broken_by_Reset_and_Truncate :
  log_invariant three_log /\
  HighestOffset three_log = (2, None) /\
  (Log_Reset three_fs three_log).2 = None /\
  baseOffset <$> segments reset_log = [0; 2; 0; 2] /\
  (log_invariant reset_log -> False) /\
  (Log_Truncate three_fs three_log 2).2 = None /\
  segments truncated_log = [] /\
  (log_invariant truncated_log -> False) /\
  LowestOffset truncated_log = (0, Some Panic).
Proof.
  split; [apply three_log_invariant|].
  split; [vm_compute; reflexivity|].
  split; [vm_compute; reflexivity|].
  split; [vm_compute; reflexivity|].
  split.
  { intros (_ & Hc & _). vm_compute in Hc. destruct Hc as (_ & _ & Hlt & _).
    discriminate Hlt. }
  split; [vm_compute; reflexivity|].
  split; [vm_compute; reflexivity|].
  split; [|vm_compute; reflexivity].
  intros (Hne & _). apply Hne. vm_compute. reflexivity.
Qed.

(** ** Reading back what was appended *)

(** C2. Two runs in which an offset that [Append] returned cannot be read.
    After [Reset] the slice still starts with the closed segments, and
    [Read] takes the first segment that covers the offset: offset 0, which
    read back [hello] before, now fails on the closed store file.  After
    [Truncate] has removed every segment, [Append] writes through the stale
    [activeSegment] pointer: it returns offset 3 and no error, but the
    segment is not in the slice and offset 3 is out of range. *)
Theorem C2_appended_offset_not_readable :
  (append_all fresh_fs fresh_log [hello; hello; hello]).2
    = [(0, None); (1, None); (2, None)] /\
  (Log_Read three_fs three_log 0).2 = (Some (set_Offset hello 0), None) /\
  (Log_Reset three_fs three_log).2 = None /\
  (Log_Read reset_fs reset_log 0).2 = (None, Some ErrClosed) /\
  (Log_Truncate three_fs three_log 2).2 = None /\
  (Log_Append truncated_fs truncated_log hello).2 = (3, None) /\
  (Log_Append truncated_fs truncated_log hello).1.2 = set_Offset hello 3 /\
  (Log_Read (Log_Append truncated_fs truncated_log hello).1.1.1
            (Log_Append truncated_fs truncated_log hello).1.1.2 3).2
    = (None, Some (ErrorOffsetOutOfRange 3)).
Proof. repeat split; vm_compute; reflexivity. Qed.

(** ** Membership *)

Lemma join_loop_one (m : discovery.MemberShip (list discovery.call)) (member : discovery.Member) :
  discovery.NodeName m <> discovery.Name member ->
  discovery.handler (discovery.join_loop m [member]) =
    discovery.handler m ++
      [discovery.JoinCall (discovery.Name member) (discovery.tag member "rcp_addr")].
Proof.
  intros Hne. cbn [discovery.join_loop]. unfold discovery.isLocal.
  rewrite bool_decide_eq_false_2 by done. reflexivity.
Qed.

(** C9. For a joining peer, [handleJoin] reads the tag [rcp_addr], not
    [rpc_addr]: the handler's [Join] receives the peer's name and, for a
    peer that carries its address under [rpc_addr], the empty string. *)
Theorem C9_Join_receives_rcp_addr_tag :
  discovery.tag peer "rpc_addr" = "127.0.0.1:8401"%string /\
  discovery.handler
    (discovery.eventHandler local_node
       [discovery.mkEvent discovery.EventMemberJoin [peer]])
  = [discovery.JoinCall "1" EmptyString].
Proof. split; vm_compute; reflexivity. Qed.

(** ** The range of a log *)

Lemma chain_range c segs : forall s0 a s,
  chain segs -> Forall (seg_shape c) segs ->
  head segs = Some s0 -> last segs = Some a -> s ∈ segs ->
  baseOffset s0 <= baseOffset s /\ nextOffset s <= nextOffset a.
Proof.
  induction segs as [|x rest IH]; intros s0 a s Hch Hsh Hhd Hla Hin; [done|].
  injection Hhd as ->. apply Forall_cons in Hsh as [Hx Hrest].
  destruct rest as [|y rest'].
  - injection Hla as ->. apply list_elem_of_singleton in Hin as ->. lia.
  - apply chain_cons2 in Hch as (Hlt & Hmeet & Hch').
    change (last (y :: rest') = Some a) in Hla.
    apply elem_of_cons in Hin as [->|Hin].
    + destruct (IH y a y Hch' Hrest eq_refl Hla) as [_ ?]; [left|].
      pose proof (sh_next _ _ (Forall_inv Hrest)). lia.
    + destruct (IH y a s Hch' Hrest eq_refl Hla Hin). lia.
Qed.

Lemma chain_cover c segs : forall s0 a o,
  chain segs -> Forall (seg_shape c) segs ->
  head segs = Some s0 -> last segs = Some a ->
  baseOffset s0 <= o < nextOffset a ->
  exists s, s ∈ segs /\ in_segment o s.
Proof.
  induction segs as [|x rest IH]; intros s0 a o Hch Hsh Hhd Hla Ho; [done|].
  injection Hhd as ->. apply Forall_cons in Hsh as [Hx Hrest].
  destruct rest as [|y rest'].
  - injection Hla as ->. exists a. split; [left|done].
  - apply chain_cons2 in Hch as (Hlt & Hmeet & Hch').
    change (last (y :: rest') = Some a) in Hla.
    destruct (Z.lt_ge_cases o (nextOffset s0)) as [Hin|Hout].
    + exists s0. split; [left|]. unfold in_segment. lia.
    + destruct (IH y a o Hch' Hrest eq_refl Hla) as (s & Hs & Hso); [lia|].
      exists s. split; [by right|done].
Qed.

Section ReadRange.

Context `{Codec}.

Lemma Log_Read_outside fs l o :
  (forall s, s ∈ segments l -> ~ in_segment o s) ->
  Log_Read fs l o = (fs, l, (None, Some (ErrorOffsetOutOfRange o))).
Proof.
  intros Hout. unfold Log_Read.
  assert (E : list_find (in_segment o) (segments l) = None).
  { apply list_find_None, Forall_forall. exact Hout. }
  by rewrite E.
Qed.

Lemma LowestOffset_head l lo :
  LowestOffset l = (lo, None) -> exists s0, head (segments l) = Some s0 /\ lo = baseOffset s0.
Proof.
  unfold LowestOffset. destruct (segments l) as [|s0 rest]; [done|].
  intros [= <-]. by exists s0.
Qed.

Lemma HighestOffset_last c l hi :
  Forall (seg_shape c) (segments l) ->
  HighestOffset l = (hi, None) ->
  exists a, last (segments l) = Some a /\
            (nextOffset a = 0 /\ hi = 0 \/ 0 < nextOffset a /\ hi = nextOffset a - 1).
Proof.
  intros Hsh. unfold HighestOffset. destruct (last (segments l)) as [a|] eqn:Hla; [|done].
  assert (Ha : seg_shape c a).
  { eapply Forall_forall; [exact Hsh|]. by apply last_Some_elem_of. }
  pose proof (sh_next _ _ Ha). pose proof (sh_base _ _ Ha).
  destruct (Z.eqb_spec (nextOffset a) 0) as [E|E]; intros [= <-]; exists a; split; try done.
  - by left.
  - right. split; [lia|]. apply wrap64_small. lia.
Qed.

End ReadRange.

(** ** Reaching a state by appends *)

Section Runs.

Context `{Codec}.

Lemma bounds_check_ok l r : bounds_check l r = true -> append_in_bounds l r.
Proof.
  unfold bounds_check, append_in_bounds. destruct (activeSegment l) as [a|]; [|done].
  intros [Hn Hp]%andb_prop. split; [lia|].
  intros p Ep. rewrite Ep in Hp. lia.
Qed.

Lemma append_all_reachable c records : forall fs l,
  reachable c fs l -> appends_check fs l records = true ->
  reachable c (append_all fs l records).1.1 (append_all fs l records).1.2.
Proof.
  induction records as [|r rest IH]; intros fs l Hre Hchk; [done|].
  cbn [appends_check] in Hchk. apply andb_prop in Hchk as [Hb Hrest].
  cbn [append_all]. destruct (Log_Append fs l r) as [[[fs1 l1] r1] res] eqn:Eapp.
  specialize (IH fs1 l1).
  destruct (append_all fs1 l1 rest) as [[fs2 l2] outs]. cbn in *.
  apply IH; [|done].
  eapply reach_Append; [exact Hre|by apply bounds_check_ok|exact Eapp].
Qed.

End Runs.

Lemma three_reachable : reachable test_config three_fs three_log.
Proof.
  apply (append_all_reachable test_config [hello; hello; hello]).
  - apply fresh_reachable.
  - vm_compute. reflexivity.
Qed.

Section ReadRangeTheorem.

Context `{Codec}.

(** C3 (amended).  In every state of a log created over an empty directory,
    [Read(o)] fails with [ErrorOffsetOutOfRange{o}] for every [o] at or
    above [HighestOffset + 1] and every [o] below [LowestOffset].  For
    [LowestOffset <= o <= HighestOffset] it returns the record of offset
    [o], provided the last segment's [nextOffset] is not 0, that is,
    provided [HighestOffset] did not return 0 through its guard for a log
    that starts at 0 and holds nothing. *)
Theorem C3_Read_out_of_range_exactly_outside (c : Config) (fs : FS) (l : Log) (lo hi o : Z) :
  reachable c fs l ->
  LowestOffset l = (lo, None) -> HighestOffset l = (hi, None) ->
  (hi + 1 <= o \/ o < lo ->
   Log_Read fs l o = (fs, l, (None, Some (ErrorOffsetOutOfRange o)))) /\
  (forall a, last (segments l) = Some a -> nextOffset a <> 0 -> lo <= o <= hi ->
   exists fs' l' r, Log_Read fs l o = (fs', l', (Some r, None)) /\ Offset r = o).
Proof.
  intros Hre Hlo Hhi.
  pose proof (reachable_Config_ok _ _ _ Hre) as Hok.
  destruct (Config_ok_defaults _ Hok) as [_ Hmax].
  destruct (reachable_inv _ _ _ Hre) as [Hshape Hdata].
  destruct (LowestOffset_head _ _ Hlo) as (s0 & Hhd & ->).
  destruct (HighestOffset_last _ _ _ (ls_segs _ _ _ Hshape) Hhi) as (a & Hla & Hcase).
  split.
  - intros Ho. apply Log_Read_outside. intros s Hs [Hs1 Hs2].
    destruct (chain_range _ _ s0 a s (ls_chain _ _ _ Hshape) (ls_segs _ _ _ Hshape) Hhd Hla Hs).
    lia.
  - intros a' Hla' Hne Ho. rewrite Hla in Hla'. injection Hla' as <-.
    destruct (chain_cover _ _ s0 a o (ls_chain _ _ _ Hshape) (ls_segs _ _ _ Hshape) Hhd Hla)
      as (s & Hs & Hin); [lia|].
    destruct (holds_in_range fs l s o Hdata Hs Hin) as (r & Hr & Hoff).
    destruct (Log_Read_holds _ fs l o r Hshape Hdata Hmax Hr) as (fs' & l' & E).
    by exists fs', l', r.
Qed.

End ReadRangeTheorem.

(** The fresh log starts at 0 and holds nothing: [LowestOffset] and
    [HighestOffset] both return 0, and offset 0 is out of range. *)
Lemma C3_counterexample :
  reachable test_config fresh_fs fresh_log /\
  LowestOffset fresh_log = (0, None) /\ HighestOffset fresh_log = (0, None) /\
  0 <= 0 <= 0 /\
  (Log_Read fresh_fs fresh_log 0).2 = (None, Some (ErrorOffsetOutOfRange 0)).
Proof.
  split; [apply fresh_reachable|].
  split; [vm_compute; reflexivity|]. split; [vm_compute; reflexivity|].
  split; [lia|]. vm_compute. reflexivity.
Qed.

Lemma C3_witness :
  (2 + 1 <= 1 \/ 1 < 0 ->
   Log_Read three_fs three_log 1 =
     (three_fs, three_log, (None, Some (ErrorOffsetOutOfRange 1)))) /\
  (forall a, last (segments three_log) = Some a -> nextOffset a <> 0 -> 0 <= 1 <= 2 ->
   exists fs' l' r, Log_Read three_fs three_log 1 = (fs', l', (Some r, None)) /\ Offset r = 1).
Proof.
  apply (C3_Read_out_of_range_exactly_outside test_config three_fs three_log 0 2 1).
  - apply three_reachable.
  - vm_compute. reflexivity.
  - vm_compute. reflexivity.
Defined.

(** ** A full index *)



Section AppendErrors.

Context `{Codec}.




End AppendErrors.




(** ** Append, then read *)

Section AppendRead.

Context `{Codec}.

(** On a log whose active segment is in the slice, a record that [Append]
    accepted reads back at the returned offset: the payload is the
    caller's, the offset is the one [Append] stamped. *)
Lemma Append_then_Read c fs l r fs' l' r' off :
  reachable c fs l -> orphan l = None -> append_in_bounds l r ->
  Log_Append fs l r = (fs', l', r', (off, None)) ->
  r' = set_Offset r off /\
  exists fs2 l2, Log_Read fs' l' off = (fs2, l2, (Some (set_Offset r off), None)).
Proof.
  intros Hre Horph Hb Happ.
  pose proof (reachable_Config_ok _ _ _ Hre) as Hok.
  destruct (Config_ok_defaults _ Hok) as [_ Hmax].
  destruct (reachable_inv _ _ _ Hre) as [Hshape Hdata].
  assert (Hre' : reachable c fs' l') by (eapply reach_Append; eauto).
  destruct (reachable_inv _ _ _ Hre') as [Hshape' Hdata'].
  assert (Hbound : forall a, activeSegment l = Some a -> nextOffset a < MaxUint64).
  { intros a Ha. unfold append_in_bounds in Hb. rewrite Ha in Hb. tauto. }
  destruct (Log_Append_shape _ _ _ _ _ _ _ _ Hshape Hbound Happ)
    as (a & a' & Ha & _ & _ & Hr' & Hcase).
  destruct Hcase as [[[= Hoff] _]|(e & [=] & _)].
  split; [by rewrite Hr', <- Hoff|].
  destruct (Log_Append_data _ _ _ _ _ _ _ _ Hshape Hdata Hmax Hb Happ) as (_ & _ & Hholds).
  apply (Log_Read_holds _ fs' l' off _ Hshape' Hdata' Hmax).
  by apply Hholds.
Qed.

End AppendRead.

(** ** Truncate *)

Section TruncateTheorem.

Context `{Codec}.

(** C7.  On a log created over an empty directory, [Truncate(lowest)]
    returns no error and keeps, in their order, exactly the segments whose
    [nextOffset] is above [lowest + 1] (computed in 64 bits); the store and
    index files of the others are gone from the directory.  Every offset
    of a kept segment reads as it did before the call, and every offset
    below all kept segments fails with [ErrorOffsetOutOfRange] carrying
    it. *)
Theorem C7_Truncate_removes_low_segments (c : Config) (fs : FS) (l : Log) (lowest : Z)
    (fs' : FS) (l' : Log) (err : option error) :
  reachable c fs l -> uint64 lowest ->
  Log_Truncate fs l lowest = (fs', l', err) ->
  err = None /\
  (lowest < MaxUint64 -> wrap64 (lowest + 1) = lowest + 1) /\
  segments l' = filter (fun s => wrap64 (lowest + 1) < nextOffset s) (segments l) /\
  (forall s, s ∈ segments l -> nextOffset s <= wrap64 (lowest + 1) ->
     names fs' !! store_name (baseOffset s) = None /\
     names fs' !! index_name (baseOffset s) = None) /\
  (forall s o, s ∈ segments l' -> in_segment o s ->
     exists r fs1 l1 fs2 l2,
       Log_Read fs l o = (fs1, l1, (Some r, None)) /\
       Log_Read fs' l' o = (fs2, l2, (Some r, None)) /\ Offset r = o) /\
  (forall o, (forall s, s ∈ segments l' -> o < baseOffset s) ->
     Log_Read fs' l' o = (fs', l', (None, Some (ErrorOffsetOutOfRange o)))).
Proof.
  intros Hre Hlow Htr.
  pose proof (reachable_Config_ok _ _ _ Hre) as Hok.
  destruct (Config_ok_defaults _ Hok) as [_ Hmax].
  destruct (reachable_inv _ _ _ Hre) as [Hshape Hdata].
  assert (Hre' : reachable c fs' l') by (eapply reach_Truncate; eauto).
  destruct (reachable_inv _ _ _ Hre') as [Hshape' Hdata'].
  destruct (Log_Truncate_shape _ _ _ _ _ _ _ Hshape Htr)
    as (-> & _ & Hsegs & _ & Hgone & _ & _).
  split; [done|]. split.
  { intros Hlt. apply wrap64_small. unfold uint64, MaxUint64 in *. lia. }
  split; [done|]. split; [done|]. split.
  - intros s o Hs Hin.
    destruct (Log_Truncate_data _ _ _ _ _ _ _ Hshape Hdata Htr s Hs) as (Hs_old & _ & Hat).
    destruct (holds_in_range fs' l' s o Hdata' Hs Hin) as (r & Hr & Hoff).
    assert (Hr_old : holds fs (segments l) o r).
    { destruct Hr as (x & Hx & Hxin & Hxat).
      destruct (Log_Truncate_data _ _ _ _ _ _ _ Hshape Hdata Htr x Hx) as (Hx_old & _ & Hxat').
      exists x. split; [done|]. split; [done|]. by rewrite <- Hxat'. }
    destruct (Log_Read_holds _ fs l o r Hshape Hdata Hmax Hr_old) as (fs1 & l1 & E1).
    destruct (Log_Read_holds _ fs' l' o r Hshape' Hdata' Hmax Hr) as (fs2 & l2 & E2).
    by exists r, fs1, l1, fs2, l2.
  - intros o Ho. apply Log_Read_outside. intros s Hs [Hb _]. specialize (Ho s Hs). lia.
Qed.

End TruncateTheorem.

Lemma C7_witness :
  @None error = None /\
  (1 < MaxUint64 -> wrap64 (1 + 1) = 1 + 1) /\
  segments cut_log = filter (fun s => wrap64 (1 + 1) < nextOffset s) (segments three_log) /\
  (forall s, s ∈ segments three_log -> nextOffset s <= wrap64 (1 + 1) ->
     names cut_fs !! store_name (baseOffset s) = None /\
     names cut_fs !! index_name (baseOffset s) = None) /\
  (forall s o, s ∈ segments cut_log -> in_segment o s ->
     exists r fs1 l1 fs2 l2,
       Log_Read three_fs three_log o = (fs1, l1, (Some r, None)) /\
       Log_Read cut_fs cut_log o = (fs2, l2, (Some r, None)) /\ Offset r = o) /\
  (forall o, (forall s, s ∈ segments cut_log -> o < baseOffset s) ->
     Log_Read cut_fs cut_log o = (cut_fs, cut_log, (None, Some (ErrorOffsetOutOfRange o)))).
Proof.
  refine (C7_Truncate_removes_low_segments test_config three_fs three_log 1
            cut_fs cut_log None three_reachable _ _).
  - unfold uint64. lia.
  - vm_compute. reflexivity.
Defined.

(** ** The listing that [setup] sorts *)

Lemma every_other_twice bs : every_other (twice bs) = bs.
Proof.
  induction bs as [|b bs IH]; [done|].
  change (twice (b :: bs)) with (b :: b :: twice bs).
  cbn [every_other]. by rewrite IH.
Qed.

Lemma twice_Permutation bs bs' : bs ≡ₚ bs' -> twice bs ≡ₚ twice bs'.
Proof. intros Hp. unfold twice. by rewrite Hp. Qed.

Lemma twice_sorted bs : StronglySorted Z.le bs -> StronglySorted Z.le (twice bs).
Proof.
  induction 1 as [|b bs Hs IH Hall]; [constructor|].
  change (twice (b :: bs)) with (b :: b :: twice bs).
  assert (Hall' : Forall (Z.le b) (twice bs)).
  { apply Forall_forall. intros x Hx. apply list_elem_of_bind in Hx as (y & Hxy & Hy).
    pose proof (proj1 (Forall_forall _ _) Hall y Hy).
    apply elem_of_cons in Hxy as [->|Hxy]; [done|].
    apply list_elem_of_singleton in Hxy as ->. done. }
  constructor; [constructor; [done|done]|]. constructor; [lia|done].
Qed.

Lemma files_of_bases_NoDup bs : NoDup bs -> Forall uint64 bs -> NoDup (files_of_bases bs).
Proof.
  intros Hnd Hu. apply NoDup_bind; [| |done].
  - intros b1 b2 name H1 H2 Hn1 Hn2.
    pose proof (proj1 (Forall_forall _ _) Hu b1 H1) as Hb1.
    pose proof (proj1 (Forall_forall _ _) Hu b2 H2) as Hb2.
    apply elem_of_cons in Hn1 as [->|Hn1];
      [|apply list_elem_of_singleton in Hn1 as ->];
      (apply elem_of_cons in Hn2 as [Hn2|Hn2];
       [|apply list_elem_of_singleton in Hn2]).
    + by apply store_name_inj.
    + by apply store_index_name_ne in Hn2.
    + symmetry in Hn2. by apply store_index_name_ne in Hn2.
    + by apply index_name_inj.
  - intros b Hb.
    apply NoDup_cons. split; [|apply NoDup_singleton].
    intros Hin. apply list_elem_of_singleton in Hin. by apply store_index_name_ne in Hin.
Qed.

Lemma parse_files_of_bases bs :
  Forall uint64 bs -> parse_baseOffset <$> files_of_bases bs = twice bs.
Proof.
  induction 1 as [|b bs Hb Hu IH]; [done|].
  change (files_of_bases (b :: bs))
    with (store_name b :: index_name b :: files_of_bases bs).
  change (twice (b :: bs)) with (b :: b :: twice bs).
  rewrite !fmap_cons, IH.
  rewrite parse_store_name, parse_index_name by done. done.
Qed.

(** The sorted base offsets of a directory of paired files: each base
    twice, in ascending order. *)
Lemma sorted_listing fs bs :
  paired fs bs ->
  merge_sort Z.le (map parse_baseOffset (os_ReadDir fs)) = twice (merge_sort Z.le bs).
Proof.
  intros (Hnd & Hu & Hnames).
  apply (StronglySorted_unique Z.le).
  - apply StronglySorted_merge_sort; apply _.
  - apply twice_sorted, StronglySorted_merge_sort; apply _.
  - rewrite merge_sort_Permutation.
    rewrite (twice_Permutation _ _ (merge_sort_Permutation Z.le bs)).
    rewrite <- (parse_files_of_bases bs Hu).
    change (map parse_baseOffset (os_ReadDir fs)) with (parse_baseOffset <$> os_ReadDir fs).
    apply fmap_Permutation. apply NoDup_Permutation.
    + apply NoDup_fst_map_to_list.
    + by apply files_of_bases_NoDup.
    + intros name. rewrite <- Hnames. unfold os_ReadDir.
      rewrite list_elem_of_fmap. split.
      * intros ([n i] & -> & Hin). apply elem_of_map_to_list in Hin. by exists i.
      * intros [i Hi]. exists (name, i). split; [done|]. by apply elem_of_map_to_list.
Qed.

(** ** Opening the segments of a directory *)

Lemma len_resize {A} n (x : A) l : 0 <= n -> len (resize (Z.to_nat n) x l) = n.
Proof. intros. unfold len. rewrite length_resize. lia. Qed.

Lemma newSegment_reopen fs b c sino iino :
  names fs !! store_name b = Some sino -> names fs !! index_name b = Some iino ->
  0 < MaxIndexBytes c < 2 ^ 63 ->
  len (contents fs iino) <= MaxIndexBytes c ->
  newSegment fs b c =
    (set_contents fs iino
       (resize (Z.to_nat (MaxIndexBytes c)) "000"%byte (contents fs iino)),
     Some (reopened c b sino iino (contents fs sino) (contents fs iino)), None).
Proof.
  intros Hs Hi Hc Hfit. unfold newSegment, os_OpenFile. rewrite Hs.
  unfold newStore, os_Stat, File_Name. cbn [f_name]. rewrite Hs, Hi.
  unfold newIndex, os_Stat, os_Truncate, File_Name. cbn [f_name f_ino]. rewrite Hi.
  rewrite to_int64_small by lia.
  destruct (Z.ltb_spec (MaxIndexBytes c) 0) as [|_]; [lia|].
  unfold ftruncate. rewrite contents_set_contents_eq, len_resize by lia.
  destruct (Z.eqb_spec (MaxIndexBytes c) 0) as [|_]; [lia|].
  unfold reopened, index_Read. cbn [i_size i_mlen i_file f_ino].
  rewrite contents_set_contents_eq, len_resize by lia.
  assert (Hn : wrap64 (len (contents fs iino)) = len (contents fs iino)).
  { apply wrap64_small. pose proof (len_nonneg (contents fs iino)). lia. }
  rewrite Hn. set (n := len (contents fs iino)) in *.
  destruct (n =? 0); [done|].
  set (out := wrap32 (wrap64 (n / endWidth - 1))).
  change (-1 =? -1) with true. cbn match. fold out.
  destruct (Z.ltb_spec n (out * endWidth + endWidth)) as [|Hge]; [done|].
  rewrite orb_diag.
  destruct (Z.ltb_spec (MaxIndexBytes c) (out * endWidth + endWidth)) as [|_]; [lia|].
  done.
Qed.

Section Setup.

Context `{Codec}.

Lemma setup_loop_every_other : forall n bs fs l,
  (length bs <= n)%nat -> setup_loop fs l bs = open_all fs l (every_other bs).
Proof.
  induction n as [|n IH]; intros bs fs l Hn.
  { destruct bs; [done|cbn in Hn; lia]. }
  destruct bs as [|b [|b' rest]]; [done| |].
  - cbn. by destruct (Log_newSegment fs l b) as [[fs1 l1] [e|]].
  - cbn [setup_loop every_other open_all].
    destruct (Log_newSegment fs l b) as [[fs1 l1] [e|]]; [done|].
    apply IH. cbn in Hn. lia.
Qed.

Lemma open_all_bases c : forall bs fs segs0,
  0 < MaxIndexBytes c < 2 ^ 63 ->
  (forall b, b ∈ bs -> is_Some (names fs !! store_name b) /\
                       is_Some (names fs !! index_name b)) ->
  (forall b i, b ∈ bs -> names fs !! index_name b = Some i ->
               len (contents fs i) <= MaxIndexBytes c) ->
  exists fs' segs,
    open_all fs {| l_Config := c; segments := segs0; orphan := None |} bs =
      (fs', {| l_Config := c; segments := segs0 ++ segs; orphan := None |}, None) /\
    names fs' = names fs /\
    baseOffset <$> segs = bs /\ Forall (fun s => config s = c) segs.
Proof.
  induction bs as [|b bs IH]; intros fs segs0 Hc Hex Hfit.
  { exists fs, []. by rewrite app_nil_r. }
  destruct (Hex b) as [[sino Hs] [iino Hi]]; [left|].
  cbn [open_all]. unfold Log_newSegment. cbn [l_Config segments].
  rewrite (newSegment_reopen fs b c sino iino Hs Hi Hc) by (apply (Hfit b); [left|done]).
  set (fs1 := set_contents fs iino _). set (s := reopened c b sino iino _ _).
  destruct (IH fs1 (segs0 ++ [s])) as (fs' & segs & E & Hn & Hb & Hcf); [done| | |].
  { intros b' Hb'. apply Hex. by right. }
  { intros b' i Hb' Hi'. unfold fs1.
    destruct (decide (i = iino)) as [->|Hne].
    - rewrite contents_set_contents_eq, len_resize; lia.
    - rewrite contents_set_contents_ne by done. apply (Hfit b'); [by right|done]. }
  exists fs', (s :: segs). rewrite E, <- app_assoc.
  split; [done|]. split; [by rewrite Hn|]. split; [by rewrite fmap_cons, Hb|].
  by constructor.
Qed.

End Setup.

(** ** [setup] over a directory of paired files *)

Section SetupTheorem.

Context `{Codec}.

Lemma owned_paired c fs l :
  log_shape c fs l -> paired fs (baseOffset <$> segments l).
Proof.
  intros Hshape. split; [apply chain_NoDup_bases, Hshape|]. split.
  - apply Forall_fmap. eapply Forall_impl; [apply (ls_segs _ _ _ Hshape)|].
    intros s Hs. by eapply seg_shape_uint64.
  - intros name. rewrite (ls_owned _ _ _ Hshape name). unfold files_of_bases. split.
    + intros (s & Hs & Hname). apply list_elem_of_bind. exists (baseOffset s).
      split; [|apply list_elem_of_fmap; by exists s].
      destruct Hname as [-> | ->]; [left|right; left].
    + intros (b & Hname & Hb)%list_elem_of_bind.
      apply list_elem_of_fmap in Hb as (s & -> & Hs). exists s. split; [done|].
      apply elem_of_cons in Hname as [->|Hname]; [by left|].
      apply list_elem_of_singleton in Hname as ->. by right.
Qed.

(** In a log the index files are as long as the mapping. *)
Lemma owned_fit c fs l :
  log_shape c fs l -> log_data fs l -> indexes_fit c fs (baseOffset <$> segments l).
Proof.
  intros Hshape Hdata b i Hb Hi.
  apply list_elem_of_fmap in Hb as (s & -> & Hs).
  pose proof (proj1 (Forall_forall _ _) (ls_live _ _ _ Hshape) s Hs) as Hlv.
  pose proof (proj1 (Forall_forall _ _) (ls_segs _ _ _ Hshape) s Hs) as Hsh.
  pose proof (proj1 (Forall_forall _ _) Hdata s Hs) as Hsd.
  rewrite (lv_ibound _ _ Hlv) in Hi. injection Hi as <-.
  rewrite (sd_ilen _ _ Hsd), (sh_mlen _ _ Hsh). lia.
Qed.

(** C8 (amended).  When the directory holds the store file and the index
    file of each base offset of a duplicate-free list and nothing else, and
    no index file is longer than [MaxIndexBytes] (after defaulting),
    [NewLog] succeeds and its segments have these base offsets in ascending
    order, one segment each, all with the defaulted configuration, the last
    one active; over an empty directory it has the single segment of base
    [InitialOffset].  The duplicates are dropped by position: [setup] sorts
    the parsed names and opens a segment for every second one. *)
Theorem C8_setup_one_segment_per_paired_base (c : Config) (fs : FS) (bs : list Z) :
  Config_ok c -> paired fs bs -> indexes_fit (Config_defaults c) fs bs ->
  exists fs' l,
    NewLog fs c = (fs', l, None) /\
    baseOffset <$> segments l =
      match bs with [] => [InitialOffset c] | _ :: _ => merge_sort Z.le bs end /\
    Forall (fun s => config s = Config_defaults c) (segments l) /\
    activeSegment l = last (segments l).
Proof.
  intros Hok Hp Hfit. pose proof Hp as (Hnd & Hu & Hnames).
  destruct (Config_ok_defaults c Hok) as [Hcfg _].
  unfold NewLog, Log_setup. rewrite (sorted_listing fs bs Hp).
  rewrite (setup_loop_every_other _ _ _ _ (le_n _)), every_other_twice.
  destruct (open_all_bases (Config_defaults c) (merge_sort Z.le bs) fs [] Hcfg)
    as (fs1 & segs & E & Hn & Hb & Hcf).
  { intros b Hb. rewrite merge_sort_Permutation in Hb.
    split; apply Hnames, list_elem_of_bind; exists b; (split; [|done]).
    - left.
    - right; left. }
  { intros b i Hb. rewrite merge_sort_Permutation in Hb. by apply Hfit. }
  rewrite E. cbn [segments app l_Config].
  destruct bs as [|b0 bs'].
  - assert (segs = []) as ->.
    { apply (fmap_nil_inv baseOffset). rewrite Hb. reflexivity. }
    assert (Hnone : forall name, names fs1 !! name = None).
    { intros name. rewrite Hn. apply eq_None_not_Some. rewrite Hnames.
      unfold files_of_bases. cbn. apply not_elem_of_nil. }
    unfold Log_newSegment. cbn [l_Config segments].
    destruct (newSegment_fresh fs1 (InitialOffset (Config_defaults c)) (Config_defaults c))
      as (fs2 & E2 & _); [apply Hnone|apply Hnone|done|].
    rewrite E2. eexists _, _. split; [done|]. cbn [segments app].
    split; [by rewrite Config_defaults_Initial|]. split; [|done].
    by apply Forall_singleton.
  - destruct segs as [|s segs].
    { exfalso. symmetry in Hb. apply (Permutation_nil_cons (l := bs') (x := b0)).
      rewrite <- (merge_sort_Permutation Z.le (b0 :: bs')), Hb. done. }
    eexists _, _. split; [done|]. cbn [segments]. split; [done|]. split; done.
Qed.

End SetupTheorem.

(** Two directories on which [setup] does not open one segment per distinct
    base offset.  [stray_fs] names the base offsets 0 and 1: [setup] opens a
    segment for the first sorted entry and steps over the second, so the
    log has the one segment of base 0.  [foreign_fs] names base offset 0
    three times: [setup] opens a segment for the first and for the third
    entry, so the log has two segments of base 0. *)
Lemma C8_counterexample :
  (remove_dups (merge_sort Z.le (map parse_baseOffset (os_ReadDir stray_fs))) = [0; 1] /\
   (NewLog stray_fs zero_config).2 = None /\
   baseOffset <$> segments (NewLog stray_fs zero_config).1.2 = [0]) /\
  (remove_dups (merge_sort Z.le (map parse_baseOffset (os_ReadDir foreign_fs))) = [0] /\
   (NewLog foreign_fs zero_config).2 = None /\
   baseOffset <$> segments (NewLog foreign_fs zero_config).1.2 = [0; 0]).
Proof. repeat split; vm_compute; reflexivity. Qed.

Lemma C8_witness :
  exists fs' l,
    NewLog three_fs test_config = (fs', l, None) /\
    baseOffset <$> segments l =
      match baseOffset <$> segments three_log with
      | [] => [InitialOffset test_config]
      | _ :: _ => merge_sort Z.le (baseOffset <$> segments three_log)
      end /\
    Forall (fun s => config s = Config_defaults test_config) (segments l) /\
    activeSegment l = last (segments l).
Proof.
  exact (C8_setup_one_segment_per_paired_base test_config three_fs
           (baseOffset <$> segments three_log) test_config_ok
           (owned_paired (Config_defaults test_config) three_fs three_log
              (proj1 (reachable_inv test_config three_fs three_log three_reachable)))
           (owned_fit (Config_defaults test_config) three_fs three_log
              (proj1 (reachable_inv test_config three_fs three_log three_reachable))
              (proj2 (reachable_inv test_config three_fs three_log three_reachable)))).
Defined.

(** ** [Log.Close] *)

Lemma segment_Close_live `{Codec} c fs s :
  fs_ok fs -> seg_shape c s -> seg_live fs s -> MaxIndexBytes c < 2 ^ 63 ->
  exists fs' s',
    segment_Close fs s = (fs', s', None) /\ same_names fs fs' /\
    contents fs' (f_ino (st_file (store s))) = store_view fs (store s) /\
    contents fs' (f_ino (i_file (index_ s))) =
      resize (Z.to_nat (i_size (index_ s))) "000"%byte
             (contents fs (f_ino (i_file (index_ s)))) /\
    (forall j, j <> f_ino (st_file (store s)) -> j <> f_ino (i_file (index_ s)) ->
               contents fs' j = contents fs j).
Proof.
  intros Hfs Hsh Hlv Hc.
  pose proof (seg_inos_distinct fs s Hfs Hlv) as Hne.
  pose proof (sh_isize _ _ Hsh) as Hsz. pose proof (sh_next _ _ Hsh) as Hnx.
  pose proof (sh_isize_le _ _ Hsh) as Hle.
  assert (Hsz0 : 0 <= i_size (index_ s) < 2 ^ 63).
  { rewrite Hsz in *. unfold endWidth, offWidth, posWidth in *. lia. }
  unfold segment_Close, index_Close, File_Sync, File_Truncate.
  rewrite (lv_iopen _ _ Hlv), to_int64_small by done.
  destruct (Z.ltb_spec (i_size (index_ s)) 0) as [|_]; [lia|].
  unfold File_Close. rewrite (lv_iopen _ _ Hlv).
  set (fs1 := ftruncate fs _ _).
  destruct (Store_Close_open fs1 (store s) (seg_live_store_open _ _ Hlv))
    as (fs2 & st & -> & [[Hn Hi] Hfr] & _ & _ & _ & _ & Hv).
  eexists _, _. split; [done|]. split; [split; [by rewrite Hn|by rewrite Hi]|].
  split; [|split].
  - rewrite Hv. unfold store_view, fs1, ftruncate.
    by rewrite contents_set_contents_ne by done.
  - rewrite Hfr by done. unfold fs1, ftruncate. by rewrite contents_set_contents_eq.
  - intros j Hj1 Hj2. rewrite Hfr by done. unfold fs1, ftruncate.
    by rewrite contents_set_contents_ne by done.
Qed.

Lemma close_loop_live `{Codec} c : forall segs fs,
  fs_ok fs -> Forall (seg_shape c) segs -> Forall (seg_live fs) segs ->
  NoDup (baseOffset <$> segs) -> MaxIndexBytes c < 2 ^ 63 ->
  exists fs' segs',
    close_loop fs segs = (fs', segs', None) /\ same_names fs fs' /\
    (forall s, s ∈ segs ->
       contents fs' (f_ino (st_file (store s))) = store_view fs (store s) /\
       contents fs' (f_ino (i_file (index_ s))) =
         resize (Z.to_nat (i_size (index_ s))) "000"%byte
                (contents fs (f_ino (i_file (index_ s))))) /\
    (forall j, (forall s, s ∈ segs -> j <> f_ino (st_file (store s)) /\
                                      j <> f_ino (i_file (index_ s))) ->
               contents fs' j = contents fs j).
Proof.
  induction segs as [|s rest IH]; intros fs Hfs Hsh Hlv Hnd Hc.
  { exists fs, []. split; [done|]. split; [by split|]. split; [|done].
    intros s Hs. by apply elem_of_nil in Hs. }
  apply Forall_cons in Hsh as [Hsh_s Hsh_r]. apply Forall_cons in Hlv as [Hlv_s Hlv_r].
  rewrite fmap_cons in Hnd. apply NoDup_cons in Hnd as [Hnotin Hnd].
  destruct (segment_Close_live c fs s Hfs Hsh_s Hlv_s Hc)
    as (fs1 & s1 & E1 & Hn1 & Hst1 & Hix1 & Hfr1).
  assert (Hlv1 : Forall (seg_live fs1) rest).
  { eapply Forall_impl; [exact Hlv_r|]. intros x. by apply seg_live_same_names. }
  destruct (IH fs1 (fs_ok_same_names _ _ Hn1 Hfs) Hsh_r Hlv1 Hnd Hc)
    as (fs2 & rest' & E2 & Hn2 & Hseg2 & Hfr2).
  assert (Hdist : forall x, x ∈ rest ->
            f_ino (st_file (store s)) <> f_ino (st_file (store x)) /\
            f_ino (st_file (store s)) <> f_ino (i_file (index_ x)) /\
            f_ino (i_file (index_ s)) <> f_ino (st_file (store x)) /\
            f_ino (i_file (index_ s)) <> f_ino (i_file (index_ x))).
  { intros x Hx.
    apply (segs_inos_distinct c fs s x Hfs Hsh_s); try done.
    - by apply (proj1 (Forall_forall _ _) Hsh_r).
    - by apply (proj1 (Forall_forall _ _) Hlv_r).
    - intros Hb. apply Hnotin. apply list_elem_of_fmap. by exists x. }
  cbn [close_loop]. rewrite E1, E2. eexists _, _. split; [done|].
  split; [by eapply same_names_trans|]. split.
  - intros x Hx. apply elem_of_cons in Hx as [->|Hx].
    + rewrite !Hfr2; [done| |].
      * intros y Hy. destruct (Hdist y Hy) as (? & ? & ? & ?). done.
      * intros y Hy. destruct (Hdist y Hy) as (? & ? & ? & ?). done.
    + destruct (Hseg2 x Hx) as [Hs Hi]. destruct (Hdist x Hx) as (? & ? & ? & ?).
      rewrite Hs, Hi. unfold store_view. rewrite !Hfr1 by done. done.
  - intros j Hj. rewrite Hfr2.
    + destruct (Hj s) as [? ?]; [left|]. by apply Hfr1.
    + intros x Hx. apply Hj. by right.
Qed.

(** ** A closed segment, opened again *)

Section Reopen.

Context `{Codec}.

Lemma reopened_ok c fs0 s fs' :
  seg_shape c s -> seg_data fs0 s ->
  0 < MaxIndexBytes c < 2 ^ 63 -> MaxIndexBytes c <= endWidth * 2 ^ 32 ->
  let sino := f_ino (st_file (store s)) in
  let iino := f_ino (i_file (index_ s)) in
  let sdata := store_view fs0 (store s) in
  let idata := resize (Z.to_nat (i_size (index_ s))) "000"%byte (contents fs0 iino) in
  let s' := reopened c (baseOffset s) sino iino sdata idata in
  names fs' !! store_name (baseOffset s) = Some sino ->
  names fs' !! index_name (baseOffset s) = Some iino ->
  contents fs' sino = sdata ->
  contents fs' iino = resize (Z.to_nat (MaxIndexBytes c)) "000"%byte idata ->
  offsets s' = offsets s /\ i_size (index_ s') = i_size (index_ s) /\
  seg_shape c s' /\ seg_live fs' s' /\ seg_data fs' s' /\
  (forall k, 0 <= k < nextOffset s - baseOffset s -> seg_at fs' s' k = seg_at fs0 s k) /\
  nextOffset s' =
    (if i_size (index_ s') =? 0 then baseOffset s'
     else baseOffset s' +
          fst (index_entry (contents fs' iino) (i_size (index_ s') / endWidth - 1)) + 1).
Proof.
  intros Hsh Hdata Hc Hmax sino iino sdata idata s' Hns Hni Hcs Hci.
  destruct Hsh as [Hcfg Hb Hnx Hsn Hin Hml Hsz Hle].
  destruct Hdata as [Hssz Hslt Hilen Hent].
  set (n := nextOffset s - baseOffset s) in *.
  assert (En : n = nextOffset s - baseOffset s) by done.
  fold iino in Hilen, Hent. fold sdata in Hssz, Hent.
  unfold endWidth, offWidth, posWidth in Hmax, Hsz, Hle.
  change ((4 + 8) * n) with (12 * n) in Hsz. change ((4 + 8) * 2 ^ 32) with (12 * 2 ^ 32) in Hmax.
  assert (Hn : 0 <= n <= 2 ^ 32) by lia.
  assert (Hlen0 : len (contents fs0 iino) = MaxIndexBytes c) by (by rewrite Hilen).
  assert (Hlen : len idata = 12 * n).
  { unfold idata. rewrite Hsz. apply len_resize. lia. }
  assert (Hslice : forall lo w, 0 <= lo -> 0 <= w -> lo + w <= 12 * n ->
            slice (contents fs' iino) lo w = slice (contents fs0 iino) lo w).
  { intros lo w Hlo Hw Hlw. rewrite Hci.
    rewrite slice_resize by lia. unfold idata. rewrite Hsz.
    apply slice_resize; lia. }
  assert (Hentry : forall k, 0 <= k < n ->
            index_entry (contents fs' iino) k = index_entry (contents fs0 iino) k).
  { intros k Hk. unfold index_entry, endWidth, offWidth, posWidth.
    rewrite !Hslice by lia. done. }
  assert (Hview : store_view fs' (store s') = sdata).
  { unfold store_view, s', reopened. cbn. by rewrite app_nil_r. }
  assert (Hsize : st_size (store s') = st_size (store s)).
  { unfold s', reopened. cbn. rewrite <- Hssz. apply wrap64_small.
    pose proof (len_nonneg sdata). lia. }
  assert (Hisize : i_size (index_ s') = 12 * n).
  { unfold s', reopened. cbn. rewrite Hlen. apply wrap64_small. lia. }
  assert (Hbase : baseOffset s' = baseOffset s) by done.
  assert (Hnext : nextOffset s' = nextOffset s /\
            nextOffset s' =
              (if i_size (index_ s') =? 0 then baseOffset s'
               else baseOffset s' +
                    fst (index_entry (contents fs' iino)
                           (i_size (index_ s') / endWidth - 1)) + 1)).
  { rewrite Hisize, Hbase. unfold s', reopened. cbn [nextOffset].
    rewrite Hlen, (wrap64_small (12 * n)) by lia.
    destruct (Z.eqb_spec (12 * n) 0) as [E0|E0]; [split; [lia|done]|].
    unfold endWidth, offWidth, posWidth. change (4 + 8) with 12.
    assert (Hdiv : 12 * n / 12 - 1 = n - 1).
    { rewrite Z.mul_comm, Z.div_mul by lia. done. }
    rewrite Hdiv, (wrap64_small (n - 1)), (wrap32_small (n - 1)) by lia.
    destruct (Z.ltb_spec (12 * n) ((n - 1) * 12 + 12)) as [|_]; [lia|].
    destruct (Z.ltb_spec (MaxIndexBytes c) ((n - 1) * 12 + 12)) as [|_]; [lia|].
    destruct (Hent (n - 1)) as [Hfst _]; [lia|].
    rewrite <- (Hentry (n - 1)) in Hfst by lia.
    rewrite <- Hci. rewrite Hfst.
    assert (Hu : Uint32 (slice (contents fs' iino) ((n - 1) * 12) 4) = n - 1).
    { rewrite <- Hfst at 2. unfold index_entry, endWidth, offWidth, posWidth. done. }
    rewrite Hu, wrap64_small by lia. split; lia. }
  destruct Hnext as [Hnext Hrec].
  split; [unfold offsets; by rewrite Hbase, Hnext|].
  split; [by rewrite Hisize, Hsz|].
  split.
  { split.
    - done.
    - by rewrite Hbase.
    - rewrite Hbase, Hnext. done.
    - done.
    - done.
    - done.
    - rewrite Hisize, Hbase, Hnext. unfold endWidth, offWidth, posWidth. done.
    - rewrite Hisize. change (i_mlen (index_ s')) with (MaxIndexBytes c) in *. lia. }
  split.
  { split.
    - done.
    - done.
    - change (len (@nil byte) <= 4096). rewrite len_nil. lia.
    - done.
    - done.
    - done. }
  split.
  { split.
    - by rewrite Hsize, Hview.
    - by rewrite Hsize.
    - change (f_ino (i_file (index_ s'))) with iino. change (i_mlen (index_ s')) with (MaxIndexBytes c).
      rewrite Hci. apply len_resize. lia.
    - intros k Hk. rewrite Hbase, Hnext in Hk. fold n in Hk.
      change (f_ino (i_file (index_ s'))) with iino.
      rewrite Hview. unfold seg_record. rewrite (Hentry k Hk).
      rewrite Hbase. apply (Hent k Hk). }
  split; [|exact Hrec].
  intros k Hk. unfold seg_at. change (f_ino (i_file (index_ s'))) with iino.
  fold iino. rewrite Hview. unfold seg_record. by rewrite (Hentry k Hk).
Qed.

End Reopen.

(** ** [NewLog] over the directory of a closed log *)

Section OpenAll.

Context `{Codec}.

Lemma open_all_reopen c : forall bs fs segs0,
  0 < MaxIndexBytes c < 2 ^ 63 -> fs_ok fs -> NoDup bs -> Forall uint64 bs ->
  (forall b, b ∈ bs -> is_Some (names fs !! store_name b) /\
                       is_Some (names fs !! index_name b)) ->
  indexes_fit c fs bs ->
  exists fs',
    open_all fs {| l_Config := c; segments := segs0; orphan := None |} bs =
      (fs', {| l_Config := c; segments := segs0 ++ (reopen c fs <$> bs); orphan := None |},
       None) /\
    same_names fs fs' /\
    (forall b, b ∈ bs ->
       contents fs' (iino_of fs b) =
         resize (Z.to_nat (MaxIndexBytes c)) "000"%byte (contents fs (iino_of fs b))) /\
    (forall j, (forall b, b ∈ bs -> j <> iino_of fs b) -> contents fs' j = contents fs j).
Proof.
  induction bs as [|b bs IH]; intros fs segs0 Hc Hfs Hnd Hu Hex Hfit.
  { exists fs. rewrite app_nil_r. split; [done|]. split; [by split|].
    split; [|done]. intros b Hb. by apply elem_of_nil in Hb. }
  apply NoDup_cons in Hnd as [Hnotin Hnd]. apply Forall_cons in Hu as [Hub Hu].
  destruct (Hex b) as [[sino Hs] [iino Hi]]; [left|].
  cbn [open_all]. unfold Log_newSegment. cbn [l_Config segments].
  rewrite (newSegment_reopen fs b c sino iino Hs Hi Hc) by (apply (Hfit b); [left|done]).
  set (fs1 := set_contents fs iino _).
  assert (Hn1 : same_names fs fs1) by (apply (frame_same_names iino), frame_set_contents).
  assert (Hsb : sino_of fs b = sino) by (unfold sino_of; by rewrite Hs).
  assert (Hib : iino_of fs b = iino) by (unfold iino_of; by rewrite Hi).
  assert (Hother : forall b', b' ∈ bs ->
            sino_of fs1 b' = sino_of fs b' /\ iino_of fs1 b' = iino_of fs b' /\
            sino_of fs b' <> iino /\ iino_of fs b' <> iino).
  { intros b' Hb'. destruct (Hex b') as [[sino' Hs'] [iino' Hi']]; [by right|].
    unfold sino_of, iino_of. rewrite (proj1 Hn1), Hs', Hi'. cbn.
    split; [done|]. split; [done|]. split.
    - apply (ino_distinct fs _ _ _ _ Hfs Hs' Hi). apply store_index_name_ne.
    - apply (ino_distinct fs _ _ _ _ Hfs Hi' Hi). intros E.
      apply index_name_inj in E; [|by apply (proj1 (Forall_forall _ _) Hu)|done].
      by subst b'. }
  destruct (IH fs1 (segs0 ++ [reopened c b sino iino (contents fs sino) (contents fs iino)])
              Hc (fs_ok_same_names _ _ Hn1 Hfs) Hnd Hu)
    as (fs' & E & Hn & Hres & Hfr).
  { intros b' Hb'. rewrite (proj1 Hn1). apply Hex. by right. }
  { intros b' i Hb' Hi'. rewrite (proj1 Hn1) in Hi'. unfold fs1.
    destruct (decide (i = iino)) as [->|Hne].
    - rewrite contents_set_contents_eq, len_resize; lia.
    - rewrite contents_set_contents_ne by done. apply (Hfit b'); [by right|done]. }
  assert (Hhead : reopened c b sino iino (contents fs sino) (contents fs iino)
                  = reopen c fs b).
  { unfold reopen. by rewrite Hsb, Hib. }
  assert (Htail : reopen c fs1 <$> bs = reopen c fs <$> bs).
  { apply Forall_fmap_ext_1, Forall_forall. intros b' Hb'.
    destruct (Hother b' Hb') as (Es & Ei & Hns & Hni).
    unfold reopen. rewrite Es, Ei. unfold fs1.
    by rewrite !contents_set_contents_ne by done. }
  exists fs'. rewrite E, <- app_assoc. split.
  { cbn [app]. by rewrite fmap_cons, Hhead, Htail. }
  split; [by eapply same_names_trans|]. split.
  - intros b' Hb'. apply elem_of_cons in Hb' as [->|Hb'].
    + rewrite Hib, Hfr.
      * unfold fs1. by rewrite contents_set_contents_eq.
      * intros b' Hb'. destruct (Hother b' Hb') as (_ & Ei & _ & Hni). rewrite Ei. done.
    + destruct (Hother b' Hb') as (_ & Ei & _ & Hni).
      rewrite <- Ei, (Hres b' Hb'), Ei. unfold fs1.
      by rewrite contents_set_contents_ne by done.
  - intros j Hj. rewrite Hfr.
    + unfold fs1. apply contents_set_contents_ne. intros Ej.
      apply (Hj b); [left|]. by rewrite Hib.
    + intros b' Hb'. destruct (Hother b' Hb') as (_ & Ei & _). rewrite Ei.
      apply Hj. by right.
Qed.

End OpenAll.

Lemma sorted_bases c segs :
  chain segs -> Forall (seg_shape c) segs -> StronglySorted Z.le (baseOffset <$> segs).
Proof.
  induction segs as [|s rest IH]; intros Hch Hsh; [constructor|].
  apply Forall_cons in Hsh as [Hs Hrest]. rewrite fmap_cons. constructor.
  - apply IH; [|done]. destruct rest as [|y rest']; [done|].
    by apply chain_cons2 in Hch as (_ & _ & ?).
  - apply Forall_fmap, Forall_forall. intros y Hy. cbn.
    destruct (chain_head_lt s rest y Hch Hy). lia.
Qed.

Section CloseReopen.

Context `{Codec}.

Lemma close_reopen c0 fs l :
  log_shape (Config_defaults c0) fs l -> log_data fs l ->
  MaxIndexBytes (Config_defaults c0) <= endWidth * 2 ^ 32 -> segments l <> [] ->
  exists fs1 l1 fs2 f,
    Log_Close fs l = (fs1, l1, None) /\
    NewLog fs1 c0 =
      (fs2, {| l_Config := Config_defaults c0; segments := f <$> segments l;
               orphan := None |}, None) /\
    fs_ok fs2 /\ names fs2 = names fs /\
    forall s, s ∈ segments l ->
      offsets (f s) = offsets s /\ i_size (index_ (f s)) = i_size (index_ s) /\
      seg_shape (Config_defaults c0) (f s) /\ seg_live fs2 (f s) /\ seg_data fs2 (f s) /\
      (forall k, 0 <= k < nextOffset s - baseOffset s -> seg_at fs2 (f s) k = seg_at fs s k) /\
      nextOffset (f s) =
        (if i_size (index_ (f s)) =? 0 then baseOffset (f s)
         else baseOffset (f s) +
              fst (index_entry (contents fs2 (f_ino (i_file (index_ (f s)))))
                     (i_size (index_ (f s)) / endWidth - 1)) + 1).
Proof.
  set (c := Config_defaults c0). intros Hshape Hdata Hmax Hne.
  pose proof (ls_cfg _ _ _ Hshape) as Hcfg. pose proof (ls_fs _ _ _ Hshape) as Hfs.
  pose proof (ls_segs _ _ _ Hshape) as Hsh. pose proof (ls_live _ _ _ Hshape) as Hlv.
  pose proof (ls_chain _ _ _ Hshape) as Hch.
  pose proof (chain_NoDup_bases _ Hch) as Hnd.
  (* Close *)
  destruct (close_loop_live c (segments l) fs Hfs Hsh Hlv Hnd) as
    (fs1 & segs' & Ecl & Hn1 & Hcl & _); [lia|].
  pose proof (fs_ok_same_names _ _ Hn1 Hfs) as Hfs1.
  (* the listing *)
  pose proof (owned_paired _ _ _ Hshape) as (_ & Hu & Hnames).
  assert (Hp1 : paired fs1 (baseOffset <$> segments l)).
  { split; [done|]. split; [done|]. intros name. rewrite (proj1 Hn1). apply Hnames. }
  assert (Hsorted : merge_sort Z.le (baseOffset <$> segments l) = baseOffset <$> segments l).
  { apply (StronglySorted_unique Z.le).
    - apply StronglySorted_merge_sort; apply _.
    - by apply (sorted_bases c).
    - apply merge_sort_Permutation. }
  (* NewLog *)
  destruct (open_all_reopen c (baseOffset <$> segments l) fs1 [] Hcfg Hfs1 Hnd Hu)
    as (fs2 & Eop & Hn2 & Hres & Hfr).
  { intros b Hb. split; apply Hp1, list_elem_of_bind; exists b; (split; [|done]).
    - left.
    - right; left. }
  { intros b i Hb Hi. apply list_elem_of_fmap in Hb as (s & -> & Hs).
    pose proof (proj1 (Forall_forall _ _) Hsh s Hs) as Hs_sh.
    pose proof (proj1 (Forall_forall _ _) Hlv s Hs) as Hs_lv.
    rewrite (proj1 Hn1), (lv_ibound _ _ Hs_lv) in Hi. injection Hi as <-.
    rewrite (proj2 (Hcl s Hs)).
    pose proof (sh_isize_le _ _ Hs_sh) as Hle. pose proof (sh_isize _ _ Hs_sh) as Hsz.
    pose proof (sh_next _ _ Hs_sh) as Hnx.
    rewrite len_resize; unfold endWidth, offWidth, posWidth in *; lia. }
  pose proof (fs_ok_same_names _ _ Hn2 Hfs1) as Hfs2.
  exists fs1, (set_segments l segs'), fs2, (fun s => reopen c fs1 (baseOffset s)).
  split; [unfold Log_Close; by rewrite Ecl|]. split.
  { unfold NewLog, Log_setup. fold c. rewrite (sorted_listing fs1 _ Hp1), Hsorted.
    rewrite (setup_loop_every_other _ _ _ _ (le_n _)), every_other_twice, Eop.
    cbn [segments app]. rewrite <- list_fmap_compose.
    destruct (segments l) as [|s0 rest]; [done|]. done. }
  split; [done|]. split; [by rewrite (proj1 Hn2), (proj1 Hn1)|].
  intros s Hs.
  pose proof (proj1 (Forall_forall _ _) Hsh s Hs) as Hs_sh.
  pose proof (proj1 (Forall_forall _ _) Hlv s Hs) as Hs_lv.
  pose proof (proj1 (Forall_forall _ _) Hdata s Hs) as Hs_data.
  destruct (Hcl s Hs) as [Hcs Hci].
  assert (Hb_in : baseOffset s ∈ baseOffset <$> segments l).
  { apply list_elem_of_fmap. by exists s. }
  assert (Esino : sino_of fs1 (baseOffset s) = f_ino (st_file (store s))).
  { unfold sino_of. by rewrite (proj1 Hn1), (lv_sbound _ _ Hs_lv). }
  assert (Eiino : iino_of fs1 (baseOffset s) = f_ino (i_file (index_ s))).
  { unfold iino_of. by rewrite (proj1 Hn1), (lv_ibound _ _ Hs_lv). }
  assert (Ere : reopen c fs1 (baseOffset s) =
                reopened c (baseOffset s) (f_ino (st_file (store s)))
                  (f_ino (i_file (index_ s))) (store_view fs (store s))
                  (resize (Z.to_nat (i_size (index_ s))) "000"%byte
                     (contents fs (f_ino (i_file (index_ s)))))).
  { unfold reopen. by rewrite Esino, Eiino, Hcs, Hci. }
  rewrite Ere.
  apply (reopened_ok c fs s fs2 Hs_sh Hs_data Hcfg Hmax).
  - rewrite (proj1 Hn2), (proj1 Hn1). apply (lv_sbound _ _ Hs_lv).
  - rewrite (proj1 Hn2), (proj1 Hn1). apply (lv_ibound _ _ Hs_lv).
  - rewrite Hfr; [done|]. intros b Hb.
    apply list_elem_of_fmap in Hb as (x & -> & Hx).
    pose proof (proj1 (Forall_forall _ _) Hlv x Hx) as Hx_lv.
    unfold iino_of. rewrite (proj1 Hn1), (lv_ibound _ _ Hx_lv). cbn.
    apply (ino_distinct fs _ _ _ _ Hfs (lv_sbound _ _ Hs_lv) (lv_ibound _ _ Hx_lv)).
    apply store_index_name_ne.
  - rewrite <- Eiino, (Hres _ Hb_in), Eiino, Hci. done.
Qed.

End CloseReopen.

(** ** Closing a log and opening it again *)

Section ReopenTheorem.

Context `{Codec}.

Lemma offsets_eq s s' :
  offsets s' = offsets s -> baseOffset s' = baseOffset s /\ nextOffset s' = nextOffset s.
Proof. unfold offsets. by intros [= -> ->]. Qed.

(** C4.  On a log created over an empty directory whose slice is not
    empty, [Close] succeeds, and [NewLog] over the same directory with the
    same configuration succeeds and gives a log with the same
    [LowestOffset] and [HighestOffset] and segments of the same base and
    next offsets.  Each segment's [nextOffset] is its base offset when its
    index is empty and otherwise its base offset plus the relative offset
    of the last index entry plus one.  Every offset of a segment reads
    from the new log the record that it read from the old one. *)
Theorem C4_reopen_preserves_offsets_and_records (c : Config) (fs : FS) (l : Log)
    (lo hi : Z) (fs1 : FS) (l1 : Log) (errc : option error)
    (fs2 : FS) (l2 : Log) (err : option error) :
  reachable c fs l ->
  LowestOffset l = (lo, None) -> HighestOffset l = (hi, None) ->
  Log_Close fs l = (fs1, l1, errc) -> NewLog fs1 c = (fs2, l2, err) ->
  errc = None /\ err = None /\
  LowestOffset l2 = (lo, None) /\ HighestOffset l2 = (hi, None) /\
  offsets <$> segments l2 = offsets <$> segments l /\
  (forall s, s ∈ segments l2 ->
     nextOffset s =
       (if i_size (index_ s) =? 0 then baseOffset s
        else baseOffset s +
             fst (index_entry (contents fs2 (f_ino (i_file (index_ s))))
                    (i_size (index_ s) / endWidth - 1)) + 1)) /\
  (forall s o, s ∈ segments l -> in_segment o s ->
     exists r fsa la fsb lb,
       Log_Read fs l o = (fsa, la, (Some r, None)) /\
       Log_Read fs2 l2 o = (fsb, lb, (Some r, None)) /\ Offset r = o).
Proof.
  intros Hre Hlo Hhi Hclose Hnew.
  pose proof (reachable_Config_ok _ _ _ Hre) as Hok.
  destruct (Config_ok_defaults _ Hok) as [Hcfg Hmax].
  destruct (reachable_inv _ _ _ Hre) as [Hshape Hdata].
  destruct (LowestOffset_head _ _ Hlo) as (s0 & Hhd & ->).
  assert (Hne : segments l <> []) by (by destruct (segments l)).
  destruct (close_reopen c fs l Hshape Hdata Hmax Hne)
    as (fs1' & l1' & fs2' & f & Ecl & Enew & Hfs2 & Hn2 & Hsegs).
  rewrite Ecl in Hclose. injection Hclose as <- <- <-.
  rewrite Enew in Hnew. injection Hnew as <- <- <-.
  set (l2 := {| l_Config := Config_defaults c; segments := f <$> segments l;
                orphan := None |}).
  assert (Hoffs : offsets <$> segments l2 = offsets <$> segments l).
  { unfold l2. cbn [segments]. rewrite <- list_fmap_compose.
    apply Forall_fmap_ext_1, Forall_forall. intros s Hs. cbn. by apply Hsegs. }
  assert (Hact : exists a, last (segments l) = Some a /\
                           i_size (index_ a) < MaxIndexBytes (Config_defaults c)).
  { pose proof (ls_active _ _ _ Hshape) as Ha. destruct (orphan l); [|done].
    by destruct Ha as [? _]. }
  destruct Hact as (a & Hla & Ha_sz).
  assert (Ha_in : a ∈ segments l) by by apply last_Some_elem_of.
  assert (Hshape2 : log_shape (Config_defaults c) fs2' l2).
  { split.
    - done.
    - done.
    - done.
    - apply Forall_fmap, Forall_forall. intros s Hs. by apply Hsegs.
    - apply Forall_fmap, Forall_forall. intros s Hs. by apply Hsegs.
    - eapply chain_offsets; [symmetry; exact Hoffs|]. apply Hshape.
    - intros name. rewrite Hn2, (ls_owned _ _ _ Hshape name). cbn [l2 segments]. split.
      + intros (s & Hs & Hname). exists (f s). split; [by apply list_elem_of_fmap_2|].
        destruct (offsets_eq _ _ (proj1 (Hsegs s Hs))) as [-> _]. done.
      + intros (s' & Hs' & Hname). apply list_elem_of_fmap in Hs' as (s & -> & Hs).
        exists s. split; [done|].
        destruct (offsets_eq _ _ (proj1 (Hsegs s Hs))) as [<- _]. done.
    - cbn [orphan l2 segments]. exists (f a). rewrite fmap_last, Hla. split; [done|].
      destruct (Hsegs a Ha_in) as (_ & -> & _). done. }
  assert (Hdata2 : log_data fs2' l2).
  { apply Forall_fmap, Forall_forall. intros s Hs. by apply Hsegs. }
  split; [done|]. split; [done|]. split.
  { unfold LowestOffset, l2. cbn [segments]. destruct (segments l) as [|x rest]; [done|].
    injection Hhd as ->. cbn.
    destruct (offsets_eq _ _ (proj1 (Hsegs s0 ltac:(left)))) as [-> _]. done. }
  split.
  { rewrite <- Hhi. unfold HighestOffset, l2. cbn [segments]. rewrite fmap_last, Hla. cbn.
    destruct (offsets_eq _ _ (proj1 (Hsegs a Ha_in))) as [_ ->]. done. }
  split; [done|]. split.
  { intros s' Hs'. apply list_elem_of_fmap in Hs' as (s & -> & Hs). by apply Hsegs. }
  intros s o Hs Hin.
  destruct (holds_in_range fs l s o Hdata Hs Hin) as (r & Hr & Hoff).
  destruct (Log_Read_holds _ fs l o r Hshape Hdata Hmax Hr) as (fsa & la & Ea).
  assert (Hr2 : holds fs2' (segments l2) o r).
  { destruct Hr as (x & Hx & Hxin & Hxat).
    destruct (Hsegs x Hx) as (Hxo & _ & _ & _ & _ & Hat & _).
    destruct (offsets_eq _ _ Hxo) as [Eb En].
    exists (f x). split; [by apply list_elem_of_fmap_2|]. split.
    - unfold in_segment in *. rewrite Eb, En. done.
    - rewrite Eb, Hat; [done|]. unfold in_segment in Hxin. lia. }
  destruct (Log_Read_holds _ fs2' l2 o r Hshape2 Hdata2 Hmax Hr2) as (fsb & lb & Eb).
  by exists r, fsa, la, fsb, lb.
Qed.

End ReopenTheorem.

Lemma C4_witness :
  @None error = None /\ @None error = None /\
  LowestOffset again_log = (0, None) /\ HighestOffset again_log = (2, None) /\
  offsets <$> segments again_log = offsets <$> segments three_log /\
  (forall s, s ∈ segments again_log ->
     nextOffset s =
       (if i_size (index_ s) =? 0 then baseOffset s
        else baseOffset s +
             fst (index_entry (contents again_fs (f_ino (i_file (index_ s))))
                    (i_size (index_ s) / endWidth - 1)) + 1)) /\
  (forall s o, s ∈ segments three_log -> in_segment o s ->
     exists r fsa la fsb lb,
       Log_Read three_fs three_log o = (fsa, la, (Some r, None)) /\
       Log_Read again_fs again_log o = (fsb, lb, (Some r, None)) /\ Offset r = o).
Proof.
  assert (Hlo : LowestOffset three_log = (0, None)) by (vm_compute; reflexivity).
  assert (Hhi : HighestOffset three_log = (2, None)) by (vm_compute; reflexivity).
  assert (Hclose : Log_Close three_fs three_log = (closed_fs, closed_log, None))
    by (vm_compute; reflexivity).
  assert (Hnew : NewLog closed_fs test_config = (again_fs, again_log, None))
    by (vm_compute; reflexivity).
  exact (C4_reopen_preserves_offsets_and_records test_config three_fs three_log 0 2
           closed_fs closed_log None again_fs again_log None
           three_reachable Hlo Hhi Hclose Hnew).
Defined.

(** * Further properties of the code *)

(** ** More of the store, the index and the segment *)

(** *** The store: what was appended reads back *)

Lemma len_slice_full data lo n :
  0 <= lo -> 0 < n -> len (slice data lo n) = n -> lo + n <= len data.
Proof.
  intros Hlo Hn. unfold slice, len. rewrite length_take, length_drop. lia.
Qed.

Lemma slice_zero data lo : slice data lo 0 = [].
Proof. unfold slice. done. Qed.

(** A successful [Store.Read] returned the frame that starts at [pos]. *)
Lemma Store_Read_view fs s pos b :
  store_open s -> len (store_view fs s) < 2 ^ 63 -> 0 <= pos < 2 ^ 64 ->
  (Store_Read fs s pos).2 = (Some b, None) ->
  view_read (store_view fs s) pos = Some b.
Proof.
  intros Hs Hlen Hpos. unfold Store_Read.
  destruct (buf_Flush_open fs s Hs) as (fs1 & s1 & -> & Hs1 & Hnil & Hv & _ & Hf & _).
  assert (Hc : contents fs1 (f_ino (st_file s1)) = store_view fs s).
  { rewrite <- Hv. unfold store_view. by rewrite Hnil, app_nil_r. }
  unfold File_ReadAt. rewrite (so_open _ Hs1), Hc.
  set (view := store_view fs s) in *.
  destruct (Z.ltb_spec (to_int64 pos) 0) as [|Hoff]; [done|].
  assert (Hp63 : pos < 2 ^ 63).
  { unfold to_int64 in Hoff. destruct (Z.ltb_spec pos (2 ^ 63)); lia. }
  rewrite (to_int64_small pos) in * by lia.
  change (lenWidth =? 0) with false. cbn match.
  pose proof (len_slice_le view pos lenWidth ltac:(done)) as Hle.
  destruct (Z.ltb_spec (len (slice view pos lenWidth)) lenWidth) as [|Hd]; [done|].
  assert (Hin : pos + lenWidth <= len view).
  { apply len_slice_full; [lia|done|lia]. }
  unfold lenWidth in *.
  rewrite (wrap64_small (pos + 8)), (to_int64_small (pos + 8)) by lia.
  destruct (Z.ltb_spec (pos + 8) 0) as [|_]; [lia|].
  set (n := Uint64 (slice view pos 8)).
  assert (Hn : 0 <= n) by apply be_get_nonneg.
  unfold view_read, lenWidth.
  destruct (Z.leb_spec 0 pos) as [_|]; [|lia].
  destruct (Z.leb_spec (pos + 8) (len view)) as [_|]; [|lia].
  cbn [andb]. fold n.
  destruct (Z.eqb_spec n 0) as [E0|Hn0].
  - intros [= <-]. rewrite E0, Z.add_0_r.
    destruct (Z.leb_spec (pos + 8) (len view)) as [_|]; [|lia].
    by rewrite slice_zero.
  - pose proof (len_slice_le view (pos + 8) n Hn) as Hle2.
    destruct (Z.ltb_spec (len (slice view (pos + 8) n)) n) as [|Hd2]; [done|].
    intros [= <-].
    assert (pos + 8 + n <= len view).
    { apply len_slice_full; [lia|lia|lia]. }
    destruct (Z.leb_spec (pos + 8 + n) (len view)) as [_|]; [done|lia].
Qed.

(** X1. [Store.Append] on an open store whose [size] is its length returns
    the number of bytes written, the payload's length plus 8, and the
    position of the frame, the size before the call; the size grows by that
    number, so the positions of successive appends are contiguous.
    [Store.Read] at the returned position gives the payload back, and
    every position that could be read before the call still reads the
    same bytes. *)
Theorem X1_Store_Append_then_Read (fs : FS) (s : Store) (p : list byte) :
  store_open s -> st_size s = len (store_view fs s) ->
  st_size s + lenWidth + len p < 2 ^ 63 ->
  exists fs1 s1,
    Store_Append fs s p = (fs1, s1, (len p + lenWidth, st_size s, None)) /\
    st_size s1 = st_size s + (len p + lenWidth) /\
    st_size s1 = len (store_view fs1 s1) /\
    (Store_Read fs1 s1 (st_size s)).2 = (Some p, None) /\
    (forall pos b, 0 <= pos < 2 ^ 64 ->
       (Store_Read fs s pos).2 = (Some b, None) ->
       (Store_Read fs1 s1 pos).2 = (Some b, None)).
Proof.
  intros Hs Hsz Hb.
  pose proof (len_nonneg p) as Hp. pose proof (len_nonneg (store_view fs s)) as Hv0.
  unfold lenWidth in *.
  destruct (Store_Append_open fs s p Hs) as (fs1 & s1 & E & Hs1 & Hv & _ & _ & Hsz1).
  unfold lenWidth in *.
  rewrite (wrap64_small (len p + 8)) in E, Hsz1 by lia.
  rewrite wrap64_small in Hsz1 by lia.
  rewrite (wrap64_small (len p)) in Hv by lia.
  assert (Hlen1 : len (store_view fs1 s1) = st_size s + (len p + 8)).
  { rewrite Hv, !len_app, len_PutUint64. lia. }
  exists fs1, s1. split; [done|]. split; [done|]. split; [lia|]. split.
  - assert (Hr : view_read (store_view fs1 s1) (st_size s) = Some p).
    { rewrite Hv, Hsz. replace (PutUint64 (len p)) with (PutUint64 (wrap64 (len p)))
        by (by rewrite (wrap64_small (len p)) by lia).
      apply view_read_new. lia. }
    destruct (Store_Read_open fs1 s1 _ p Hs1 ltac:(lia) Hr) as (? & ? & -> & _). done.
  - intros pos b Hpos Hread.
    apply (Store_Read_view fs s pos b Hs ltac:(lia) Hpos) in Hread.
    assert (Hr : view_read (store_view fs1 s1) pos = Some b).
    { rewrite Hv. by apply view_read_app. }
    destruct (Store_Read_open fs1 s1 _ b Hs1 ltac:(lia) Hr) as (? & ? & -> & _). done.
Qed.

Lemma X1_witness :
  exists fs1 s1,
    Store_Append fresh_fs fresh_store (Value hello)
      = (fs1, s1, (len (Value hello) + lenWidth, st_size fresh_store, None)) /\
    st_size s1 = st_size fresh_store + (len (Value hello) + lenWidth) /\
    st_size s1 = len (store_view fs1 s1) /\
    (Store_Read fs1 s1 (st_size fresh_store)).2 = (Some (Value hello), None) /\
    (forall pos b, 0 <= pos < 2 ^ 64 ->
       (Store_Read fresh_fs fresh_store pos).2 = (Some b, None) ->
       (Store_Read fs1 s1 pos).2 = (Some b, None)).
Proof.
  assert (H1 : store_open fresh_store).
  { split; [reflexivity|reflexivity|]. vm_compute. discriminate. }
  assert (H2 : st_size fresh_store = len (store_view fresh_fs fresh_store))
    by (vm_compute; reflexivity).
  assert (H3 : st_size fresh_store + lenWidth + len (Value hello) < 2 ^ 63)
    by (vm_compute; reflexivity).
  exact (X1_Store_Append_then_Read fresh_fs fresh_store (Value hello) H1 H2 H3).
Defined.

(** *** The index: what was written reads back *)

(** X2. [index.Write] on an index of [n] entries with room for one more
    stores the entry: [Read(-1)] and [Read(n)] return the written offset
    and position, the entries before it read as they did, and every entry
    number above [n] is [io.EOF]. *)
Theorem X2_index_Write_then_Read (fs : FS) (i : index) (n off pos : Z) :
  0 <= n -> i_size i = endWidth * n -> i_size i + endWidth <= i_mlen i ->
  i_mlen i <= endWidth * 2 ^ 32 ->
  len (contents fs (f_ino (i_file i))) = i_mlen i ->
  0 <= off < 2 ^ 32 -> 0 <= pos < 2 ^ 64 ->
  exists fs1 i1,
    index_Write fs i off pos = (fs1, i1, None) /\
    i_size i1 = endWidth * (n + 1) /\
    index_Read fs1 i1 (-1) = (off, pos, None) /\
    index_Read fs1 i1 n = (off, pos, None) /\
    (forall k, 0 <= k < n -> index_Read fs1 i1 k = index_Read fs i k) /\
    (forall k, n < k < 2 ^ 32 -> index_Read fs1 i1 k = (0, 0, Some EOF)).
Proof.
  intros Hn Hsz Hroom Hmax Hlen Hoff Hpos.
  assert (H12 : endWidth = 12) by reflexivity.
  rewrite H12 in *.
  rewrite (index_Write_ok fs i off pos) by (rewrite ?H12; lia).
  set (data := contents fs (f_ino (i_file i))) in *.
  set (data1 := splice data (i_size i) (PutUint32 off ++ PutUint64 pos)).
  set (fs1 := set_contents fs (f_ino (i_file i)) data1).
  set (i1 := {| i_file := i_file i; i_mlen := i_mlen i; i_size := i_size i + endWidth |}).
  assert (Hc1 : contents fs1 (f_ino (i_file i1)) = data1)
    by apply contents_set_contents_eq.
  assert (Hlen1 : len data1 = i_mlen i).
  { unfold data1. rewrite len_splice; [done|lia|].
    rewrite len_app, len_PutUint32, len_PutUint64. lia. }
  assert (Hsz1 : i_size i1 = endWidth * (n + 1)).
  { unfold i1. cbn [i_size]. rewrite H12. lia. }
  assert (Hnew : index_entry data1 n = (off, pos)).
  { unfold data1. rewrite Hsz, <- H12, index_entry_splice_at by (rewrite ?H12; lia).
    by rewrite wrap32_small, wrap64_small. }
  assert (Hle1 : i_size i1 <= i_mlen i1) by (unfold i1; cbn; rewrite H12; lia).
  assert (Hml1 : i_mlen i1 <= len (contents fs1 (f_ino (i_file i1))))
    by (rewrite Hc1, Hlen1; unfold i1; cbn; lia).
  exists fs1, i1. split; [done|]. split; [done|]. split; [|split; [|split]].
  - rewrite (index_Read_last fs1 i1 (n + 1) Hsz1 ltac:(lia) ltac:(lia) Hle1 Hml1).
    replace (n + 1 - 1) with n by lia. by rewrite Hc1, Hnew.
  - rewrite (index_Read_entry fs1 i1 (n + 1) n Hsz1 ltac:(lia) ltac:(lia) Hle1 Hml1).
    by rewrite Hc1, Hnew.
  - intros k Hk.
    rewrite (index_Read_entry fs1 i1 (n + 1) k Hsz1 ltac:(lia) ltac:(lia) Hle1 Hml1).
    assert (Hsz' : i_size i = endWidth * n) by (rewrite H12; done).
    rewrite (index_Read_entry fs i n k Hsz' ltac:(lia) ltac:(lia) ltac:(lia) ltac:(fold data; lia)).
    fold data. rewrite Hc1. unfold data1. rewrite Hsz, <- H12.
    by rewrite index_entry_splice_before by (rewrite ?H12; lia).
  - intros k Hk. unfold index_Read. rewrite Hsz1, H12.
    destruct (Z.eqb_spec (12 * (n + 1)) 0); [lia|].
    destruct (Z.eqb_spec k (-1)); [lia|].
    rewrite wrap32_small by lia.
    destruct (Z.ltb_spec (12 * (n + 1)) (k * 12 + 12)); [done|lia].
Qed.

Lemma X2_witness :
  exists fs1 i1,
    index_Write fresh_fs fresh_index 0 0 = (fs1, i1, None) /\
    i_size i1 = endWidth * (0 + 1) /\
    index_Read fs1 i1 (-1) = (0, 0, None) /\
    index_Read fs1 i1 0 = (0, 0, None) /\
    (forall k, 0 <= k < 0 -> index_Read fs1 i1 k = index_Read fresh_fs fresh_index k) /\
    (forall k, 0 < k < 2 ^ 32 -> index_Read fs1 i1 k = (0, 0, Some EOF)).
Proof.
  assert (H1 : 0 <= 0) by lia.
  assert (H2 : i_size fresh_index = endWidth * 0) by reflexivity.
  assert (H3 : i_size fresh_index + endWidth <= i_mlen fresh_index)
    by (vm_compute; discriminate).
  assert (H4 : i_mlen fresh_index <= endWidth * 2 ^ 32) by (vm_compute; discriminate).
  assert (H5 : len (contents fresh_fs (f_ino (i_file fresh_index))) = i_mlen fresh_index)
    by (vm_compute; reflexivity).
  assert (H6 : 0 <= 0 < 2 ^ 32) by lia.
  assert (H7 : 0 <= 0 < 2 ^ 64) by lia.
  exact (X2_index_Write_then_Read fresh_fs fresh_index 0 0 0 H1 H2 H3 H4 H5 H6 H7).
Defined.

(** *** File names *)

(** X3. The base offset that [setup] parses from a file name is the one
    [newSegment] formatted into it, for the store file and for the index
    file of every [uint64] base offset; so two base offsets never share a
    file name. *)
Theorem X3_file_name_gives_base_offset (b : Z) :
  uint64 b ->
  parse_baseOffset (store_name b) = b /\ parse_baseOffset (index_name b) = b /\
  (forall b', uint64 b' -> b' <> b ->
     store_name b' <> store_name b /\ index_name b' <> index_name b /\
     store_name b' <> index_name b /\ index_name b' <> store_name b).
Proof.
  intros Hb. split; [by apply parse_store_name|]. split; [by apply parse_index_name|].
  intros b' Hb' Hne. split; [|split; [|split]].
  - intros E. by apply store_name_inj in E.
  - intros E. by apply index_name_inj in E.
  - apply store_index_name_ne.
  - intros E. symmetry in E. by apply store_index_name_ne in E.
Qed.

Lemma X3_witness :
  parse_baseOffset (store_name 16) = 16 /\ parse_baseOffset (index_name 16) = 16 /\
  (forall b', uint64 b' -> b' <> 16 ->
     store_name b' <> store_name 16 /\ index_name b' <> index_name 16 /\
     store_name b' <> index_name 16 /\ index_name b' <> store_name 16).
Proof.
  assert (H : uint64 16) by (unfold uint64; lia).
  exact (X3_file_name_gives_base_offset 16 H).
Defined.

(** *** A segment whose index is full *)

Section FullIndex.

Context `{Codec}.

(** X4. When the index has no room for another entry, [segment.Append]
    fails with [io.EOF] only after it has appended the frame to the store:
    the record is stamped, the store holds 8 more bytes than the marshalled
    record is long, and the index and [nextOffset] are as before. *)
Theorem X4_segment_Append_full_index (fs : FS) (s : segment) (r : Record_) (p : list byte) :
  store_open (store s) ->
  0 <= st_size (store s) -> st_size (store s) + lenWidth + len p < 2 ^ 64 ->
  0 <= i_size (index_ s) < 2 ^ 63 ->
  i_mlen (index_ s) < i_size (index_ s) + endWidth ->
  Marshal (set_Offset r (nextOffset s)) = Some p ->
  exists fs1 s1,
    segment_Append fs s r = (fs1, s1, set_Offset r (nextOffset s), (0, Some EOF)) /\
    nextOffset s1 = nextOffset s /\ index_ s1 = index_ s /\
    st_size (store s1) = st_size (store s) + lenWidth + len p /\
    store_view fs1 (store s1) = store_view fs (store s) ++ PutUint64 (len p) ++ p.
Proof.
  intros Hs Hsz0 Hb Hisz Hfull Hm.
  pose proof (len_nonneg p) as Hp. unfold lenWidth in *.
  unfold segment_Append. rewrite Hm.
  destruct (Store_Append_open fs (store s) p Hs) as (fs1 & st & E & _ & Hv & _ & _ & Hsz1).
  rewrite E. cbn [set_store index_ nextOffset baseOffset].
  rewrite (index_Write_full fs1 (index_ s)) by done.
  exists fs1, (set_index (set_store s st) (index_ s)).
  split; [done|]. split; [done|]. split; [done|].
  cbn [set_index set_store store]. unfold lenWidth in *. split.
  - rewrite Hsz1, (wrap64_small (len p + 8)), wrap64_small by lia. lia.
  - rewrite Hv, (wrap64_small (len p)) by lia. done.
Qed.

End FullIndex.

Lemma X4_witness :
  exists fs1 s1,
    segment_Append full_fs full_segment empty_record
      = (fs1, s1, set_Offset empty_record (nextOffset full_segment), (0, Some EOF)) /\
    nextOffset s1 = nextOffset full_segment /\ index_ s1 = index_ full_segment /\
    st_size (store s1) = st_size (store full_segment) + lenWidth + len [ "016"%byte; "U"%byte ] /\
    store_view fs1 (store s1)
      = store_view full_fs (store full_segment)
        ++ PutUint64 (len [ "016"%byte; "U"%byte ]) ++ [ "016"%byte; "U"%byte ].
Proof.
  assert (H1 : store_open (store full_segment)).
  { split; [vm_compute; reflexivity|vm_compute; reflexivity|vm_compute; discriminate]. }
  assert (H2 : 0 <= st_size (store full_segment)) by (vm_compute; discriminate).
  assert (H3 : st_size (store full_segment) + lenWidth + len [ "016"%byte; "U"%byte ] < 2 ^ 64)
    by (vm_compute; reflexivity).
  assert (H4 : 0 <= i_size (index_ full_segment) < 2 ^ 63)
    by (split; vm_compute; [discriminate|reflexivity]).
  assert (H5 : i_mlen (index_ full_segment) < i_size (index_ full_segment) + endWidth)
    by (vm_compute; reflexivity).
  assert (H6 : Marshal (set_Offset empty_record (nextOffset full_segment))
               = Some [ "016"%byte; "U"%byte ]) by (vm_compute; reflexivity).
  exact (X4_segment_Append_full_index full_fs full_segment empty_record _ H1 H2 H3 H4 H5 H6).
Defined.

(** ** More of the log *)

Section LogMore.

Context `{Codec}.

(** A [Log.Read] that returned a record returned the one the log holds. *)
Lemma Log_Read_inv c fs l o r fs' l' :
  log_shape c fs l -> log_data fs l -> MaxIndexBytes c <= endWidth * 2 ^ 32 ->
  Log_Read fs l o = (fs', l', (Some r, None)) -> holds fs (segments l) o r.
Proof.
  intros Hshape Hdata Hmax Hread.
  destruct (list_find (in_segment o) (segments l)) as [[i s]|] eqn:Efind.
  - apply list_find_Some in Efind as (Hi & Hin & _).
    assert (Hs : s ∈ segments l) by (by eapply list_elem_of_lookup_2).
    destruct (holds_in_range fs l s o Hdata Hs Hin) as (r' & Hr' & _).
    destruct (Log_Read_holds _ fs l o r' Hshape Hdata Hmax Hr') as (fs2 & l2 & E).
    rewrite E in Hread. by injection Hread as _ _ <-.
  - unfold Log_Read in Hread. by rewrite Efind in Hread.
Qed.

Lemma in_segment_offsets (segs segs' : list segment) o :
  offsets <$> segs' = offsets <$> segs ->
  (forall s, s ∈ segs -> ~ in_segment o s) ->
  forall s', s' ∈ segs' -> ~ in_segment o s'.
Proof.
  intros Hoff Hout s' Hs' Hin.
  assert (Ho : offsets s' ∈ offsets <$> segs).
  { rewrite <- Hoff. by apply list_elem_of_fmap_2. }
  apply list_elem_of_fmap in Ho as (s & Eo & Hs).
  apply (Hout s Hs). unfold offsets in Eo. injection Eo as Eb En.
  unfold in_segment in *. by rewrite <- Eb, <- En.
Qed.

(** X5. [Log.Append] never disturbs what the log holds: whatever the call
    returns, every offset that read a record before the call reads the
    same record after it. *)
Theorem X5_Log_Append_keeps_records (c : Config) (fs : FS) (l : Log) (r : Record_)
    (fs' : FS) (l' : Log) (r' : Record_) (res : Z * option error) :
  reachable c fs l -> append_in_bounds l r ->
  Log_Append fs l r = (fs', l', r', res) ->
  forall o r0, (Log_Read fs l o).2 = (Some r0, None) ->
               (Log_Read fs' l' o).2 = (Some r0, None).
Proof.
  intros Hre Hb Happ o r0 Hread.
  pose proof (reachable_Config_ok _ _ _ Hre) as Hok.
  destruct (Config_ok_defaults _ Hok) as [_ Hmax].
  destruct (reachable_inv _ _ _ Hre) as [Hshape Hdata].
  assert (Hre' : reachable c fs' l') by (eapply reach_Append; eauto).
  destruct (reachable_inv _ _ _ Hre') as [Hshape' Hdata'].
  destruct (Log_Read fs l o) as [[fsa la] resa] eqn:Ea. cbn in Hread. subst resa.
  pose proof (Log_Read_inv _ _ _ _ _ _ _ Hshape Hdata Hmax Ea) as Hh.
  destruct (Log_Append_data _ _ _ _ _ _ _ _ Hshape Hdata Hmax Hb Happ) as (_ & Hkeep & _).
  destruct (Log_Read_holds _ fs' l' o r0 Hshape' Hdata' Hmax (Hkeep _ _ Hh)) as (? & ? & ->).
  done.
Qed.

(** A read leaves every offset reading what it read before. *)
Lemma Log_Read_same c fs l o1 fs' l' res :
  log_shape c fs l -> log_data fs l -> MaxIndexBytes c <= endWidth * 2 ^ 32 ->
  Log_Read fs l o1 = (fs', l', res) ->
  forall o2, (Log_Read fs' l' o2).2 = (Log_Read fs l o2).2.
Proof.
  intros Hshape Hdata Hmax Hread o2.
  destruct (Log_Read_shape _ _ _ _ _ _ _ Hshape Hread) as (Hshape' & _ & Hoff & _).
  destruct (Log_Read_data _ _ _ _ _ _ _ Hshape Hdata Hmax Hread) as (Hdata' & Hkeep).
  destruct (list_find (in_segment o2) (segments l)) as [[i s]|] eqn:Efind.
  - apply list_find_Some in Efind as (Hi & Hin & _).
    assert (Hs : s ∈ segments l) by (by eapply list_elem_of_lookup_2).
    destruct (holds_in_range fs l s o2 Hdata Hs Hin) as (r & Hr & _).
    destruct (Log_Read_holds _ fs l o2 r Hshape Hdata Hmax Hr) as (? & ? & ->).
    destruct (Log_Read_holds _ fs' l' o2 r Hshape' Hdata' Hmax (Hkeep _ _ Hr)) as (? & ? & ->).
    done.
  - apply list_find_None in Efind.
    assert (Hout : forall s, s ∈ segments l -> ~ in_segment o2 s)
      by (by apply Forall_forall).
    rewrite (Log_Read_outside fs l o2 Hout).
    rewrite (Log_Read_outside fs' l' o2 (in_segment_offsets _ _ _ Hoff Hout)). done.
Qed.

(** X6. [Log.Read] changes nothing that a reader can see: after a read of
    any offset, every offset reads what it read before, a record or
    [ErrorOffsetOutOfRange]. *)
Theorem X6_Log_Read_is_read_only (c : Config) (fs : FS) (l : Log) (o1 : Z)
    (fs' : FS) (l' : Log) (res : option Record_ * option error) :
  reachable c fs l -> Log_Read fs l o1 = (fs', l', res) ->
  forall o2, (Log_Read fs' l' o2).2 = (Log_Read fs l o2).2.
Proof.
  intros Hre Hread o2.
  pose proof (reachable_Config_ok _ _ _ Hre) as Hok.
  destruct (Config_ok_defaults _ Hok) as [_ Hmax].
  destruct (reachable_inv _ _ _ Hre) as [Hshape Hdata].
  by apply (Log_Read_same _ fs l o1 fs' l' res Hshape Hdata Hmax Hread).
Qed.

(** X7. [Log.Truncate(lowest)] removes no record above [lowest]: every
    offset greater than [lowest] that read a record before the call reads
    the same record after it. *)
Theorem X7_Truncate_keeps_higher_offsets (c : Config) (fs : FS) (l : Log) (lowest : Z)
    (fs' : FS) (l' : Log) (err : option error) :
  reachable c fs l -> uint64 lowest ->
  Log_Truncate fs l lowest = (fs', l', err) ->
  forall o r0, lowest < o -> (Log_Read fs l o).2 = (Some r0, None) ->
               (Log_Read fs' l' o).2 = (Some r0, None).
Proof.
  intros Hre Hlow Htr o r0 Ho Hread.
  pose proof (reachable_Config_ok _ _ _ Hre) as Hok.
  destruct (Config_ok_defaults _ Hok) as [_ Hmax].
  destruct (reachable_inv _ _ _ Hre) as [Hshape Hdata].
  assert (Hre' : reachable c fs' l') by (eapply reach_Truncate; eauto).
  destruct (reachable_inv _ _ _ Hre') as [Hshape' Hdata'].
  destruct (Log_Read fs l o) as [[fsa la] resa] eqn:Ea. cbn in Hread. subst resa.
  destruct (Log_Read_inv _ _ _ _ _ _ _ Hshape Hdata Hmax Ea) as (s & Hs & Hin & Hat).
  destruct (Log_Truncate_shape _ _ _ _ _ _ _ Hshape Htr) as (_ & _ & Hsegs & _).
  assert (Hw : wrap64 (lowest + 1) <= lowest + 1).
  { unfold wrap64. destruct Hlow. apply Z.mod_le; lia. }
  assert (Hs' : s ∈ segments l').
  { rewrite Hsegs. apply list_elem_of_filter. split; [|done].
    unfold in_segment in Hin. lia. }
  destruct (Log_Truncate_data _ _ _ _ _ _ _ Hshape Hdata Htr s Hs') as (_ & _ & Hsame).
  assert (Hh : holds fs' (segments l') o r0).
  { exists s. split; [done|]. split; [done|]. by rewrite Hsame. }
  destruct (Log_Read_holds _ fs' l' o r0 Hshape' Hdata' Hmax Hh) as (? & ? & ->). done.
Qed.

End LogMore.

Lemma X5_witness : (Log_Read four_fs four_log 1).2 = (Some (set_Offset hello 1), None).
Proof.
  assert (Hb : append_in_bounds three_log hello)
    by (apply bounds_check_ok; vm_compute; reflexivity).
  assert (Happ : Log_Append three_fs three_log hello
                 = (four_fs, four_log, (Log_Append three_fs three_log hello).1.2,
                    (Log_Append three_fs three_log hello).2))
    by (vm_compute; reflexivity).
  assert (Hread : (Log_Read three_fs three_log 1).2 = (Some (set_Offset hello 1), None))
    by (vm_compute; reflexivity).
  exact (X5_Log_Append_keeps_records test_config three_fs three_log hello four_fs four_log
           _ _ three_reachable Hb Happ 1 (set_Offset hello 1) Hread).
Defined.

Lemma X6_witness : (Log_Read read_fs read_log 2).2 = (Log_Read three_fs three_log 2).2.
Proof.
  assert (Hread : Log_Read three_fs three_log 1
                  = (read_fs, read_log, (Log_Read three_fs three_log 1).2))
    by (vm_compute; reflexivity).
  exact (X6_Log_Read_is_read_only test_config three_fs three_log 1 read_fs read_log _
           three_reachable Hread 2).
Defined.

Lemma X7_witness : (Log_Read cut_fs cut_log 2).2 = (Some (set_Offset hello 2), None).
Proof.
  assert (Hu : uint64 1) by (unfold uint64; lia).
  assert (Htr : Log_Truncate three_fs three_log 1 = (cut_fs, cut_log, None))
    by (vm_compute; reflexivity).
  assert (Hlt : 1 < 2) by lia.
  assert (Hread : (Log_Read three_fs three_log 2).2 = (Some (set_Offset hello 2), None))
    by (vm_compute; reflexivity).
  exact (X7_Truncate_keeps_higher_offsets test_config three_fs three_log 1 cut_fs cut_log None
           three_reachable Hu Htr 2 (set_Offset hello 2) Hlt Hread).
Defined.

(** ** A closed log *)

Section Closed.

Context `{Codec}.

Lemma segment_Close_closed c fs s :
  seg_shape c s -> seg_live fs s -> MaxIndexBytes c < 2 ^ 63 ->
  closed_of s (segment_Close fs s).1.2.
Proof.
  intros Hsh Hlv Hc.
  pose proof (sh_isize _ _ Hsh) as Hsz. pose proof (sh_next _ _ Hsh) as Hnx.
  pose proof (sh_isize_le _ _ Hsh) as Hle.
  assert (Hsz0 : 0 <= i_size (index_ s) < 2 ^ 63).
  { rewrite Hsz in *. unfold endWidth, offWidth, posWidth in *. lia. }
  unfold segment_Close, index_Close, File_Sync, File_Truncate.
  rewrite (lv_iopen _ _ Hlv), to_int64_small by done.
  destruct (Z.ltb_spec (i_size (index_ s)) 0) as [|_]; [lia|].
  unfold File_Close at 1. rewrite (lv_iopen _ _ Hlv).
  set (fs1 := ftruncate fs _ _).
  unfold Store_Close.
  destruct (buf_Flush_open fs1 (store s) (seg_live_store_open _ _ Hlv))
    as (fs2 & s1 & -> & Hs1 & Hnil & _ & _ & Hf & _).
  unfold File_Close. rewrite (so_open _ Hs1). cbn.
  split; cbn; try done.
  - by rewrite Hf.
  - apply Hs1.
Qed.

Lemma close_loop_closed c : forall segs fs,
  fs_ok fs -> Forall (seg_shape c) segs -> Forall (seg_live fs) segs ->
  NoDup (baseOffset <$> segs) -> MaxIndexBytes c < 2 ^ 63 ->
  Forall2 closed_of segs (close_loop fs segs).1.2.
Proof.
  induction segs as [|s rest IH]; intros fs Hfs Hsh Hlv Hnd Hc; [constructor|].
  apply Forall_cons in Hsh as [Hsh_s Hsh_r]. apply Forall_cons in Hlv as [Hlv_s Hlv_r].
  rewrite fmap_cons in Hnd. apply NoDup_cons in Hnd as [_ Hnd].
  pose proof (segment_Close_closed c fs s Hsh_s Hlv_s Hc) as Hcl.
  destruct (segment_Close_live c fs s Hfs Hsh_s Hlv_s Hc) as (fs1 & s1 & E1 & Hn1 & _).
  assert (Hlv1 : Forall (seg_live fs1) rest).
  { eapply Forall_impl; [exact Hlv_r|]. intros x. by apply seg_live_same_names. }
  specialize (IH fs1 (fs_ok_same_names _ _ Hn1 Hfs) Hsh_r Hlv1 Hnd Hc).
  cbn [close_loop]. rewrite E1 in *. cbn in Hcl.
  destruct (close_loop fs1 rest) as [[fs2 rest'] err]. cbn in *.
  by constructor.
Qed.

(** [segment.Read] on a closed segment: the index entry is still there,
    the store file is not. *)
Lemma segment_Read_closed c fs s fs1 s' o :
  seg_shape c s -> seg_data fs s -> MaxIndexBytes c <= endWidth * 2 ^ 32 ->
  closed_of s s' -> in_segment o s ->
  contents fs1 (f_ino (i_file (index_ s))) =
    resize (Z.to_nat (i_size (index_ s))) "000"%byte (contents fs (f_ino (i_file (index_ s)))) ->
  (segment_Read fs1 s' o).2 = (None, Some ErrClosed) /\ (segment_Read fs1 s' o).1.1 = fs1.
Proof.
  intros Hsh Hd Hmax Hcl Hin Hci.
  destruct Hsh as [Hc Hb Hnx Hsn Hiname Hm Hs Hle].
  destruct Hd as [Hsz Hlt Hil He].
  destruct Hcl as [Hoff His Hml Hii Hic Hsi Hsc Hbuf Herr].
  apply offsets_eq in Hoff as [Eb En].
  set (k := o - baseOffset s). set (n := nextOffset s - baseOffset s) in *.
  assert (H12 : endWidth = 12) by reflexivity. rewrite H12 in *.
  assert (Hk : 0 <= k < n) by (unfold in_segment in Hin; unfold k, n; lia).
  assert (Hn : n <= 2 ^ 32) by lia.
  destruct (He k Hk) as (_ & r & He2 & _).
  unfold seg_record in He2.
  set (idata := contents fs (f_ino (i_file (index_ s)))) in *.
  set (pos := (index_entry idata k).2) in *.
  destruct (view_read (store_view fs (store s)) pos) as [p|] eqn:Ev; [|done].
  assert (Hpos : 0 <= pos < 2 ^ 63).
  { unfold view_read in Ev. destruct (Z.leb_spec 0 pos); [|done].
    destruct (Z.leb_spec (pos + lenWidth) (len (store_view fs (store s)))); [|done].
    unfold lenWidth in *. lia. }
  assert (Hentry : index_entry (contents fs1 (f_ino (i_file (index_ s')))) k
                   = index_entry idata k).
  { rewrite Hii, Hci, Hs. unfold index_entry, endWidth, offWidth, posWidth.
    rewrite !slice_resize by (fold idata; lia). done. }
  unfold segment_Read. rewrite Eb. fold k.
  rewrite wrap64_small, to_int64_small by (rewrite ?wrap64_small; lia).
  unfold index_Read. rewrite His, Hml, Hs, Hm, H12.
  destruct (Z.eqb_spec (12 * n) 0); [lia|].
  destruct (Z.eqb_spec k (-1)); [lia|].
  rewrite wrap32_small by lia.
  destruct (Z.ltb_spec (12 * n) (k * 12 + 12)); [lia|].
  destruct (Z.ltb_spec (MaxIndexBytes c) (k * 12 + 12)); [lia|].
  assert (Hl1 : len (contents fs1 (f_ino (i_file (index_ s')))) = 12 * n).
  { rewrite Hii, Hci, Hs. apply len_resize. lia. }
  rewrite Hl1.
  destruct (Z.ltb_spec (12 * n) (k * 12 + 12)); [lia|]. cbn [orb].
  change (Uint64 (slice (contents fs1 (f_ino (i_file (index_ s')))) (k * 12 + offWidth) posWidth))
    with (index_entry (contents fs1 (f_ino (i_file (index_ s')))) k).2.
  rewrite Hentry. fold pos.
  unfold Store_Read, buf_Flush, Buffered. rewrite Herr, Hbuf.
  change (len (@nil byte) =? 0) with true. cbn iota beta.
  unfold File_ReadAt. rewrite Hsc, to_int64_small by done.
  destruct (Z.ltb_spec pos 0); [lia|]. done.
Qed.

End Closed.

Lemma closed_of_offsets segs segs' :
  Forall2 closed_of segs segs' -> offsets <$> segs' = offsets <$> segs.
Proof.
  induction 1 as [|s s' segs segs' Hc _ IH]; [done|].
  rewrite !fmap_cons, IH. f_equal. apply Hc.
Qed.

Section ClosedLog.

Context `{Codec}.

Lemma offsets_Lowest_Highest (l l' : Log) :
  offsets <$> segments l' = offsets <$> segments l ->
  LowestOffset l' = LowestOffset l /\ HighestOffset l' = HighestOffset l.
Proof.
  intros Hoff. split.
  - unfold LowestOffset.
    destruct (segments l') as [|s' r'], (segments l) as [|s r]; try done.
    rewrite !fmap_cons in Hoff. unfold offsets in Hoff. by injection Hoff as -> _ _.
  - unfold HighestOffset. apply (f_equal last) in Hoff. rewrite !fmap_last in Hoff.
    destruct (last (segments l')) as [s'|], (last (segments l)) as [s|]; try done.
    unfold offsets in Hoff. by injection Hoff as _ ->.
Qed.

(** X8. [Log.Close] on a log with segments succeeds and keeps
    [LowestOffset] and [HighestOffset], which read fields only.  The log is
    then unusable: a second [Close] fails on the closed index file and
    changes nothing, and [Read] of every offset the log holds fails on the
    closed store file. *)
Theorem X8_Log_is_unusable_after_Close (c : Config) (fs : FS) (l : Log)
    (fs1 : FS) (l1 : Log) (err : option error) :
  reachable c fs l -> segments l <> [] ->
  Log_Close fs l = (fs1, l1, err) ->
  err = None /\
  LowestOffset l1 = LowestOffset l /\ HighestOffset l1 = HighestOffset l /\
  (Log_Close fs1 l1).2 = Some ErrClosed /\ (Log_Close fs1 l1).1.1 = fs1 /\
  (forall s o, s ∈ segments l -> in_segment o s ->
     (Log_Read fs1 l1 o).2 = (None, Some ErrClosed)).
Proof.
  intros Hre Hne Hclose.
  pose proof (reachable_Config_ok _ _ _ Hre) as Hok.
  destruct (Config_ok_defaults _ Hok) as [Hcfg Hmax].
  destruct (reachable_inv _ _ _ Hre) as [Hshape Hdata].
  pose proof (ls_fs _ _ _ Hshape) as Hfs.
  pose proof (ls_segs _ _ _ Hshape) as Hsh. pose proof (ls_live _ _ _ Hshape) as Hlv.
  pose proof (chain_NoDup_bases _ (ls_chain _ _ _ Hshape)) as Hnd.
  destruct (close_loop_live _ (segments l) fs Hfs Hsh Hlv Hnd) as
    (fs1' & segs' & Ecl & _ & Hcl & _); [lia|].
  pose proof (close_loop_closed _ (segments l) fs Hfs Hsh Hlv Hnd ltac:(lia)) as Hc2.
  rewrite Ecl in Hc2. cbn in Hc2.
  unfold Log_Close in Hclose. rewrite Ecl in Hclose. injection Hclose as <- <- <-.
  pose proof (closed_of_offsets _ _ Hc2) as Hoff.
  split; [done|].
  destruct (offsets_Lowest_Highest l (set_segments l segs') Hoff) as [Hlo Hhi].
  split; [done|]. split; [done|].
  assert (Hagain : (Log_Close fs1' (set_segments l segs')).2 = Some ErrClosed /\
                   (Log_Close fs1' (set_segments l segs')).1.1 = fs1').
  { unfold Log_Close. cbn [segments set_segments].
    destruct Hc2 as [|s s' rest rest' Hs _]; [done|].
    cbn [close_loop]. unfold segment_Close, index_Close, File_Sync.
    rewrite (co_iclosed _ _ Hs). done. }
  split; [apply Hagain|]. split; [apply Hagain|].
  intros s o Hs Hin.
  assert (Hex : exists s', s' ∈ segs' /\ in_segment o s').
  { apply list_elem_of_lookup in Hs as [i Hi].
    destruct (Forall2_lookup_l _ _ _ _ _ Hc2 Hi) as (s' & Hi' & Hcs).
    exists s'. split; [by eapply list_elem_of_lookup_2|].
    destruct (offsets_eq _ _ (co_offsets _ _ Hcs)) as [Eb En].
    unfold in_segment in *. by rewrite Eb, En. }
  destruct Hex as (s0 & Hs0 & Hin0).
  destruct (list_find_elem_of (in_segment o) segs' s0 Hs0 Hin0) as [[i s'] Efind].
  pose proof Efind as Efind'.
  apply list_find_Some in Efind' as (Hi' & Hin' & _).
  destruct (Forall2_lookup_r _ _ _ _ _ Hc2 Hi') as (x & Hix & Hcx).
  assert (Hx : x ∈ segments l) by (by eapply list_elem_of_lookup_2).
  assert (Hinx : in_segment o x).
  { destruct (offsets_eq _ _ (co_offsets _ _ Hcx)) as [Eb En].
    unfold in_segment in *. by rewrite <- Eb, <- En. }
  destruct (segment_Read_closed _ fs x fs1' s' o
              (proj1 (Forall_forall _ _) Hsh x Hx)
              (proj1 (Forall_forall _ _) Hdata x Hx) Hmax Hcx Hinx
              (proj2 (Hcl x Hx))) as [Hres _].
  unfold Log_Read. cbn [segments set_segments]. rewrite Efind.
  destruct (Z.leb_spec (nextOffset s') o) as [|_]; [unfold in_segment in Hin'; lia|].
  destruct (segment_Read fs1' s' o) as [[? ?] ?]. done.
Qed.

End ClosedLog.

Lemma X8_witness :
  @None error = None /\
  LowestOffset closed_log = LowestOffset three_log /\
  HighestOffset closed_log = HighestOffset three_log /\
  (Log_Close closed_fs closed_log).2 = Some ErrClosed /\
  (Log_Close closed_fs closed_log).1.1 = closed_fs /\
  (forall s o, s ∈ segments three_log -> in_segment o s ->
     (Log_Read closed_fs closed_log o).2 = (None, Some ErrClosed)).
Proof.
  assert (Hne : segments three_log <> []) by (vm_compute; discriminate).
  assert (Hclose : Log_Close three_fs three_log = (closed_fs, closed_log, None))
    by (vm_compute; reflexivity).
  exact (X8_Log_is_unusable_after_Close test_config three_fs three_log closed_fs closed_log None
           three_reachable Hne Hclose).
Defined.

(** ** Rolling over *)

Section RollOver.

Context `{Codec}.

Lemma Config_defaults_store c :
  MaxStoreBytes (Config_defaults c) = if MaxStoreBytes c =? 0 then 1024 else MaxStoreBytes c.
Proof.
  unfold Config_defaults. destruct (MaxStoreBytes c =? 0); cbn;
    destruct (MaxIndexBytes c =? 0); done.
Qed.

Lemma activeSegment_set_active l a s :
  activeSegment l = Some a -> activeSegment (set_active l s) = Some s.
Proof.
  unfold activeSegment, set_active. destruct (orphan l) as [d|] eqn:Eo; cbn; [done|].
  unfold set_last. destruct (segments l) as [|x rest]; [done|].
  intros _. by rewrite last_snoc.
Qed.

(** X9. An [Append] that succeeds never leaves a maxed segment active: when
    the segment it wrote to is maxed afterwards, the log has rolled over
    to a new, empty segment before the call returns. *)
Theorem X9_successful_Append_leaves_room (c : Config) (fs : FS) (l : Log) (r : Record_)
    (fs' : FS) (l' : Log) (r' : Record_) (off : Z) :
  reachable c fs l -> append_in_bounds l r ->
  Log_Append fs l r = (fs', l', r', (off, None)) ->
  exists a', activeSegment l' = Some a' /\ IsMaxed a' = false.
Proof.
  intros Hre Hb Happ.
  pose proof (reachable_Config_ok _ _ _ Hre) as Hok.
  destruct (Config_ok_defaults _ Hok) as [Hcfg _].
  destruct (reachable_inv _ _ _ Hre) as [Hshape _].
  assert (Hlt : forall a0, activeSegment l = Some a0 -> nextOffset a0 < MaxUint64).
  { intros a0 Ha0. unfold append_in_bounds in Hb. rewrite Ha0 in Hb. apply Hb. }
  destruct (Log_Append_step _ _ _ _ _ _ _ _ Hshape Hlt Happ)
    as (a & Ha & fs1 & a1 & res1 & Eseg & Eres & Hcase).
  assert (Hstore : 0 < MaxStoreBytes (Config_defaults c)).
  { rewrite Config_defaults_store. destruct Hok as ([? ?] & _).
    destruct (Z.eqb_spec (MaxStoreBytes c) 0); lia. }
  assert (Hfresh : forall n b, IsMaxed (fresh_segment n b (Config_defaults c)) = false).
  { intros n b. unfold IsMaxed, fresh_segment. cbn.
    destruct (Z.leb_spec (MaxStoreBytes (Config_defaults c)) 0); [lia|].
    destruct (Z.leb_spec (MaxIndexBytes (Config_defaults c)) 0); [lia|]. done. }
  destruct Hcase as [[-> ->]|(_ & -> & _)].
  - exists a1. split; [by eapply activeSegment_set_active|].
    unfold Log_Append in Happ. rewrite Ha, Eseg in Happ.
    destruct res1 as [off1 [e|]]; [done|].
    destruct (IsMaxed a1) eqn:Emax; [|done]. exfalso.
    destruct (Log_newSegment fs1 (set_active l a1) (wrap64 (off1 + 1)))
      as [[fs2 l2] err2] eqn:Enew.
    assert (El : l2 = set_active l a1) by congruence.
    assert (Eerr : err2 = None) by congruence. subst err2.
    unfold Log_newSegment in Enew.
    destruct (newSegment fs1 _ _) as [[fs3 [s|]] [e|]]; try done.
    assert (El2 : l2 = {| l_Config := l_Config (set_active l a1);
                          segments := segments (set_active l a1) ++ [s];
                          orphan := None |}) by congruence.
    rewrite El2 in El.
    apply (f_equal (fun x => length (segments x))) in El. cbn in El.
    rewrite length_app in El. cbn in El. lia.
  - eexists. split; [|apply Hfresh].
    unfold activeSegment. cbn [orphan segments]. by rewrite last_snoc.
Qed.

End RollOver.

Lemma X9_witness :
  exists a', activeSegment four_log = Some a' /\ IsMaxed a' = false.
Proof.
  assert (Hb : append_in_bounds three_log hello)
    by (apply bounds_check_ok; vm_compute; reflexivity).
  assert (Happ : Log_Append three_fs three_log hello
                 = (four_fs, four_log, (Log_Append three_fs three_log hello).1.2, (3, None)))
    by (vm_compute; reflexivity).
  exact (X9_successful_Append_leaves_room test_config three_fs three_log hello four_fs four_log
           _ 3 three_reachable Hb Happ).
Defined.

(** ** Reading the whole log *)

Lemma NoDup_fmap_via {A B C} (f : A -> B) (g : A -> C) (l : list A) :
  (forall x y, x ∈ l -> y ∈ l -> f x = f y -> g x = g y) ->
  NoDup (g <$> l) -> NoDup (f <$> l).
Proof.
  induction l as [|a l IH]; intros Hfg Hnd; [constructor|].
  rewrite fmap_cons in *. apply NoDup_cons in Hnd as [Hni Hnd]. apply NoDup_cons. split.
  - intros Hin. apply list_elem_of_fmap in Hin as (y & Ey & Hy).
    apply Hni. apply list_elem_of_fmap. exists y. split; [|done].
    apply Hfg; [left|by right|done].
  - apply IH; [|done]. intros x y Hx Hy. apply Hfg; by right.
Qed.

Section Reading.

Context `{Codec}.

Lemma reachable_readable c fs l : reachable c fs l -> readable fs l.
Proof.
  intros Hre. destruct (reachable_inv _ _ _ Hre) as [Hshape Hdata].
  pose proof (ls_fs _ _ _ Hshape) as Hfs. pose proof (ls_live _ _ _ Hshape) as Hlv.
  split.
  - eapply Forall_impl; [exact Hlv|]. intros s Hs. by eapply seg_live_store_open.
  - apply (NoDup_fmap_via _ baseOffset); [|apply (chain_NoDup_bases _ (ls_chain _ _ _ Hshape))].
    intros x y Hx Hy E.
    pose proof (lv_sbound _ _ (proj1 (Forall_forall _ _) Hlv x Hx)) as Bx.
    pose proof (lv_sbound _ _ (proj1 (Forall_forall _ _) Hlv y Hy)) as By.
    rewrite <- E in By.
    pose proof (fs_inj _ Hfs _ _ _ Bx By) as En.
    apply store_name_inj; [| |done].
    + apply (seg_shape_uint64 (Config_defaults c)).
      by apply (proj1 (Forall_forall _ _) (ls_segs _ _ _ Hshape) x).
    + apply (seg_shape_uint64 (Config_defaults c)).
      by apply (proj1 (Forall_forall _ _) (ls_segs _ _ _ Hshape) y).
  - unfold views. apply Forall_fmap. eapply Forall_impl; [exact Hdata|].
    intros s Hs. cbn. rewrite <- (sd_size _ _ Hs). apply (sd_lt _ _ Hs).
Qed.

Lemma views_lookup fs l i s :
  segments l !! i = Some s -> views fs l !! i = Some (store_view fs (store s)).
Proof. intros Hs. unfold views. by rewrite list_lookup_fmap, Hs. Qed.

(** One [Read] of one reader: the next bytes of its store, at most [n],
    with [io.EOF] when they are fewer than [n]. *)
Lemma origiinReader_Read_rest fs l r n :
  readable fs l -> reader_ok (views fs l) r -> 0 < n ->
  exists fs1 l1 r1 b,
    origiinReader_Read fs l r n =
      (fs1, l1, r1, (b, if len b <? n then Some EOF else None)) /\
    readable fs1 l1 /\ views fs1 l1 = views fs l /\
    b = take (Z.to_nat n) (reader_rest (views fs l) r) /\
    or_store r1 = or_store r /\ or_off r1 = or_off r + len b.
Proof.
  intros [Hopen Hinos Hlen] (v & Hv & Hoff) Hn.
  unfold origiinReader_Read, reader_rest. rewrite Hv. cbn [default].
  unfold views in Hv. rewrite list_lookup_fmap in Hv.
  destruct (segments l !! or_store r) as [s|] eqn:Es; [|done].
  cbn in Hv. injection Hv as <-.
  assert (Hs : s ∈ segments l) by (by eapply list_elem_of_lookup_2).
  pose proof (proj1 (Forall_forall _ _) Hopen s Hs) as Hso.
  assert (Hvl : len (store_view fs (store s)) < 2 ^ 63).
  { apply (proj1 (Forall_forall _ _) Hlen). unfold views.
    exact (list_elem_of_fmap_2 (fun s0 : segment => store_view fs (store s0)) _ _ Hs). }
  unfold Store_ReadAt.
  destruct (buf_Flush_open fs (store s) Hso)
    as (fs1 & s1 & -> & Hso1 & Hnil & Hview & [Hnames Hframe] & Hfile & _).
  assert (Hc : contents fs1 (f_ino (st_file s1)) = store_view fs (store s)).
  { rewrite <- Hview. unfold store_view. by rewrite Hnil, app_nil_r. }
  unfold File_ReadAt. rewrite (so_open _ Hso1), Hc.
  destruct (Z.ltb_spec (or_off r) 0) as [|_]; [lia|].
  destruct (Z.eqb_spec n 0) as [|_]; [lia|].
  set (view := store_view fs (store s)) in *.
  set (b := slice view (or_off r) n).
  assert (Hb : len b <= len view - or_off r).
  { unfold b, slice, len in *. rewrite length_take, length_drop. lia. }
  assert (Hsegs : (fun s0 => store_view fs1 (store s0)) <$>
                    <[or_store r := set_store s s1]> (segments l) = views fs l).
  { unfold views. apply list_eq. intros j. rewrite !list_lookup_fmap.
    destruct (decide (j = or_store r)) as [->|Hj].
    - rewrite list_lookup_insert_eq by (by eapply lookup_lt_Some). rewrite Es. cbn.
      by rewrite Hview.
    - rewrite list_lookup_insert_ne by done.
      destruct (segments l !! j) as [sj|] eqn:Ej; [|done]. cbn. f_equal.
      unfold store_view. rewrite Hframe; [done|].
      intros Eino.
      apply Hj. eapply (NoDup_lookup _ _ _ _ Hinos).
      + rewrite list_lookup_fmap, Ej. cbn. by rewrite Eino.
      + by rewrite list_lookup_fmap, Es. }
  exists fs1, (set_segments l (<[or_store r := set_store s s1]> (segments l))),
    {| or_store := or_store r; or_off := to_int64 (wrap64 (or_off r + len b)) |}, b.
  split.
  { by destruct (Z.ltb_spec (len b) n). }
  split.
  { split; cbn [segments set_segments].
    - apply Forall_insert; [done|]. by cbn.
    - rewrite list_fmap_insert. cbn. rewrite list_insert_id; [done|].
      by rewrite list_lookup_fmap, Es, Hfile.
    - unfold views at 1. cbn [segments set_segments]. by rewrite Hsegs. }
  split; [done|]. split; [done|]. split; [done|]. cbn.
  unfold len in Hb |- *.
  rewrite wrap64_small, to_int64_small; unfold len in *; lia.
Qed.

Lemma reader_rest_nil vs r : reader_ok vs r -> len (reader_rest vs r) = 0 ->
  reader_rest vs r = [].
Proof. intros _ Hl. destruct (reader_rest vs r); [done|]. unfold len in Hl. cbn in Hl. lia. Qed.

(** One [Read] of the multi-reader: the next bytes of what the readers
    have left, at least one unless nothing is left. *)
Lemma multi_Read_rest n : 0 < n ->
  forall rs fs l,
    readable fs l -> Forall (reader_ok (views fs l)) rs ->
    exists fs1 l1 rs1 b err,
      multi_Read fs l rs n = (fs1, l1, rs1, (b, err)) /\
      readable fs1 l1 /\ views fs1 l1 = views fs l /\
      Forall (reader_ok (views fs l)) rs1 /\
      readers_rest (views fs l) rs = b ++ readers_rest (views fs l) rs1 /\
      (0 < len b /\ err = None \/ err = Some EOF /\ rs1 = []).
Proof.
  intros Hn. induction rs as [|r rest IH]; intros fs l Hrd Hok.
  - exists fs, l, [], [], (Some EOF). cbn. split; [done|]. split; [done|]. split; [done|].
    split; [done|]. split; [done|]. by right.
  - apply Forall_cons in Hok as [Hr Hrest].
    destruct (origiinReader_Read_rest fs l r n Hrd Hr Hn)
      as (fs1 & l1 & r1 & b & E & Hrd1 & Hv1 & Hb & Hst & Hoff).
    cbn [multi_Read]. rewrite E.
    unfold readers_rest. rewrite fmap_cons. cbn [concat].
    set (avail := reader_rest (views fs l) r) in *.
    assert (Hlb : len b <= n /\ len b <= len avail).
    { rewrite Hb. unfold len. rewrite length_take. lia. }
    destruct (Z.ltb_spec (len b) n) as [Hshort|Hfull].
    + assert (Hall : b = avail).
      { rewrite Hb. apply take_ge. rewrite Hb in Hshort. unfold len in Hshort.
        rewrite length_take in Hshort. lia. }
      destruct (Z.ltb_spec 0 (len b)) as [Hpos|Hzero].
      * exists fs1, l1, rest, b.
        exists (match rest with [] => Some EOF | _ :: _ => None end).
        split; [done|]. split; [done|]. split; [done|]. split; [done|].
        split; [by rewrite Hall|].
        destruct rest; [by right|by left].
      * assert (Hnil : avail = []).
        { rewrite <- Hall. destruct b; [done|]. unfold len in Hzero. cbn in Hzero. lia. }
        rewrite Hnil. cbn [app].
        destruct (IH fs1 l1 Hrd1) as (fs2 & l2 & rs2 & b2 & err2 & E2 & Hrd2 & Hv2 & Hok2 & Hrest2 & Hc).
        { by rewrite Hv1. }
        rewrite Hv1 in *.
        exists fs2, l2, rs2, b2, err2. split; [done|]. split; [done|].
        split; [congruence|]. split; [done|]. split; [done|]. done.
    + assert (Hl : len b = n) by lia.
      exists fs1, l1, (r1 :: rest), b, None.
      split; [done|]. split; [done|]. split; [done|].
      assert (Hr1 : reader_rest (views fs l) r1 = drop (Z.to_nat n) avail).
      { unfold avail, reader_rest. rewrite Hst, Hoff, Hl.
        destruct Hr as (v & Hv & Hvo). rewrite Hv. cbn [default from_option]. unfold id.
        rewrite drop_drop. f_equal. lia. }
      split.
      { apply Forall_cons. split; [|done].
        destruct Hr as (v & Hv & Hvo). exists v. rewrite Hst. split; [done|].
        rewrite Hoff. unfold avail, reader_rest in Hlb. rewrite Hv in Hlb. cbn in Hlb.
        unfold len in *. rewrite length_drop in Hlb. lia. }
      split; [|left; split; [lia|done]].
      rewrite fmap_cons. cbn [concat]. rewrite Hr1, app_assoc. f_equal.
      rewrite Hb. apply symmetry, take_drop.
Qed.

(** Reading until [io.EOF] with any buffers that are not empty collects
    everything the readers have left. *)
Lemma read_chunks_rest : forall sizes rs fs l got,
  readable fs l -> Forall (reader_ok (views fs l)) rs ->
  Forall (fun n => 0 < n) sizes ->
  len (readers_rest (views fs l) rs) < len sizes ->
  (read_chunks fs l rs sizes got).2 = (got ++ readers_rest (views fs l) rs, Some EOF).
Proof.
  induction sizes as [|n sizes IH]; intros rs fs l got Hrd Hok Hpos Hlen.
  - unfold len in Hlen. cbn in Hlen. lia.
  - apply Forall_cons in Hpos as [Hn Hpos].
    destruct (multi_Read_rest n Hn rs fs l Hrd Hok)
      as (fs1 & l1 & rs1 & b & err & E & Hrd1 & Hv1 & Hok1 & Hrest & Hc).
    cbn [read_chunks]. rewrite E, Hrest.
    destruct Hc as [[Hb ->]|[-> ->]].
    + rewrite IH; [by rewrite Hv1, app_assoc|done|by rewrite Hv1|done|].
      rewrite Hv1. rewrite Hrest in Hlen. unfold len in *.
      rewrite length_app in Hlen. cbn [length] in Hlen. lia.
    + cbn. unfold readers_rest. cbn. by rewrite app_nil_r.
Qed.

Lemma Log_Reader_rest fs l : readers_rest (views fs l) (Log_Reader l) = concat (views fs l).
Proof.
  unfold readers_rest, Log_Reader. f_equal. rewrite <- list_fmap_compose.
  replace (length (segments l)) with (length (views fs l))
    by (unfold views; by rewrite length_fmap).
  generalize (views fs l). intros vs. apply list_eq. intros i.
  rewrite list_lookup_fmap.
  destruct (vs !! i) as [v|] eqn:Ev.
  - rewrite lookup_seq_lt by (by eapply lookup_lt_Some). cbn.
    unfold reader_rest. cbn. by rewrite Ev.
  - rewrite lookup_seq_ge by (by apply lookup_ge_None). done.
Qed.

Lemma Log_Reader_ok fs l : Forall (reader_ok (views fs l)) (Log_Reader l).
Proof.
  unfold Log_Reader. apply Forall_fmap, Forall_forall. intros i Hi.
  apply elem_of_seq in Hi. unfold reader_ok. cbn.
  destruct (lookup_lt_is_Some_2 (views fs l) i) as [v Hv].
  { unfold views. rewrite length_fmap. lia. }
  exists v. split; [done|]. unfold len. lia.
Qed.

(** X10. Reading the reader that [Log.Reader] returns up to [io.EOF], with
    buffers of any sizes as long as none is empty, yields the bytes of the
    stores of the segments, in the order of the segments and including
    what was still buffered, and nothing else. *)
Theorem X10_Reader_yields_the_stores_in_order (c : Config) (fs : FS) (l : Log)
    (sizes : list Z) :
  reachable c fs l ->
  Forall (fun n => 0 < n) sizes ->
  len (concat (views fs l)) < len sizes ->
  (read_chunks fs l (Log_Reader l) sizes []).2 = (concat (views fs l), Some EOF).
Proof.
  intros Hre Hpos Hlen.
  rewrite (read_chunks_rest sizes (Log_Reader l) fs l [] (reachable_readable _ _ _ Hre)
             (Log_Reader_ok fs l) Hpos); rewrite Log_Reader_rest; done.
Qed.

End Reading.

Lemma X10_witness :
  (read_chunks three_fs three_log (Log_Reader three_log) (replicate 100 512) []).2 =
    (concat (views three_fs three_log), Some EOF).
Proof.
  assert (Hpos : Forall (fun n => 0 < n) (replicate 100 512))
    by (apply Forall_replicate; lia).
  assert (Hlen : len (concat (views three_fs three_log)) < len (replicate 100 512))
    by (vm_compute; reflexivity).
  exact (X10_Reader_yields_the_stores_in_order test_config three_fs three_log
           (replicate 100 512) three_reachable Hpos Hlen).
Defined.

(** ** An index file longer than the mapping *)

(** X21. [newSegment] over a store file and an index file that exist
    faults when the index file is at least one entry longer than
    [MaxIndexBytes]: [newIndex] takes the length of the file as the size of
    the index and cuts the file and its mapping to [MaxIndexBytes], so
    [index.Read(-1)] looks for the last entry past the end of the
    mapping.  No segment is returned. *)
Theorem X21_newSegment_faults_on_a_long_index (fs : FS) (b : Z) (c : Config)
    (sino iino : nat) :
  names fs !! store_name b = Some sino -> names fs !! index_name b = Some iino ->
  0 < MaxIndexBytes c < 2 ^ 63 ->
  MaxIndexBytes c + endWidth <= len (contents fs iino) < endWidth * 2 ^ 32 ->
  (newSegment fs b c).2 = Some Panic /\ (newSegment fs b c).1.2 = None.
Proof.
  intros Hs Hi Hc Hlong. unfold newSegment, os_OpenFile. rewrite Hs.
  unfold newStore, os_Stat, File_Name. cbn [f_name]. rewrite Hs, Hi.
  unfold newIndex, os_Stat, os_Truncate, File_Name. cbn [f_name f_ino]. rewrite Hi.
  rewrite to_int64_small by lia.
  destruct (Z.ltb_spec (MaxIndexBytes c) 0) as [|_]; [lia|].
  unfold ftruncate. rewrite contents_set_contents_eq, len_resize by lia.
  destruct (Z.eqb_spec (MaxIndexBytes c) 0) as [|_]; [lia|].
  unfold index_Read. cbn [i_size i_mlen i_file f_ino].
  rewrite contents_set_contents_eq, len_resize by lia.
  unfold endWidth, offWidth, posWidth in *. change (4 + 8) with 12 in *.
  assert (Hn : wrap64 (len (contents fs iino)) = len (contents fs iino))
    by (apply wrap64_small; lia).
  rewrite Hn. set (n := len (contents fs iino)) in *.
  destruct (Z.eqb_spec n 0) as [|_]; [lia|].
  change (-1 =? -1) with true. cbn match.
  assert (Hq : 1 <= n / 12 < 2 ^ 32).
  { split; [apply Z.div_le_lower_bound; lia|apply Z.div_lt_upper_bound; lia]. }
  assert (Hout : wrap32 (wrap64 (n / 12 - 1)) = n / 12 - 1).
  { rewrite wrap64_small by lia. apply wrap32_small. lia. }
  rewrite Hout.
  pose proof (Z.mul_div_le n 12 ltac:(lia)) as Hle.
  pose proof (Z.mul_succ_div_gt n 12 ltac:(lia)) as Hgt.
  destruct (Z.ltb_spec n ((n / 12 - 1) * 12 + 12)) as [|_]; [lia|].
  rewrite orb_diag.
  destruct (Z.ltb_spec (MaxIndexBytes c) ((n / 12 - 1) * 12 + 12)) as [_|]; [done|lia].
Qed.

Lemma NewLog_long_index : (NewLog long_fs zero_config).2 = Some Panic.
Proof. vm_compute. reflexivity. Qed.

Lemma X21_witness :
  (newSegment long_fs 0 (Config_defaults zero_config)).2 = Some Panic /\
  (newSegment long_fs 0 (Config_defaults zero_config)).1.2 = None.
Proof.
  assert (Hs : names long_fs !! store_name 0 = Some 0%nat) by (vm_compute; reflexivity).
  assert (Hi : names long_fs !! index_name 0 = Some 1%nat) by (vm_compute; reflexivity).
  assert (Hc : 0 < MaxIndexBytes (Config_defaults zero_config) < 2 ^ 63)
    by (vm_compute; split; reflexivity).
  assert (Hl : MaxIndexBytes (Config_defaults zero_config) + endWidth
               <= len (contents long_fs 1%nat) < endWidth * 2 ^ 32)
    by (vm_compute; split; [discriminate|reflexivity]).
  exact (X21_newSegment_faults_on_a_long_index long_fs 0 (Config_defaults zero_config)
           0%nat 1%nat Hs Hi Hc Hl).
Defined.

(** ** A log that holds nothing *)

Section EmptyLog.

Context `{Codec}.

(** X22. When the last segment's [nextOffset] is 0, the log starts at 0 and
    holds no record: [LowestOffset] and [HighestOffset] both return 0, the
    latter through its guard, and [Read] fails with
    [ErrorOffsetOutOfRange] for every offset, offset 0 included. *)
Theorem X22_log_at_zero_holds_nothing (c : Config) (fs : FS) (l : Log) (a : segment) (o : Z) :
  reachable c fs l -> last (segments l) = Some a -> nextOffset a = 0 -> 0 <= o ->
  LowestOffset l = (0, None) /\ HighestOffset l = (0, None) /\
  Log_Read fs l o = (fs, l, (None, Some (ErrorOffsetOutOfRange o))).
Proof.
  intros Hre Hla Hnext Ho.
  destruct (reachable_inv _ _ _ Hre) as [Hshape _].
  pose proof (ls_segs _ _ _ Hshape) as Hsh. pose proof (ls_chain _ _ _ Hshape) as Hch.
  destruct (segments l) as [|s0 rest] eqn:Esegs; [done|].
  assert (Hrange : forall s, s ∈ s0 :: rest ->
            baseOffset s0 <= baseOffset s /\ nextOffset s <= nextOffset a).
  { intros s Hs. by apply (chain_range _ _ s0 a s Hch Hsh eq_refl Hla). }
  assert (Hs0 : seg_shape (Config_defaults c) s0).
  { eapply Forall_forall; [exact Hsh|left]. }
  pose proof (sh_base _ _ Hs0) as Hb0. pose proof (sh_next _ _ Hs0) as Hn0.
  destruct (Hrange s0 ltac:(left)) as [_ Hle0].
  split; [|split].
  - unfold LowestOffset. rewrite Esegs. f_equal. lia.
  - unfold HighestOffset. rewrite Esegs, Hla, Hnext. done.
  - apply Log_Read_outside. rewrite Esegs. intros s Hs [Hs1 Hs2].
    destruct (Hrange s Hs) as [_ Hle]. lia.
Qed.

End EmptyLog.

Lemma X22_witness :
  LowestOffset fresh_log = (0, None) /\ HighestOffset fresh_log = (0, None) /\
  Log_Read fresh_fs fresh_log 0
    = (fresh_fs, fresh_log, (None, Some (ErrorOffsetOutOfRange 0))).
Proof.
  assert (Hla : last (segments fresh_log)
                = Some (fresh_segment 0 0 (Config_defaults test_config)))
    by (vm_compute; reflexivity).
  assert (Ho : 0 <= 0) by lia.
  exact (X22_log_at_zero_holds_nothing test_config fresh_fs fresh_log
           (fresh_segment 0 0 (Config_defaults test_config)) 0
           fresh_reachable Hla eq_refl Ho).
Defined.

(** ** [nearestMultiple] *)

(** X11. [nearestMultiple(j, k)] panics exactly when [k] is zero.
    Otherwise the result is a multiple of [k]: zero for [j = 0]; the largest
    multiple not above [j - k + 1] when [k <= j + 1]; and, when [k] exceeds
    [j + 1], the subtraction wraps and the result is the largest multiple
    not above [2^64 + j - k + 1]. *)
Theorem X11_nearestMultiple_result (j k : Z) :
  uint64 j -> uint64 k ->
  (nearestMultiple j k = None <-> k = 0) /\
  (forall r, nearestMultiple j k = Some r ->
     uint64 r /\ r mod k = 0 /\
     (j = 0 -> r = 0) /\
     (0 < j -> k <= j + 1 -> r <= j - k + 1 < r + k) /\
     (0 < j -> j + 1 < k -> r <= 2 ^ 64 + j - k + 1 < r + k)).
Proof.
  unfold uint64, nearestMultiple. intros Hj Hk.
  destruct (Z.eqb_spec k 0) as [->|Hk0]; [split; [done|]; intros r [=]|].
  split; [split; [by destruct (j =? 0)|done]|].
  assert (Hdiv : forall x, 0 <= x < 2 ^ 64 ->
            wrap64 (x / k * k) = x / k * k /\ 0 <= x / k * k <= x /\ x < x / k * k + k /\
            (x / k * k) mod k = 0).
  { intros x Hx.
    pose proof (Z.mul_div_le x k ltac:(lia)) as H1.
    pose proof (Z.mul_succ_div_gt x k ltac:(lia)) as H2.
    pose proof (Z.div_pos x k ltac:(lia) ltac:(lia)) as H3.
    assert (0 <= x / k * k <= x) by nia.
    split; [unfold wrap64; apply Z.mod_small; lia|].
    split; [done|]. split; [nia|]. apply Z.mod_mul. lia. }
  intros r. destruct (Z.eqb_spec j 0) as [->|Hj0].
  - intros [= <-]. destruct (Hdiv 0 ltac:(lia)) as (-> & ? & ? & ?).
    rewrite Z.div_0_l by lia. cbn. rewrite Z.mod_0_l by lia. repeat split; lia.
  - assert (Hw : wrap64 (wrap64 (j - k) + 1) = (j - k + 1) mod 2 ^ 64).
    { unfold wrap64. by rewrite Z.add_mod_idemp_l. }
    rewrite Hw. intros [= <-].
    pose proof (Z.mod_pos_bound (j - k + 1) (2 ^ 64) ltac:(lia)) as Hb.
    destruct (Hdiv _ Hb) as (-> & ? & ? & ?).
    split; [lia|]. split; [done|]. split; [lia|]. split.
    + intros _ Hle. rewrite Z.mod_small in * by lia. lia.
    + intros _ Hlt.
      assert (E : (j - k + 1) mod 2 ^ 64 = 2 ^ 64 + j - k + 1).
      { symmetry. apply (Z.mod_unique _ _ (-1)); lia. }
      rewrite E in *. lia.
Qed.

Lemma X11_witness :
  (nearestMultiple 10 4 = None <-> 4 = 0) /\
  (forall r, nearestMultiple 10 4 = Some r ->
     uint64 r /\ r mod 4 = 0 /\
     (10 = 0 -> r = 0) /\
     (0 < 10 -> 4 <= 10 + 1 -> r <= 10 - 4 + 1 < r + 4) /\
     (0 < 10 -> 10 + 1 < 4 -> r <= 2 ^ 64 + 10 - 4 + 1 < r + 4)).
Proof. apply (X11_nearestMultiple_result 10 4); unfold uint64; lia. Defined.

(** ** The membership event handler *)

Section Membership.

Import discovery.

Context {H : Type} `{Handler H}.

Lemma handleJoin_NodeName (m : MemberShip H) member :
  NodeName (handleJoin m member) = NodeName m.
Proof. unfold handleJoin. by destruct (Join _ _ _) as [? [?|]]. Qed.

Lemma handleLeave_NodeName (m : MemberShip H) member :
  NodeName (handleLeave m member) = NodeName m.
Proof. unfold handleLeave. by destruct (Leave _ _) as [? [?|]]. Qed.

Lemma leave_loop_NodeName members : forall m : MemberShip H,
  NodeName (leave_loop m members).1 = NodeName m.
Proof.
  induction members as [|member rest IH]; intros m; cbn; [done|].
  destruct (isLocal m member); [done|]. by rewrite IH, handleLeave_NodeName.
Qed.

Lemma leave_loop_local pre : forall (m : MemberShip H) local post,
  Name local = NodeName m ->
  leave_loop m (pre ++ local :: post) = ((leave_loop m pre).1, true).
Proof.
  induction pre as [|member rest IH]; intros m local post Hl; cbn.
  - unfold isLocal. by rewrite bool_decide_eq_true_2.
  - destruct (isLocal m member); [done|].
    apply IH. by rewrite handleLeave_NodeName.
Qed.

(** X12. The handler stops for good at a leave or failure event that lists
    the local node: the members listed before it are handled, the members
    listed after it and every later event are not. *)
Theorem X12_local_leave_stops_the_handler (m : MemberShip H) (e : Event)
    (pre post : list Member) (local : Member) (rest : list Event) :
  EventType_ e = EventMemberLeave \/ EventType_ e = EventMemberFailed ->
  Members e = pre ++ local :: post ->
  Name local = NodeName m ->
  eventHandler m (e :: rest) = (leave_loop m pre).1.
Proof.
  intros Hty Hm Hl. cbn [eventHandler].
  rewrite Hm, (leave_loop_local pre m local post Hl).
  by destruct Hty as [-> | ->].
Qed.

End Membership.

Section Recorded.

Import discovery.

Definition node : Type := MemberShip (list call).

Definition not_local (m : node) (calls : list call) : Prop :=
  Forall (fun c => call_name c <> NodeName m) calls.

Lemma join_loop_calls members : forall m : node,
  exists calls, handler (join_loop m members) = handler m ++ calls /\
                NodeName (join_loop m members) = NodeName m /\ not_local m calls.
Proof.
  induction members as [|member rest IH]; intros m; cbn [join_loop].
  - exists []. rewrite app_nil_r. split; [done|]. split; [done|]. constructor.
  - unfold isLocal. case_bool_decide as Hn; [apply IH|].
    destruct (IH (handleJoin m member)) as (calls & E & En & Hc).
    exists (JoinCall (Name member) (tag member "rcp_addr") :: calls).
    rewrite E, En. cbn. rewrite <- app_assoc. split; [done|]. split; [done|].
    constructor; [cbn; congruence|done].
Qed.

Lemma leave_loop_calls members : forall m : node,
  exists calls, handler (leave_loop m members).1 = handler m ++ calls /\
                not_local m calls.
Proof.
  induction members as [|member rest IH]; intros m; cbn [leave_loop].
  - exists []. rewrite app_nil_r. split; [done|]. constructor.
  - unfold isLocal. case_bool_decide as Hn.
    { exists []. rewrite app_nil_r. split; [done|]. constructor. }
    destruct (IH (handleLeave m member)) as (calls & E & Hc).
    exists (LeaveCall (Name member) :: calls).
    rewrite E. cbn. rewrite <- app_assoc. split; [done|].
    constructor; [cbn; congruence|done].
Qed.

(** X13. Whatever events arrive, the handler's [Join] and [Leave] are never
    called with the name of the local node: the calls that the event handler
    adds all name other members. *)
Theorem X13_handler_never_called_for_the_local_node (m : node) (events : list Event) :
  exists calls,
    handler (eventHandler m events) = handler m ++ calls /\
    Forall (fun c => call_name c <> NodeName m) calls.
Proof.
  revert m. induction events as [|e rest IH]; intros m; cbn [eventHandler].
  - exists []. rewrite app_nil_r. split; [done|]. constructor.
  - assert (Hskip : exists calls, handler (eventHandler m rest) = handler m ++ calls /\
                      Forall (fun c => call_name c <> NodeName m) calls) by apply IH.
    destruct (EventType_ e); try exact Hskip.
    + destruct (join_loop_calls (Members e) m) as (c1 & E1 & En & H1).
      destruct (IH (join_loop m (Members e))) as (c2 & E2 & H2).
      exists (c1 ++ c2). rewrite E2, E1, En in *. rewrite <- app_assoc.
      split; [done|]. by apply Forall_app.
    + destruct (leave_loop_calls (Members e) m) as (c1 & E1 & H1).
      pose proof (leave_loop_NodeName (Members e) m) as En.
      destruct (leave_loop m (Members e)) as [m' [|]]; cbn in *; [by exists c1|].
      destruct (IH m') as (c2 & E2 & H2).
      exists (c1 ++ c2). rewrite E2, E1, En in *. rewrite <- app_assoc.
      split; [done|]. by apply Forall_app.
    + destruct (leave_loop_calls (Members e) m) as (c1 & E1 & H1).
      pose proof (leave_loop_NodeName (Members e) m) as En.
      destruct (leave_loop m (Members e)) as [m' [|]]; cbn in *; [by exists c1|].
      destruct (IH m') as (c2 & E2 & H2).
      exists (c1 ++ c2). rewrite E2, E1, En in *. rewrite <- app_assoc.
      split; [done|]. by apply Forall_app.
Qed.

End Recorded.

Lemma X12_witness :
  discovery.eventHandler local_node
    [discovery.mkEvent discovery.EventMemberLeave [peer; self; peer2];
     discovery.mkEvent discovery.EventMemberJoin [peer2]]
  = (discovery.leave_loop local_node [peer]).1.
Proof.
  exact (X12_local_leave_stops_the_handler local_node
           (discovery.mkEvent discovery.EventMemberLeave [peer; self; peer2])
           [peer] [peer2] self
           [discovery.mkEvent discovery.EventMemberJoin [peer2]]
           (or_introl eq_refl) eq_refl eq_refl).
Defined.

(** ** The replicator *)

Module replicator_facts.

Import replicator.

(** A server is listed with leave channel [ch]. *)
Definition listed (r : Replicator) (ch : nat) : Prop :=
  exists m name, servers r = Some m /\ m !! name = Some ch.

(** What holds of a replicator between two calls. *)
Record inv (r : Replicator) : Prop := {
  inv_open : forall ch, listed r ch -> chans r !! ch = Some false;
  inv_inj : forall m n1 n2 ch,
      servers r = Some m -> m !! n1 = Some ch -> m !! n2 = Some ch -> n1 = n2;
  inv_close : forall c, close r = Some c -> chans r !! c = Some (closed r);
  inv_nil : close r = None -> closed r = false;
  inv_apart : forall ch, listed r ch -> close r <> Some ch;
  inv_started : forall addr ch, (addr, ch) ∈ started r ->
      is_Some (chans r !! ch) /\ (chans r !! ch = Some false -> listed r ch)
}.

(** The replicator went through [init]. *)
Definition ready (r : Replicator) : Prop :=
  is_Some (servers r) /\ is_Some (close r).

Lemma inv_zero : inv zero.
Proof.
  split; unfold listed; cbn.
  - by intros ch (m & name & [=] & _).
  - done.
  - done.
  - done.
  - by intros ch (m & name & [=] & _).
  - intros addr ch Hin. by apply elem_of_nil in Hin.
Qed.

Lemma init_ready r : ready (init r).
Proof.
  unfold ready, init. destruct (servers r) eqn:Es; cbn; destruct (close r) eqn:Ec; cbn;
    rewrite ?Es, ?Ec; split; by eexists.
Qed.

Lemma init_id r : ready r -> init r = r.
Proof. intros [[m Hm] [c Hc]]. unfold init. by rewrite Hm, Hc. Qed.

Lemma init_closed r : closed (init r) = closed r.
Proof. unfold init. destruct (servers r); cbn; by destruct (close r). Qed.

Lemma init_started r : started (init r) = started r.
Proof. unfold init. destruct (servers r); cbn; by destruct (close r). Qed.

Lemma listed_lt r ch : inv r -> listed r ch -> (ch < length (chans r))%nat.
Proof. intros Hi Hl. eapply lookup_lt_Some, (inv_open r Hi ch Hl). Qed.

Lemma init_inv r : inv r -> inv (init r).
Proof.
  intros Hi. unfold init.
  assert (Hi1 : inv match servers r with
                    | None => {| servers := Some ∅; closed := closed r; close := close r;
                                 chans := chans r; started := started r |}
                    | Some _ => r
                    end).
  { destruct (servers r) as [m|] eqn:Em; [done|].
    split; unfold listed; cbn.
    - intros ch (m & name & [= <-] & Hn). by rewrite lookup_empty in Hn.
    - intros m n1 n2 ch [= <-] Hn. by rewrite lookup_empty in Hn.
    - apply (inv_close r Hi).
    - apply (inv_nil r Hi).
    - intros ch (m & name & [= <-] & Hn). by rewrite lookup_empty in Hn.
    - intros addr ch Hin. destruct (inv_started r Hi addr ch Hin) as [Hs Hl].
      split; [done|]. intros Hf. destruct (Hl Hf) as (m & name & Hm & _). congruence. }
  set (r1 := match servers r with None => _ | Some _ => r end) in *. clearbody r1.
  destruct (close r1) as [c|] eqn:Ec; [done|].
  pose proof (inv_nil r1 Hi1 Ec) as Hcl.
  split; unfold listed; cbn.
  - intros ch Hl. rewrite lookup_app_l by (by apply listed_lt). by apply (inv_open r1 Hi1).
  - apply (inv_inj r1 Hi1).
  - intros c [= <-]. rewrite lookup_app_r by lia. rewrite Nat.sub_diag, Hcl. done.
  - done.
  - intros ch Hl [= E]. pose proof (listed_lt r1 ch Hi1 Hl). lia.
  - intros addr ch Hin. destruct (inv_started r1 Hi1 addr ch Hin) as [Hs Hl].
    pose proof (lookup_lt_is_Some_1 _ _ Hs) as Hlt.
    rewrite lookup_app_l by done. done.
Qed.

Lemma close_chan_Some chs ch : chs !! ch = Some false ->
  close_chan chs ch = Some (<[ch := true]> chs).
Proof. unfold close_chan. by intros ->. Qed.

Lemma Join_inv r name addr : inv r ->
  exists r', Join r name addr = Some (r', None) /\ inv r' /\ ready r' /\
             closed r' = closed r /\
             (closed r = true -> started r' = started r) /\
             (closed r' = true \/ exists m ch, servers r' = Some m /\ m !! name = Some ch).
Proof.
  intros Hi0. unfold Join.
  pose proof (init_inv r Hi0) as Hi. pose proof (init_ready r) as Hr.
  pose proof (init_closed r) as Ecl. pose proof (init_started r) as Est.
  set (r1 := init r) in *. clearbody r1.
  destruct (closed r1) eqn:Ec.
  { exists r1. split; [done|]. split; [done|]. split; [done|]. split; [congruence|].
    split; [done|]. by left. }
  destruct Hr as [[m Hm] Hc]. rewrite Hm. cbn [mbind option_bind].
  destruct (m !! name) as [ch|] eqn:En.
  { exists r1. split; [done|]. split; [done|].
    split; [split; [by eexists|done]|]. split; [congruence|].
    split; [congruence|]. right. by exists m, ch. }
  eexists. split; [done|]. split; [|split; [|split; [|split]]]; cbn.
  - split; unfold listed; cbn.
    + intros ch (m' & n & [= <-] & Hn).
      destruct (decide (n = name)) as [->|Hne].
      * rewrite lookup_insert_eq in Hn. injection Hn as <-.
        rewrite lookup_app_r by lia. by rewrite Nat.sub_diag.
      * rewrite lookup_insert_ne in Hn by done.
        assert (Hl : listed r1 ch) by (by exists m, n).
        rewrite lookup_app_l by (by apply listed_lt). by apply (inv_open r1 Hi).
    + intros m' n1 n2 ch [= <-] H1 H2.
      destruct (decide (n1 = name)) as [->|Hne1], (decide (n2 = name)) as [->|Hne2]; [done|..].
      * rewrite lookup_insert_eq in H1. rewrite lookup_insert_ne in H2 by done.
        injection H1 as <-.
        assert (Hl : listed r1 (length (chans r1))) by (by exists m, n2).
        pose proof (listed_lt r1 _ Hi Hl). lia.
      * rewrite lookup_insert_eq in H2. rewrite lookup_insert_ne in H1 by done.
        injection H2 as <-.
        assert (Hl : listed r1 (length (chans r1))) by (by exists m, n1).
        pose proof (listed_lt r1 _ Hi Hl). lia.
      * rewrite lookup_insert_ne in H1, H2 by done. by apply (inv_inj r1 Hi m n1 n2 ch).
    + intros c Hcc. pose proof (inv_close r1 Hi c Hcc) as Hlk.
      rewrite lookup_app_l by (by eapply lookup_lt_Some). by rewrite Hlk, Ec.
    + done.
    + intros ch (m' & n & [= <-] & Hn) Hcc.
      pose proof (inv_close r1 Hi ch Hcc) as Hlk. apply lookup_lt_Some in Hlk.
      destruct (decide (n = name)) as [->|Hne].
      * rewrite lookup_insert_eq in Hn. injection Hn as <-. lia.
      * rewrite lookup_insert_ne in Hn by done.
        by apply (inv_apart r1 Hi ch); [exists m, n|].
    + intros a ch Hin. apply elem_of_app in Hin as [Hin|Hin].
      * destruct (inv_started r1 Hi a ch Hin) as [Hs Hl].
        pose proof (lookup_lt_is_Some_1 _ _ Hs) as Hlt.
        rewrite lookup_app_l by done. split; [done|]. intros Hf.
        destruct (Hl Hf) as (m' & n & Hm' & Hn). rewrite Hm in Hm'. injection Hm' as <-.
        exists (<[name := length (chans r1)]> m), n. split; [done|].
        rewrite lookup_insert_ne; [done|]. intros ->. congruence.
      * apply list_elem_of_singleton in Hin. injection Hin as -> ->.
        rewrite lookup_app_r by lia. rewrite Nat.sub_diag. split; [by eexists|].
        intros _. exists (<[name := length (chans r1)]> m), name.
        by rewrite lookup_insert_eq.
  - split; cbn; [by eexists|done].
  - congruence.
  - congruence.
  - right. exists (<[name := length (chans r1)]> m), (length (chans r1)).
    by rewrite lookup_insert_eq.
Qed.

Lemma Leave_inv r name : inv r ->
  exists r', Leave r name = Some (r', None) /\ inv r' /\ ready r' /\
             closed r' = closed r /\ started r' = started r.
Proof.
  intros Hi0. unfold Leave.
  pose proof (init_inv r Hi0) as Hi. pose proof (init_ready r) as Hr.
  pose proof (init_closed r) as Ecl. pose proof (init_started r) as Est.
  set (r1 := init r) in *. clearbody r1.
  destruct Hr as [[m Hm] Hc]. rewrite Hm. cbn [mbind option_bind fmap option_fmap option_map].
  destruct (m !! name) as [ch|] eqn:En.
  2:{ exists r1. split; [done|]. split; [done|]. split; [split; [by eexists|done]|]. done. }
  assert (Hl : listed r1 ch) by (by exists m, name).
  pose proof (inv_open r1 Hi ch Hl) as Hopen.
  rewrite (close_chan_Some _ _ Hopen).
  eexists. split; [done|]. split; [|split; [|split]]; cbn; [|split; cbn; [by eexists|done]|done..].
  split; unfold listed; cbn.
  - intros ch' (m' & n & [= <-] & Hn).
    apply lookup_delete_Some in Hn as [Hne Hn].
    assert (ch' <> ch) by (intros ->; apply Hne; by apply (inv_inj r1 Hi m name n ch)).
    rewrite list_lookup_insert_ne by done.
    apply (inv_open r1 Hi). by exists m, n.
  - intros m' n1 n2 ch' [= <-] H1 H2.
    apply lookup_delete_Some in H1 as [_ H1]. apply lookup_delete_Some in H2 as [_ H2].
    by apply (inv_inj r1 Hi m n1 n2 ch').
  - intros c Hcc. pose proof (inv_apart r1 Hi ch Hl) as Hne.
    rewrite list_lookup_insert_ne by congruence. by apply (inv_close r1 Hi).
  - apply (inv_nil r1 Hi).
  - intros ch' (m' & n & [= <-] & Hn). apply lookup_delete_Some in Hn as [_ Hn].
    apply (inv_apart r1 Hi). by exists m, n.
  - intros a ch' Hin. destruct (inv_started r1 Hi a ch' Hin) as [Hs Hlst].
    split.
    + apply lookup_lt_is_Some. rewrite length_insert. by apply lookup_lt_is_Some.
    + destruct (decide (ch' = ch)) as [->|Hne].
      * rewrite list_lookup_insert_eq by (by eapply lookup_lt_Some). done.
      * rewrite list_lookup_insert_ne by done. intros Hf.
        destruct (Hlst Hf) as (m' & n & Hm' & Hn). rewrite Hm in Hm'. injection Hm' as <-.
        exists (delete name m), n. split; [done|]. apply lookup_delete_Some. split; [|done].
        intros ->. congruence.
Qed.

Lemma Close_inv r : inv r ->
  exists r', Close r = Some (r', None) /\ inv r' /\ ready r' /\
             closed r' = true /\ started r' = started r.
Proof.
  intros Hi0. unfold Close.
  pose proof (init_inv r Hi0) as Hi. pose proof (init_ready r) as Hr.
  pose proof (init_started r) as Est.
  set (r1 := init r) in *. clearbody r1.
  destruct (closed r1) eqn:Ec.
  { exists r1. split; [done|]. split; [done|]. split; [done|]. done. }
  destruct Hr as [Hs [c Hc]]. rewrite Hc.
  pose proof (inv_close r1 Hi c Hc) as Hopen. rewrite Ec in Hopen.
  rewrite (close_chan_Some _ _ Hopen).
  eexists. split; [done|]. split; [|split; [|split]]; cbn; [|split; cbn; [done|by eexists]|done..].
  assert (Hnl : ~ listed r1 c) by (intros Hl; by apply (inv_apart r1 Hi c Hl)).
  split; unfold listed; cbn.
  - intros ch Hl. assert (ch <> c) by (by intros ->).
    rewrite list_lookup_insert_ne by done. by apply (inv_open r1 Hi).
  - apply (inv_inj r1 Hi).
  - intros c' Hc'. injection Hc' as <-.
    by rewrite list_lookup_insert_eq by (by eapply lookup_lt_Some).
  - congruence.
  - rewrite <- Hc. apply (inv_apart r1 Hi).
  - intros a ch Hin. destruct (inv_started r1 Hi a ch Hin) as [Hst Hlst].
    split.
    + apply lookup_lt_is_Some. rewrite length_insert. by apply lookup_lt_is_Some.
    + destruct (decide (ch = c)) as [->|Hne].
      * by rewrite list_lookup_insert_eq by (by eapply lookup_lt_Some).
      * by rewrite list_lookup_insert_ne by done.
Qed.

Lemma step_inv r o : inv r ->
  exists r', step r o = Some (r', None) /\ inv r' /\ ready r' /\
             (closed r = true -> closed r' = true /\ started r' = started r).
Proof.
  intros Hi. destruct o as [name addr|name|]; cbn [step].
  - destruct (Join_inv r name addr Hi) as (r' & E & Hi' & Hr & Ec & Es & _).
    exists r'. split; [done|]. split; [done|]. split; [done|].
    intros Hc. split; [congruence|by apply Es].
  - destruct (Leave_inv r name Hi) as (r' & E & Hi' & Hr & Ec & Es).
    exists r'. split; [done|]. split; [done|]. split; [done|].
    intros Hc. split; [congruence|done].
  - destruct (Close_inv r Hi) as (r' & E & Hi' & Hr & Ec & Es).
    exists r'. by repeat (split; [done|]).
Qed.

Lemma run_inv ops : forall r, inv r ->
  exists r', run r ops = Some (r', replicate (length ops) None) /\ inv r' /\
             (closed r = true -> closed r' = true /\ started r' = started r).
Proof.
  induction ops as [|o rest IH]; intros r Hi; cbn [run length replicate].
  - exists r. by repeat (split; [done|]).
  - destruct (step_inv r o Hi) as (r1 & E1 & Hi1 & _ & Hc1). rewrite E1.
    destruct (IH r1 Hi1) as (r2 & E2 & Hi2 & Hc2). rewrite E2.
    exists r2. split; [done|]. split; [done|].
    intros Hc. destruct (Hc1 Hc) as [Hc1' Hs1]. destruct (Hc2 Hc1') as [Hc2' Hs2].
    split; [done|congruence].
Qed.

Lemma run_app ops1 : forall r ops2,
  run r (ops1 ++ ops2) =
    match run r ops1 with
    | None => None
    | Some (r1, es1) =>
        match run r1 ops2 with
        | None => None
        | Some (r2, es2) => Some (r2, es1 ++ es2)
        end
    end.
Proof.
  induction ops1 as [|o rest IH]; intros r ops2; cbn [run app].
  - by destruct (run r ops2) as [[? ?]|].
  - destruct (step r o) as [[r1 e]|]; [|done]. rewrite IH.
    destruct (run r1 rest) as [[r2 es]|]; [|done].
    by destruct (run r2 ops2) as [[? ?]|].
Qed.

(** The replicator is closed, or the server is listed. *)
Definition present (r : Replicator) (name : string) : Prop :=
  closed r = true \/ exists m ch, servers r = Some m /\ m !! name = Some ch.

Lemma step_present r o name r' e :
  ready r -> present r name -> o <> OpLeave name ->
  step r o = Some (r', e) -> ready r' /\ present r' name.
Proof.
  intros Hr Hp Ho. pose proof Hr as [[m Hm] [c Hc]].
  destruct o as [n a|n|]; cbn [step]; unfold Join, Leave, Close; rewrite (init_id r Hr).
  - destruct (closed r) eqn:Ecl; [by intros [= <- _]|].
    rewrite Hm. cbn [mbind option_bind].
    destruct (m !! n) as [ch|] eqn:En; [by intros [= <- _]|].
    intros [= <- _]. split; [split; cbn; by eexists|].
    destruct Hp as [Hp|(m' & ch & Hm' & Hn)]; [congruence|].
    rewrite Hm in Hm'. injection Hm' as <-.
    right. exists (<[n := length (chans r)]> m), ch. split; [done|].
    rewrite lookup_insert_ne; [done|]. intros ->. congruence.
  - rewrite Hm. cbn [mbind option_bind fmap option_fmap option_map].
    destruct (m !! n) as [ch|] eqn:En; [|by intros [= <- _]].
    destruct (close_chan (chans r) ch) as [chs|]; [|done].
    intros [= <- _]. split; [split; cbn; by eexists|].
    destruct Hp as [Hp|(m' & ch' & Hm' & Hn)]; [by left|].
    rewrite Hm in Hm'. injection Hm' as <-.
    right. exists (delete n m), ch'. split; [done|].
    apply lookup_delete_Some. split; [|done]. intros ->. by apply Ho.
  - destruct (closed r) eqn:Ecl; [by intros [= <- _]|].
    rewrite Hc. destruct (close_chan (chans r) c) as [chs|]; [|done].
    intros [= <- _]. split; [split; cbn; by eexists|]. by left.
Qed.

Lemma run_present ops name : forall r r' es,
  ready r -> present r name -> OpLeave name ∉ ops ->
  run r ops = Some (r', es) -> ready r' /\ present r' name.
Proof.
  induction ops as [|o rest IH]; intros r r' es Hr Hp Hno; cbn [run].
  - by intros [= <- _].
  - apply not_elem_of_cons in Hno as [Ho Hno].
    destruct (step r o) as [[r1 e]|] eqn:E1; [|done].
    destruct (step_present r o name r1 e Hr Hp (not_eq_sym Ho) E1) as [Hr1 Hp1].
    destruct (run r1 rest) as [[r2 es2]|] eqn:E2; [|done].
    intros [= <- _]. by apply (IH r1 r2 es2).
Qed.

End replicator_facts.

Section ReplicatorCalls.

Import replicator replicator_facts.

(** X14. From the zero value, no sequence of [Join], [Leave] and [Close]
    calls panics, and every call returns [nil].  At the end the leave
    channel of a started replication is open exactly when a server is still
    listed with it, and the [close] channel, once made, is closed exactly
    when the replicator is closed. *)
Theorem X14_replicator_calls_never_panic (ops : list op) :
  exists r,
    run zero ops = Some (r, replicate (length ops) None) /\
    (forall addr ch, (addr, ch) ∈ started r ->
       (chans r !! ch = Some false <-> listed r ch)) /\
    (forall c, close r = Some c -> chans r !! c = Some (closed r)).
Proof.
  destruct (run_inv ops zero inv_zero) as (r & E & Hi & _).
  exists r. split; [done|]. split; [|apply (inv_close r Hi)].
  intros addr ch Hin. split; [apply (inv_started r Hi addr ch Hin)|apply (inv_open r Hi)].
Qed.

(** X15. [Join] of a name that was joined and has not left since changes
    nothing, whatever address comes with it and whatever other calls were
    made in between: no channel is made and no replication is started. *)
Theorem X15_Join_again_changes_nothing (ops1 ops2 : list op) (name addr addr' : string)
    (r : Replicator) (es : list (option error)) :
  run zero (ops1 ++ OpJoin name addr :: ops2) = Some (r, es) ->
  OpLeave name ∉ ops2 ->
  Join r name addr' = Some (r, None).
Proof.
  rewrite run_app.
  destruct (run_inv ops1 zero inv_zero) as (r1 & E1 & Hi1 & _). rewrite E1.
  cbn [run step].
  destruct (Join_inv r1 name addr Hi1) as (r2 & E2 & Hi2 & Hr2 & _ & _ & Hor). rewrite E2.
  destruct (run r2 ops2) as [[r3 es3]|] eqn:E3; [|done].
  intros [= <- _] Hno.
  destruct (run_present ops2 name r2 r3 es3 Hr2 Hor Hno E3) as [Hr3 Hp3].
  unfold Join. rewrite (init_id r3 Hr3).
  destruct Hp3 as [-> | (m & ch & Hm & Hn)]; [done|].
  destruct (closed r3); [done|]. rewrite Hm. cbn [mbind option_bind]. by rewrite Hn.
Qed.

(** X16. Once [Close] was called, no later call starts a replication, and
    the replicator stays closed. *)
Theorem X16_nothing_starts_after_Close (ops1 ops2 : list op) (r1 : Replicator)
    (es1 : list (option error)) :
  run zero (ops1 ++ [OpClose]) = Some (r1, es1) ->
  exists r2 es2,
    run zero (ops1 ++ [OpClose] ++ ops2) = Some (r2, es1 ++ es2) /\
    closed r2 = true /\ started r2 = started r1.
Proof.
  intros E. rewrite app_assoc, run_app, E.
  assert (Hi1 : inv r1 /\ closed r1 = true).
  { rewrite run_app in E.
    destruct (run_inv ops1 zero inv_zero) as (r0 & E0 & Hi0 & _). rewrite E0 in E.
    cbn [run step] in E.
    destruct (Close_inv r0 Hi0) as (r' & E' & Hi' & _ & Hc & _). rewrite E' in E.
    by injection E as <- _. }
  destruct Hi1 as [Hi1 Hc1].
  destruct (run_inv ops2 r1 Hi1) as (r2 & E2 & _ & Hc2). rewrite E2.
  destruct (Hc2 Hc1) as [Hc Hs]. by exists r2, (replicate (length ops2) None).
Qed.

End ReplicatorCalls.

Lemma X15_witness :
  replicator.Join two_servers "1" "127.0.0.1:9401" = Some (two_servers, None).
Proof.
  assert (E : replicator.run replicator.zero
                ([] ++ replicator.OpJoin "1" "127.0.0.1:8401"
                       :: [replicator.OpJoin "2" "127.0.0.1:8402"])
              = Some (two_servers, [None; None]))
    by (vm_compute; reflexivity).
  assert (Hno : replicator.OpLeave "1" ∉ [replicator.OpJoin "2" "127.0.0.1:8402"]).
  { intros Hin. apply list_elem_of_singleton in Hin. discriminate. }
  exact (X15_Join_again_changes_nothing [] [replicator.OpJoin "2" "127.0.0.1:8402"]
           "1" "127.0.0.1:8401" "127.0.0.1:9401" _ _ E Hno).
Defined.

Lemma X16_witness :
  exists r2 es2,
    replicator.run replicator.zero
      ([replicator.OpJoin "1" "127.0.0.1:8401"] ++ [replicator.OpClose] ++
       [replicator.OpJoin "2" "127.0.0.1:8402"]) = Some (r2, [None; None] ++ es2) /\
    replicator.closed r2 = true /\
    replicator.started r2 = [("127.0.0.1:8401"%string, 1%nat)].
Proof.
  assert (E : replicator.run replicator.zero
                ([replicator.OpJoin "1" "127.0.0.1:8401"] ++ [replicator.OpClose])
              = Some ({| replicator.servers := Some {[ "1"%string := 1%nat ]};
                         replicator.closed := true;
                         replicator.close := Some 0%nat; replicator.chans := [true; false];
                         replicator.started := [("127.0.0.1:8401"%string, 1%nat)] |},
                      [None; None]))
    by reflexivity.
  exact (X16_nothing_starts_after_Close
           [replicator.OpJoin "1" "127.0.0.1:8401"]
           [replicator.OpJoin "2" "127.0.0.1:8402"] _ _ E).
Defined.

(** ** The server *)

Section Server.

Import server.

Context `{Codec}.

Variable Authorize : string -> string -> string -> option error.


(** The active segment is the last one of the list unless [Truncate]
    removed it. *)
Lemma active_listed c fs l :
  log_shape c fs l -> activeSegment l = last (segments l) -> orphan l = None.
Proof.
  intros Hshape Hact. pose proof (ls_active _ _ _ Hshape) as Ha.
  unfold activeSegment in Hact.
  destruct (orphan l) as [d|]; [|done].
  destruct Ha as (Hnil & _). by rewrite Hnil in Hact.
Qed.

Lemma Append_unlisted_unreadable c fs l r fs' l' r' off :
  log_shape c fs l -> append_in_bounds l r -> activeSegment l <> last (segments l) ->
  Log_Append fs l r = (fs', l', r', (off, None)) ->
  Log_Read fs' l' off = (fs', l', (None, Some (ErrorOffsetOutOfRange off))).
Proof.
  intros Hshape Hb Hact Happ.
  assert (Hlt : forall a0, activeSegment l = Some a0 -> nextOffset a0 < MaxUint64).
  { intros a0 Ha0. unfold append_in_bounds in Hb. rewrite Ha0 in Hb. apply Hb. }
  assert (Hnil : segments l = [] /\ exists d, orphan l = Some d).
  { pose proof (ls_active _ _ _ Hshape) as Ha. unfold activeSegment in Hact.
    destruct (orphan l) as [d|]; [|done]. split; [apply Ha|by exists d]. }
  destruct Hnil as [Hnil [d Hd]].
  destruct (Log_Append_shape _ _ _ _ _ _ _ _ Hshape Hlt Happ)
    as (a0 & a1 & Ha0 & _ & _ & _ & Hcase).
  assert (Hoff : off = nextOffset a0).
  { destruct Hcase as [[E _]|(e & E & _)]; congruence. }
  destruct (Log_Append_step _ _ _ _ _ _ _ _ Hshape Hlt Happ)
    as (a & Ha & fs1 & a1' & res1 & _ & _ & Hstep).
  rewrite Ha0 in Ha. injection Ha as <-.
  assert (Hsegs : segments (set_active l a1') = []).
  { unfold set_active. by rewrite Hd. }
  apply Log_Read_outside. intros s Hs Hin.
  destruct Hstep as [[_ ->]|(_ & -> & _)].
  - rewrite Hsegs in Hs. by apply elem_of_nil in Hs.
  - cbn [segments] in Hs. rewrite Hsegs in Hs. cbn in Hs.
    apply list_elem_of_singleton in Hs as ->.
    unfold in_segment, fresh_segment in Hin. cbn in Hin. lia.
Qed.

(** X17. A record that [Produce] accepted is what [Consume] returns for the
    offset of the response, for every subject allowed to consume: the value
    of the request with the offset the log gave it, whatever offset the
    request carried.  This holds while the active segment of the log is the
    last segment of its list.  Once a [Truncate] has removed the active
    segment it does not: [Produce] still accepts the record, and [Consume]
    of the offset it returned fails with [ErrorOffsetOutOfRange]. *)
Theorem X17_Produce_then_Consume (c : Config) (fs : FS) (l : Log)
    (subject subject' : string) (record : Record_)
    (fs1 : FS) (l1 : Log) (res : ProduceResponse) :
  reachable c fs l -> append_in_bounds l record ->
  Authorize subject' objectWildcard consumeAction = None ->
  Produce Authorize fs l subject record = (fs1, l1, inl res) ->
  (activeSegment l = last (segments l) ->
   (Consume Authorize fs1 l1 subject' (p_Offset res)).2 =
     inl {| c_Record := Some (set_Offset record (p_Offset res)) |}) /\
  (activeSegment l <> last (segments l) ->
   (Consume Authorize fs1 l1 subject' (p_Offset res)).2 =
     inr (ErrorOffsetOutOfRange (p_Offset res))).
Proof.
  intros Hre Hb Hauth Hprod.
  destruct (reachable_inv _ _ _ Hre) as [Hshape _].
  unfold Produce in Hprod.
  destruct (Authorize subject objectWildcard produceAction); [done|].
  destruct (Log_Append fs l record) as [[[fsa la] ra] [off [e|]]] eqn:Eapp; [done|].
  injection Hprod as <- <- <-. cbn [p_Offset]. split.
  - intros Hact. pose proof (active_listed _ _ _ Hshape Hact) as Ho.
    destruct (Append_then_Read _ _ _ _ _ _ _ _ Hre Ho Hb Eapp) as (_ & fs2 & l2 & Eread).
    unfold Consume. by rewrite Hauth, Eread.
  - intros Hact. unfold Consume.
    by rewrite Hauth, (Append_unlisted_unreadable _ _ _ _ _ _ _ _ Hshape Hb Hact Eapp).
Qed.

Lemma covered_in_segment (segs : list segment) o :
  covered (offsets <$> segs) o <-> exists s, s ∈ segs /\ in_segment o s.
Proof.
  unfold covered, in_segment. split.
  - intros (p & Hp & Hin). apply list_elem_of_fmap in Hp as (s & -> & Hs). by exists s.
  - intros (s & Hs & Hin). exists (offsets s). split; [by apply list_elem_of_fmap_2|done].
Qed.

Lemma consume_loop_outside rounds : forall fs l stream off sent,
  Authorize (cs_subject stream) objectWildcard consumeAction = None ->
  ~ covered (offsets <$> segments l) off ->
  consume_loop Authorize rounds fs l stream off sent = (fs, l, off, sent, None).
Proof.
  induction rounds as [|k IH]; intros fs l stream off sent Hauth Hout; [done|].
  cbn [consume_loop]. unfold Consume. rewrite Hauth.
  rewrite (Log_Read_outside fs l off).
  - by apply IH.
  - intros s Hs Hin. apply Hout, covered_in_segment. by exists s.
Qed.

Lemma consume_loop_records c offs hi stream :
  Authorize (cs_subject stream) objectWildcard consumeAction = None ->
  (forall k, cs_send stream k = None) ->
  MaxIndexBytes c <= endWidth * 2 ^ 32 ->
  ~ covered offs hi -> hi < 2 ^ 64 ->
  forall rounds fs l off sent,
    log_shape c fs l -> log_data fs l -> offsets <$> segments l = offs ->
    (forall o, off <= o < hi -> covered offs o) ->
    0 <= off <= hi -> hi - off <= Z.of_nat rounds ->
    exists fs' l' more,
      consume_loop Authorize rounds fs l stream off sent = (fs', l', hi, sent ++ more, None) /\
      len more = hi - off /\
      forall i res, more !! i = Some res ->
        exists record, res = {| c_Record := Some record |} /\
                       Offset record = off + Z.of_nat i /\
                       (Log_Read fs l (off + Z.of_nat i)).2 = (Some record, None).
Proof.
  intros Hauth Hsend Hmax Hout Hhi.
  induction rounds as [|k IH]; intros fs l off sent Hshape Hdata Hoffs Hcov Hoff Hk.
  - exists fs, l, []. cbn [consume_loop]. rewrite app_nil_r.
    assert (off = hi) as -> by lia. split; [done|]. split; [unfold len; cbn; lia|done].
  - destruct (decide (off = hi)) as [->|Hne].
    { exists fs, l, []. rewrite app_nil_r.
      rewrite consume_loop_outside by (by rewrite ?Hoffs).
      split; [done|]. split; [unfold len; cbn; lia|done]. }
    assert (Hin : covered (offsets <$> segments l) off) by (rewrite Hoffs; apply Hcov; lia).
    apply covered_in_segment in Hin as (s & Hs & Hin).
    destruct (holds_in_range fs l s off Hdata Hs Hin) as (r & Hr & Hro).
    destruct (Log_Read_holds _ fs l off r Hshape Hdata Hmax Hr) as (fs1 & l1 & Eread).
    destruct (Log_Read_shape _ _ _ _ _ _ _ Hshape Eread) as (Hshape1 & _ & Hoffs1 & _).
    destruct (Log_Read_data _ _ _ _ _ _ _ Hshape Hdata Hmax Eread) as (Hdata1 & _).
    pose proof (Log_Read_same _ _ _ _ _ _ _ Hshape Hdata Hmax Eread) as Hsame.
    assert (Hw : wrap64 (off + 1) = off + 1) by (unfold wrap64; apply Z.mod_small; lia).
    destruct (IH fs1 l1 (off + 1) (sent ++ [{| c_Record := Some r |}]) Hshape1 Hdata1)
      as (fs' & l' & more & Eloop & Hlen & Hmore).
    { by rewrite Hoffs1. }
    { intros o Ho. apply Hcov. lia. }
    { lia. }
    { lia. }
    exists fs', l', ({| c_Record := Some r |} :: more).
    cbn [consume_loop]. unfold Consume. rewrite Hauth, Eread, Hsend, Hw, Eloop.
    rewrite <- app_assoc. split; [done|].
    split; [unfold len in *; cbn [length]; lia|].
    intros [|i] res Hi.
    + injection Hi as <-. exists r. rewrite Z.add_0_r, Eread. done.
    + cbn in Hi. destruct (Hmore i res Hi) as (record & -> & Ho & Hread).
      exists record. split; [done|].
      replace (off + Z.of_nat (S i)) with (off + 1 + Z.of_nat i) by lia.
      split; [done|]. by rewrite <- Hsame.
Qed.

(** X18. On a log whose segments run from [lowest] to [highest],
    [ConsumeStream] from an offset in that range, for an allowed subject
    and a client that takes every message, sends the records of that
    offset and of every later offset, one by one in order, each carrying
    its offset.  Then it polls the first offset without a record, sends
    nothing more, and returns [nil] when its context is done; the offset
    of the request has stopped at that first missing offset. *)
Theorem X18_ConsumeStream_sends_the_records_in_order (c : Config) (fs : FS) (l : Log)
    (stream : ConsumeStreamServer) (off : Z) (s0 a : segment) :
  reachable c fs l ->
  head (segments l) = Some s0 -> last (segments l) = Some a ->
  baseOffset s0 <= off <= nextOffset a ->
  Authorize (cs_subject stream) objectWildcard consumeAction = None ->
  (forall k, cs_send stream k = None) ->
  nextOffset a - off <= Z.of_nat (cs_rounds stream) ->
  exists fs' l' sent,
    ConsumeStream Authorize fs l off stream = (fs', l', nextOffset a, sent, None) /\
    len sent = nextOffset a - off /\
    forall i res, sent !! i = Some res ->
      exists record, res = {| c_Record := Some record |} /\
                     Offset record = off + Z.of_nat i /\
                     (Log_Read fs l (off + Z.of_nat i)).2 = (Some record, None).
Proof.
  intros Hre Hhd Hla Hoff Hauth Hsend Hrounds.
  pose proof (reachable_Config_ok _ _ _ Hre) as Hok.
  destruct (Config_ok_defaults _ Hok) as [_ Hmax].
  destruct (reachable_inv _ _ _ Hre) as [Hshape Hdata].
  pose proof (ls_segs _ _ _ Hshape) as Hsh. pose proof (ls_chain _ _ _ Hshape) as Hch.
  assert (Ha : seg_shape (Config_defaults c) a).
  { eapply Forall_forall; [exact Hsh|]. by apply last_Some_elem_of. }
  assert (Hs0 : seg_shape (Config_defaults c) s0).
  { eapply Forall_forall; [exact Hsh|]. by apply head_Some_elem_of. }
  pose proof (sh_next _ _ Ha) as Hnext. pose proof (sh_base _ _ Hs0) as Hbase.
  unfold ConsumeStream.
  destruct (consume_loop_records _ (offsets <$> segments l) (nextOffset a) stream
              Hauth Hsend Hmax) with (rounds := cs_rounds stream) (fs := fs) (l := l)
              (off := off) (sent := @nil ConsumeResponse)
    as (fs' & l' & more & E & Hlen & Hmore); try done; try lia.
  - intros Hc. apply covered_in_segment in Hc as (s & Hs & Hin).
    destruct (chain_range _ _ s0 a s Hch Hsh Hhd Hla Hs) as [_ Hle].
    unfold in_segment in Hin. lia.
  - intros o Ho. apply covered_in_segment.
    apply (chain_cover _ _ s0 a o Hch Hsh Hhd Hla). lia.
  - by exists fs', l', more.
Qed.

Lemma consume_loop_offset rounds : forall fs l stream off sent,
  0 <= off < 2 ^ 64 ->
  let out := consume_loop Authorize rounds fs l stream off sent in
  exists more, out.1.2 = sent ++ more /\ out.1.1.2 = wrap64 (off + len more).
Proof.
  induction rounds as [|k IH]; intros fs l stream off sent Hoff; cbn zeta.
  - exists []. rewrite app_nil_r. cbn. split; [done|].
    unfold wrap64, len. cbn. rewrite Z.add_0_r, Z.mod_small; lia.
  - assert (Hstay : forall (fs1 : FS) (l1 : Log) (e : option error),
              exists more, (fs1, l1, off, sent, e).1.2 = sent ++ more /\
                           (fs1, l1, off, sent, e).1.1.2 = wrap64 (off + len more)).
    { intros. exists []. rewrite app_nil_r. cbn. split; [done|].
      unfold wrap64, len. cbn. rewrite Z.add_0_r, Z.mod_small; lia. }
    cbn [consume_loop].
    destruct (Consume Authorize fs l (cs_subject stream) off) as [[fs1 l1] [res|e]].
    + destruct (cs_send stream (length sent)) as [e|]; [apply Hstay|].
      destruct (IH fs1 l1 stream (wrap64 (off + 1)) (sent ++ [res])) as (more & E1 & E2).
      { unfold wrap64. apply Z.mod_pos_bound. lia. }
      exists (res :: more). rewrite E1, E2, <- app_assoc. split; [done|].
      unfold wrap64, len. cbn [length]. rewrite Z.add_mod_idemp_l by lia.
      f_equal. lia.
    + destruct e; try apply Hstay. by apply IH.
Qed.

(** X19. Whatever the log holds and however the call ends, [ConsumeStream]
    advances the offset of its request by one for each message it sent and
    by nothing else: at the end the offset is the starting offset plus the
    number of messages sent, modulo [2^64]. *)
Theorem X19_ConsumeStream_offset_counts_the_messages (fs : FS) (l : Log)
    (stream : ConsumeStreamServer) (off : Z) :
  uint64 off ->
  (ConsumeStream Authorize fs l off stream).1.1.2 =
    wrap64 (off + len (ConsumeStream Authorize fs l off stream).1.2).
Proof.
  intros Hoff. unfold ConsumeStream.
  destruct (consume_loop_offset (cs_rounds stream) fs l stream off [] Hoff) as (more & E1 & E2).
  rewrite E2, E1. done.
Qed.



End Server.

Lemma X17_witness :
  (server.Consume allow_all four_fs four_log "nobody" 3).2 =
    inl {| server.c_Record := Some (set_Offset hello 3) |} /\
  (server.Consume allow_all stale_fs stale_log "nobody" 3).2 =
    inr (ErrorOffsetOutOfRange 3).
Proof.
  assert (Hb : append_in_bounds three_log hello)
    by (apply bounds_check_ok; vm_compute; reflexivity).
  assert (Hp : server.Produce allow_all three_fs three_log "root" hello
               = (four_fs, four_log, inl {| server.p_Offset := 3 |}))
    by (vm_compute; reflexivity).
  assert (Ha : activeSegment three_log = last (segments three_log))
    by (vm_compute; reflexivity).
  assert (Ht : Log_Truncate three_fs three_log 2 = (truncated_fs, truncated_log, None))
    by (vm_compute; reflexivity).
  assert (Hu : uint64 2) by (unfold uint64; lia).
  assert (Hb' : append_in_bounds truncated_log hello)
    by (apply bounds_check_ok; vm_compute; reflexivity).
  assert (Hp' : server.Produce allow_all truncated_fs truncated_log "root" hello
                = (stale_fs, stale_log, inl {| server.p_Offset := 3 |}))
    by (vm_compute; reflexivity).
  assert (Ha' : activeSegment truncated_log <> last (segments truncated_log))
    by (vm_compute; discriminate).
  split.
  - exact (proj1 (X17_Produce_then_Consume allow_all test_config three_fs three_log
                    "root" "nobody" hello four_fs four_log {| server.p_Offset := 3 |}
                    three_reachable Hb eq_refl Hp) Ha).
  - exact (proj2 (X17_Produce_then_Consume allow_all test_config truncated_fs truncated_log
                    "root" "nobody" hello stale_fs stale_log {| server.p_Offset := 3 |}
                    (reach_Truncate test_config three_fs three_log 2 truncated_fs
                       truncated_log None three_reachable Hu Ht)
                    Hb' eq_refl Hp') Ha').
Defined.

Lemma X18_witness :
  exists fs' l' sent,
    server.ConsumeStream allow_all three_fs three_log 1 taker
      = (fs', l', nextOffset three_last, sent, None) /\
    len sent = nextOffset three_last - 1 /\
    forall i res, sent !! i = Some res ->
      exists record, res = {| server.c_Record := Some record |} /\
                     Offset record = 1 + Z.of_nat i /\
                     (Log_Read three_fs three_log (1 + Z.of_nat i)).2 = (Some record, None).
Proof.
  assert (Hhd : head (segments three_log) = Some three_first) by (vm_compute; reflexivity).
  assert (Hla : last (segments three_log) = Some three_last) by (vm_compute; reflexivity).
  assert (Hoff : baseOffset three_first <= 1 <= nextOffset three_last)
    by (vm_compute; split; discriminate).
  assert (Hr : nextOffset three_last - 1 <= Z.of_nat (server.cs_rounds taker))
    by (vm_compute; discriminate).
  exact (X18_ConsumeStream_sends_the_records_in_order allow_all test_config three_fs three_log
           taker 1 three_first three_last three_reachable Hhd Hla Hoff eq_refl
           (fun _ => eq_refl) Hr).
Defined.

Lemma X19_witness :
  (server.ConsumeStream allow_all three_fs three_log 1 taker).1.1.2 =
    wrap64 (1 + len (server.ConsumeStream allow_all three_fs three_log 1 taker).1.2).
Proof.
  assert (Hoff : uint64 1) by (unfold uint64; lia).
  exact (X19_ConsumeStream_offset_counts_the_messages allow_all three_fs three_log taker 1 Hoff).
Defined.

